(** * httpgovernor: concurrency limiting for an http.Handler

    A shallow embedding of [patternestimator.go] and [governor.go],
    together with the two library routines they rely on
    ([path.Clean] and the weighted semaphore of
    [golang.org/x/sync/semaphore]), and the properties of the
    specification that are stated about them. *)

From Stdlib Require Import ZArith Ascii String Lia.
From stdpp Require Import gmap strings list sorting.

Local Open Scope string_scope.
Local Open Scope Z_scope.

(** ** Go's [strings] package, as far as the estimator uses it

    Go strings are byte sequences; [string] over [ascii] is the same
    thing.  Indices are [Z] because the Go functions return [-1] for
    "not found". *)

Module strings.

Definition len (s : string) : Z := Z.of_nat (String.length s).

(** [s[i]]; the null byte stands for an index out of range (a run-time
    panic in Go).  The callers below never index out of range, see
    [stripPort_in_range]. *)
Definition at_ (s : string) (i : Z) : ascii :=
  if i <? 0 then zero
  else match String.get (Z.to_nat i) s with
       | Some b => b
       | None => zero
       end.

(** [s[:n]] and [s[n:]] *)
Definition upto (s : string) (n : Z) : string :=
  String.substring 0 (Z.to_nat n) s.
Definition from (s : string) (n : Z) : string :=
  String.substring (Z.to_nat n) (String.length s - Z.to_nat n) s.

Definition HasPrefix (s prefix : string) : bool := String.prefix prefix s.

Definition HasSuffix (s suffix : string) : bool :=
  (len suffix <=? len s) && String.eqb (from s (len s - len suffix)) suffix.

(** [strings.IndexByte]: position of the first [c], or [-1]. *)
Fixpoint IndexByte (s : string) (c : ascii) : Z :=
  match s with
  | EmptyString => -1
  | String b s' =>
      if Ascii.eqb b c then 0
      else let r := IndexByte s' c in if r =? -1 then -1 else r + 1
  end.

(** [strings.LastIndexByte]: position of the last [c], or [-1]. *)
Fixpoint LastIndexByte (s : string) (c : ascii) : Z :=
  match s with
  | EmptyString => -1
  | String b s' =>
      let r := LastIndexByte s' c in
      if r =? -1 then (if Ascii.eqb b c then 0 else -1) else r + 1
  end.

(** [strings.Index(s, "/")]: the estimator only ever searches for the
    one-byte string ["/"], for which [Index] is [IndexByte]. *)
Definition Index_slash (s : string) : Z := IndexByte s "/"%char.

End strings.

(** ** Go's [path.Clean]

    The lazily allocated output buffer of the original is the list of
    bytes written so far; [w] is its length.  The main loop advances the
    read index [r] by at least one in every iteration, so [length path]
    iterations are enough. *)

Module stdpath.

Definition slash : ascii := "/"%char.
Definition dot : ascii := "."%char.

(** The inner loop of the [..] case:
    [for out.w > dotdot && out.index(out.w) != '/' { out.w-- }]. *)
Fixpoint backtrack (fuel : nat) (out : list ascii) (w dotdot : nat) : nat :=
  match fuel with
  | O => w
  | S fuel' =>
      if (dotdot <? w)%nat && negb (Ascii.eqb (nth w out zero) slash)
      then backtrack fuel' out (w - 1)%nat dotdot
      else w
  end.

(** The inner loop of the default case:
    [for ; r < n && path[r] != '/'; r++ { out.append(path[r]) }]. *)
Fixpoint copy_element (fuel : nat) (path : list ascii) (r : nat)
         (out : list ascii) : nat * list ascii :=
  match fuel with
  | O => (r, out)
  | S fuel' =>
      if (r <? List.length path)%nat && negb (Ascii.eqb (nth r path zero) slash)
      then copy_element fuel' path (r + 1)%nat (out ++ [nth r path zero])%list
      else (r, out)
  end.

Fixpoint clean_loop (fuel : nat) (rooted : bool) (path : list ascii)
         (r : nat) (out : list ascii) (dotdot : nat) : list ascii :=
  match fuel with
  | O => out
  | S fuel' =>
      let n := List.length path in
      if negb (r <? n)%nat then out
      else if Ascii.eqb (nth r path zero) slash then
        (* empty path element *)
        clean_loop fuel' rooted path (r + 1)%nat out dotdot
      else if Ascii.eqb (nth r path zero) dot
              && ((r + 1 =? n)%nat || Ascii.eqb (nth (r + 1) path zero) slash) then
        (* . element *)
        clean_loop fuel' rooted path (r + 1)%nat out dotdot
      else if Ascii.eqb (nth r path zero) dot
              && Ascii.eqb (nth (r + 1) path zero) dot
              && ((r + 2 =? n)%nat || Ascii.eqb (nth (r + 2) path zero) slash) then
        (* .. element: remove to last / *)
        if (dotdot <? List.length out)%nat then
          let w := backtrack (List.length out) out (List.length out - 1)%nat dotdot in
          clean_loop fuel' rooted path (r + 2)%nat (firstn w out) dotdot
        else if negb rooted then
          let out1 := if (0 <? List.length out)%nat then (out ++ [slash])%list else out in
          let out2 := (out1 ++ [dot; dot])%list in
          clean_loop fuel' rooted path (r + 2)%nat out2 (List.length out2)
        else
          clean_loop fuel' rooted path (r + 2)%nat out dotdot
      else
        (* real path element: add slash if needed, copy element *)
        let out1 :=
          if (rooted && negb (List.length out =? 1)%nat)
             || (negb rooted && negb (List.length out =? 0)%nat)
          then (out ++ [slash])%list else out in
        let '(r', out2) := copy_element n path r out1 in
        clean_loop fuel' rooted path r' out2 dotdot
  end.

Definition Clean (path : string) : string :=
  if String.eqb path "" then "."
  else
    let p := list_ascii_of_string path in
    let rooted := Ascii.eqb (nth 0 p zero) slash in
    let out :=
      if rooted then clean_loop (List.length p) rooted p 1 [slash] 1
      else clean_loop (List.length p) rooted p 0 [] 0 in
    (* Turn empty string into "." *)
    if (List.length out =? 0)%nat then "." else string_of_list_ascii out.

End stdpath.

(** ** patternestimator.go *)

(** The two fields of [http.Request] the estimator reads. *)
Record Request := mkRequest {
  Host : string;      (* req.Host *)
  URL_Path : string   (* req.URL.Path *)
}.

Record PatternCostEstimator := mkPCE {
  costs : gmap string Z;
  prefixes : list string;
  hasHost : bool
}.

(** [new(PatternCostEstimator)]: a nil map reads as an empty one. *)
Definition newPatternCostEstimator : PatternCostEstimator :=
  {| costs := ∅; prefixes := []; hasHost := false |}.

Definition stripPort (hostport : string) : string :=
  let n := strings.LastIndexByte hostport ":"%char in
  if n =? -1 then hostport
  else if Ascii.eqb (strings.at_ hostport 0) "["%char
          && negb (Ascii.eqb (strings.at_ hostport (n - 1)) "]"%char)
  then hostport
  else strings.upto hostport n.

(** The loop of [match] over [c.prefixes]. *)
Fixpoint match_prefixes (cs : gmap string Z) (ps : list string) (path : string)
  : Z * bool :=
  match ps with
  | [] => (1, false)
  | prefix :: ps' =>
      if strings.HasPrefix path prefix
      then (default 0 (cs !! prefix), true)
      else match_prefixes cs ps' path
  end.

Definition match_ (c : PatternCostEstimator) (path : string) : Z * bool :=
  match costs c !! path with
  | Some cost => (cost, true)
  | None => match_prefixes (costs c) (prefixes c) path
  end.

Definition EstimateCost (c : PatternCostEstimator) (req : Request) : Z :=
  let path := stdpath.Clean (URL_Path req) in
  let host_attempt :=
    if hasHost c then
      let host := stripPort (Host req) in
      match_ c (host ++ path)
    else (0, false) in
  if snd host_attempt then fst host_attempt
  else fst (match_ c path).

(** [addPrefix]: the early [return]s leave the remainder of the slice
    untouched; falling out of the loop appends. *)
Fixpoint addPrefix (ps : list string) (prefix : string) : list string :=
  match ps with
  | [] => [prefix]
  | p :: rest =>
      if String.eqb p prefix then p :: rest
      else if (String.length p <? String.length prefix)%nat then prefix :: p :: rest
      else p :: addPrefix rest prefix
  end.

(** The pattern-splitting [switch] at the head of [SetCost]. *)
Definition splitPattern (path : string) : string * string :=
  let n := strings.Index_slash path in
  if n =? -1 then (path, "/")
  else if n =? 0 then ("", path)
  else (strings.upto path n, strings.from path n).

Definition SetCost (c : PatternCostEstimator) (path : string) (cost : Z)
  : PatternCostEstimator :=
  let '(host, path) := splitPattern path in
  let prefix := strings.HasSuffix path "/" in
  let path := stdpath.Clean path in
  let path := if prefix && negb (strings.HasSuffix path "/") then path ++ "/" else path in
  let cleanPath := host ++ path in
  let hasHost' := if negb (String.eqb host "") then true else hasHost c in
  let prefixes' := if prefix then addPrefix (prefixes c) cleanPath else prefixes c in
  {| costs := <[cleanPath := cost]> (costs c);
     prefixes := prefixes';
     hasHost := hasHost' |}.

(** A configuration is a sequence of [SetCost] calls on a fresh estimator. *)
Definition configure (l : list (string * Z)) : PatternCostEstimator :=
  fold_left (fun c pc => SetCost c pc.1 pc.2) l newPatternCostEstimator.

(** ** The pattern table and its invariant *)

(** [longer a b]: [a] may stand in front of [b] in the prefix list. *)
Definition longer (a b : string) : Prop :=
  (String.length b <= String.length a)%nat.

Definition longest_first (ps : list string) : Prop := StronglySorted longer ps.

Record table_ok (c : PatternCostEstimator) : Prop := {
  ok_sorted : longest_first (prefixes c);
  ok_nodup : NoDup (prefixes c);
  ok_costs : forall p, p ∈ prefixes c -> is_Some (costs c !! p)
}.

(** The key under which [SetCost] files a pattern, and whether the
    pattern denotes a subtree. *)
Definition isSubtree (pattern : string) : bool :=
  strings.HasSuffix (splitPattern pattern).2 "/".

Definition patternKey (pattern : string) : string :=
  let '(host, path) := splitPattern pattern in
  let prefix := strings.HasSuffix path "/" in
  let path := stdpath.Clean path in
  host ++ (if prefix && negb (strings.HasSuffix path "/") then path ++ "/" else path).

(** The candidate keys of a request. *)
Definition hostKey (req : Request) : string :=
  stripPort (Host req) ++ stdpath.Clean (URL_Path req).
Definition pathKey (req : Request) : string := stdpath.Clean (URL_Path req).

(** A candidate key has no match at all: neither exact nor by prefix. *)
Definition no_match (c : PatternCostEstimator) (key : string) : Prop :=
  costs c !! key = None /\
  Forall (fun p => strings.HasPrefix key p = false) (prefixes c).


(** ** int64 arithmetic *)

Module int64.

Definition min : Z := - 2 ^ 63.
Definition max : Z := 2 ^ 63 - 1.

Definition in_range (z : Z) : Prop := min <= z <= max.

(** Two's complement wrap-around of Go's signed 64-bit integers. *)
Definition wrap (z : Z) : Z := (z + 2 ^ 63) mod 2 ^ 64 - 2 ^ 63.

Definition add (a b : Z) : Z := wrap (a + b).
Definition sub (a b : Z) : Z := wrap (a - b).

End int64.

(** ** The weighted semaphore ([golang.org/x/sync/semaphore])

    [governor.go] builds on this library type.  A waiter's [ready]
    channel is identified with the goroutine that waits on it.  Each
    function below is one critical section of the library (one stretch
    of code run with [s.mu] held), so that goroutines interleave only
    where the library lets them.

    The library changed how [Acquire] treats cancellation over the
    years; [revision] selects the behaviour, and everything below is
    proved for every revision. *)

Module semaphore.

Inductive revision :=
| Plain           (* a cancelled waiter is removed from the list; a grant
                     that raced with the cancellation is kept *)
| NotifyOnCancel  (* as [Plain], and when the removed waiter was at the
                     front and tokens are free the next waiters are
                     notified *)
| CheckContext.   (* as [NotifyOnCancel], and the context is checked on
                     entry and after wake-up; a grant that raced with
                     the cancellation is handed back *)

Record waiter := mkWaiter {
  w_n : Z;          (* n *)
  w_ready : nat     (* ready: the goroutine blocked on the channel *)
}.

Record Weighted := mkWeighted {
  size : Z;
  cur : Z;
  waiters : list waiter
}.

Definition NewWeighted (n : Z) : Weighted :=
  {| size := n; cur := 0; waiters := [] |}.

Definition TryAcquire (s : Weighted) (n : Z) : Weighted * bool :=
  let success :=
    (n <=? int64.sub (size s) (cur s)) && (length (waiters s) =? 0)%nat in
  if success
  then ({| size := size s; cur := int64.add (cur s) n; waiters := waiters s |}, true)
  else (s, false).

(** The loop of [notifyWaiters]: grant from the front of the list while
    the tokens suffice.  Returns the new [cur], the remaining waiters
    and the goroutines whose [ready] channel was closed. *)
Fixpoint notify_loop (size cur : Z) (ws : list waiter) : Z * list waiter * list nat :=
  match ws with
  | [] => (cur, [], [])
  | w :: rest =>
      if int64.sub size cur <? w_n w then (cur, ws, [])
      else
        let '(cur', ws', closed) := notify_loop size (int64.add cur (w_n w)) rest in
        (cur', ws', w_ready w :: closed)
  end.

Definition notifyWaiters (s : Weighted) : Weighted * list nat :=
  let '(cur', ws', closed) := notify_loop (size s) (cur s) (waiters s) in
  ({| size := size s; cur := cur'; waiters := ws' |}, closed).

(** [Release]: the third component tells whether the call panicked with
    "semaphore: released more than held" (after [cur] was decremented,
    before any waiter was notified). *)
Definition Release (s : Weighted) (n : Z) : Weighted * list nat * bool :=
  let s1 := {| size := size s; cur := int64.sub (cur s) n; waiters := waiters s |} in
  if cur s1 <? 0 then (s1, [], true)
  else let '(s2, closed) := notifyWaiters s1 in (s2, closed, false).

(** How the first critical section of [Acquire] ends. *)
Inductive entry :=
| EntryErr       (* ctx already done: return ctx.Err() *)
| EntryAcquired  (* fast path: return nil *)
| EntryDoomed    (* n > size: block on <-ctx.Done(), then return ctx.Err() *)
| EntryWait.     (* waiter pushed to the back: block in select *)

Definition Acquire_enter (rev : revision) (s : Weighted) (done : bool)
           (self : nat) (n : Z) : Weighted * entry :=
  if done && match rev with CheckContext => true | _ => false end
  then (s, EntryErr)
  else if (n <=? int64.sub (size s) (cur s)) && (length (waiters s) =? 0)%nat
  then ({| size := size s; cur := int64.add (cur s) n; waiters := waiters s |},
        EntryAcquired)
  else if size s <? n then (s, EntryDoomed)
  else ({| size := size s; cur := cur s;
           waiters := (waiters s ++ [{| w_n := n; w_ready := self |}])%list |},
        EntryWait).

Definition isFront (s : Weighted) (self : nat) : bool :=
  match waiters s with
  | w :: _ => (w_ready w =? self)%nat
  | [] => false
  end.

Definition remove (ws : list waiter) (self : nat) : list waiter :=
  filter (fun w => w_ready w <> self) ws.

(** The [case <-ctx.Done():] branch of the [select] in [Acquire], for a
    waiter whose [ready] channel is closed ([ready = true]) or not.  The
    third component is [true] when [Acquire] returns [nil] all the
    same. *)
Definition Acquire_cancel (rev : revision) (s : Weighted) (ready : bool)
           (self : nat) (n : Z) : Weighted * list nat * bool :=
  if ready then
    match rev with
    | CheckContext =>
        (* acquired after the cancellation: put the tokens back *)
        let '(s', closed) :=
          notifyWaiters {| size := size s; cur := int64.sub (cur s) n;
                           waiters := waiters s |} in
        (s', closed, false)
    | _ => (s, [], true)
    end
  else
    let front := isFront s self in
    let s1 := {| size := size s; cur := cur s; waiters := remove (waiters s) self |} in
    match rev with
    | Plain => (s1, [], false)
    | _ =>
        if front && (cur s1 <? size s1)
        then let '(s2, closed) := notifyWaiters s1 in (s2, closed, false)
        else (s1, [], false)
    end.

(** The [case <-ready:] branch: [Some r] when [Acquire] returns
    [ctx.Err()] after the [Release r] it ran, [None] when it returns
    [nil]. *)
Definition Acquire_ready (rev : revision) (s : Weighted) (done : bool) (n : Z)
  : option (Weighted * list nat * bool) :=
  match rev with
  | CheckContext => if done then Some (Release s n) else None
  | _ => None
  end.

End semaphore.

(** ** governor.go *)

(** [PathCostEstimator]: a map from URL path to cost, default 1. *)
Definition PathCostEstimator_EstimateCost (c : gmap string Z) (req : Request) : Z :=
  match c !! URL_Path req with
  | Some cost => cost
  | None => 1
  end.

(** The [CostEstimator] interface. *)
Class CostEstimator (E : Type) := estimate : E -> Request -> Z.

#[global] Instance PatternCostEstimator_estimator : CostEstimator PatternCostEstimator :=
  EstimateCost.
#[global] Instance PathCostEstimator_estimator : CostEstimator (gmap string Z) :=
  PathCostEstimator_EstimateCost.

(** [Params].  An interface field holds [None] for [nil]; a metrics sink
    is represented by whether it is set, its calls being recorded in the
    trace of the calling goroutine.  [MaxQueueDuration] and the
    [OverloadHandler] do not appear: a deadline is an event ([CtxDone])
    that may happen at any moment, and the handlers are opaque. *)
Record Params := mkParams {
  MaxConcurrency : Z;
  MaxBurst : Z;
  CostEstimatorOf : option (Request -> Z);
  RequestOverloadCounter : bool;
  QueueLengthGauge : bool;
  QueueDurationObserver : bool
}.

(** [cost := int64(1); if g.p.CostEstimator != nil { cost = ... }] *)
Definition cost_of (p : Params) (req : Request) : Z :=
  match CostEstimatorOf p with
  | Some f => f req
  | None => 1
  end.

Inductive pool := Sem | Concurrent | Burst.

(** What a goroutine serving a request does to the outside world. *)
Inductive action :=
| Forward                 (* g.hnd.ServeHTTP(w, req) *)
| OverloadHandler         (* g.p.OverloadHandler.ServeHTTP(w, req) *)
| CounterInc              (* g.p.RequestOverloadCounter.Inc() *)
| GaugeInc                (* g.p.QueueLengthGauge.Inc() *)
| GaugeDec                (* g.p.QueueLengthGauge.Dec() *)
| Observe                 (* g.p.QueueDurationObserver.Observe(...) *)
| Acquired (s : pool)     (* TryAcquire returned true / Acquire returned nil *)
| Released (s : pool).    (* the deferred Release ran *)

#[global] Instance pool_eq_dec : EqDecision pool.
Proof. solve_decision. Defined.

#[global] Instance action_eq_dec : EqDecision action.
Proof. solve_decision. Defined.

(** How the concurrent weight was obtained. *)
Inductive route := Immediate | Queued.

(** The ways a request ends (the terminal states of the per-request
    state machine; [BurstDenied] also names the denial by the only pool
    of the single-tier form), and [Panicked] for a [Release] inside
    [Acquire] that panics. *)
Inductive outcome :=
| FreeBypass
| BurstDenied
| ConcurrentImmediate
| ConcurrentGranted
| TimedOut
| Panicked.

Definition admitted (r : route) : outcome :=
  match r with
  | Immediate => ConcurrentImmediate
  | Queued => ConcurrentGranted
  end.

(** Where a goroutine stands in [ServeHTTP], with the branch by which it
    got there. *)
Inductive pc :=
| Start            (* cost estimated *)
| Bypass           (* cost 0: the wrapped handler runs, no permit held *)
| Denied           (* the first TryAcquire failed: overload to be run *)
| BurstGranted     (* burst held: concurrent.TryAcquire comes next *)
| QueueEntered     (* in queue(): gauge incremented, Acquire comes next *)
| AcquireDoomed    (* in Acquire, n > size: blocked on <-ctx.Done() *)
| AcquireWaiting   (* in Acquire, waiter enqueued: blocked in select *)
| Serving (r : route)    (* concurrent (or sem) held: the wrapped handler runs *)
| QueueFailed      (* queue() returned false: overload to be run *)
| Unwinding (o : outcome)  (* only the deferred burst.Release is left *)
| Finished (o : outcome).

Record goroutine := mkGoroutine {
  g_cost : Z;               (* cost *)
  g_at : pc;
  g_done : bool;            (* the request context is done *)
  g_ready : bool;           (* the waiter's ready channel is closed *)
  g_panicked : bool;        (* a Release panicked *)
  g_trace : list action
}.

Definition spawn (cost : Z) : goroutine :=
  {| g_cost := cost; g_at := Start; g_done := false; g_ready := false;
     g_panicked := false; g_trace := [] |}.

Definition goto (t : goroutine) (l : pc) (acts : list action) : goroutine :=
  {| g_cost := g_cost t; g_at := l; g_done := g_done t; g_ready := g_ready t;
     g_panicked := g_panicked t; g_trace := (g_trace t ++ acts)%list |}.

Definition mark_done (t : goroutine) : goroutine :=
  {| g_cost := g_cost t; g_at := g_at t; g_done := true; g_ready := g_ready t;
     g_panicked := g_panicked t; g_trace := g_trace t |}.

Definition mark_ready (t : goroutine) : goroutine :=
  {| g_cost := g_cost t; g_at := g_at t; g_done := g_done t; g_ready := true;
     g_panicked := g_panicked t; g_trace := g_trace t |}.

Definition mark_panic (panic : bool) (t : goroutine) : goroutine :=
  {| g_cost := g_cost t; g_at := g_at t; g_done := g_done t; g_ready := g_ready t;
     g_panicked := panic || g_panicked t; g_trace := g_trace t |}.

(** [close(w.ready)] for the waiters granted by [notifyWaiters]. *)
Definition wake (ids : list nat) (gs : gmap nat goroutine) : gmap nat goroutine :=
  fold_left (fun m id => alter mark_ready id m) ids gs.

Definition counter_inc (p : Params) : list action :=
  if RequestOverloadCounter p then [CounterInc] else [].
Definition gauge_inc (p : Params) : list action :=
  if QueueLengthGauge p then [GaugeInc] else [].
Definition gauge_dec (p : Params) : list action :=
  if QueueLengthGauge p then [GaugeDec] else [].
Definition observe (p : Params) : list action :=
  if QueueDurationObserver p then [Observe] else [].

(** [g.overload(w, req)], and the same two statements at the end of
    [simpleGovernor.ServeHTTP]. *)
Definition overload (p : Params) : list action :=
  (counter_inc p ++ [OverloadHandler])%list.

(** What [queue()] and [ServeHTTP] do once [Acquire] has returned [nil]. *)
Definition served (p : Params) : list action :=
  ([Acquired Concurrent] ++ observe p ++ gauge_dec p ++ [Forward])%list.

(** What happens around the handlers: requests arrive, contexts become
    done (deadline or cancellation), goroutines run to their next
    scheduling point, and a goroutine blocked in [Acquire] may take the
    [<-ctx.Done()] branch. *)
Inductive event :=
| Arrive (id : nat) (req : Request)
| CtxDone (id : nat)
| Run (id : nat)
| Abort (id : nat).

(** *** [simpleGovernor] *)

Record simpleGovernor := mkSimple {
  sem : semaphore.Weighted;
  s_goroutines : gmap nat goroutine
}.

Definition simple_run (p : Params) (id : nat) (g : simpleGovernor) : simpleGovernor :=
  match s_goroutines g !! id with
  | None => g
  | Some t =>
      let cost := g_cost t in
      match g_at t with
      | Start =>
          if cost =? 0 then
            {| sem := sem g;
               s_goroutines := <[id := goto t Bypass [Forward]]> (s_goroutines g) |}
          else
            let '(s, ok) := semaphore.TryAcquire (sem g) cost in
            if ok then
              {| sem := s;
                 s_goroutines :=
                   <[id := goto t (Serving Immediate) [Acquired Sem; Forward]]>
                     (s_goroutines g) |}
            else
              {| sem := s;
                 s_goroutines := <[id := goto t Denied []]> (s_goroutines g) |}
      | Bypass =>
          {| sem := sem g;
             s_goroutines := <[id := goto t (Finished FreeBypass) []]> (s_goroutines g) |}
      | Serving r =>
          let '(s, closed, panic) := semaphore.Release (sem g) cost in
          {| sem := s;
             s_goroutines :=
               wake closed
                 (<[id := goto (mark_panic panic t) (Finished (admitted r)) [Released Sem]]>
                    (s_goroutines g)) |}
      | Denied =>
          {| sem := sem g;
             s_goroutines :=
               <[id := goto t (Finished BurstDenied) (overload p)]> (s_goroutines g) |}
      | _ => g
      end
  end.

Definition simple_step (p : Params) (g : simpleGovernor) (e : event) : simpleGovernor :=
  match e with
  | Arrive id req =>
      match s_goroutines g !! id with
      | Some _ => g
      | None =>
          {| sem := sem g;
             s_goroutines := <[id := spawn (cost_of p req)]> (s_goroutines g) |}
      end
  | CtxDone id =>
      {| sem := sem g; s_goroutines := alter mark_done id (s_goroutines g) |}
  | Run id => simple_run p id g
  | Abort _ => g
  end.

(** *** [governor] *)

Record governor := mkGovernor {
  concurrent : semaphore.Weighted;
  burst : semaphore.Weighted;
  goroutines : gmap nat goroutine
}.

Definition governor_run (rev : semaphore.revision) (p : Params) (id : nat)
           (g : governor) : governor :=
  match goroutines g !! id with
  | None => g
  | Some t =>
      let cost := g_cost t in
      match g_at t with
      | Start =>
          if cost =? 0 then
            {| concurrent := concurrent g; burst := burst g;
               goroutines := <[id := goto t Bypass [Forward]]> (goroutines g) |}
          else
            let '(b, ok) := semaphore.TryAcquire (burst g) cost in
            if ok then
              {| concurrent := concurrent g; burst := b;
                 goroutines :=
                   <[id := goto t BurstGranted [Acquired Burst]]> (goroutines g) |}
            else
              {| concurrent := concurrent g; burst := b;
                 goroutines := <[id := goto t Denied []]> (goroutines g) |}
      | Bypass =>
          {| concurrent := concurrent g; burst := burst g;
             goroutines := <[id := goto t (Finished FreeBypass) []]> (goroutines g) |}
      | Denied =>
          {| concurrent := concurrent g; burst := burst g;
             goroutines :=
               <[id := goto t (Finished BurstDenied) (overload p)]> (goroutines g) |}
      | BurstGranted =>
          let '(c, ok) := semaphore.TryAcquire (concurrent g) cost in
          if ok then
            {| concurrent := c; burst := burst g;
               goroutines :=
                 <[id := goto t (Serving Immediate) [Acquired Concurrent; Forward]]>
                   (goroutines g) |}
          else
            {| concurrent := c; burst := burst g;
               goroutines := <[id := goto t QueueEntered (gauge_inc p)]> (goroutines g) |}
      | QueueEntered =>
          let '(c, r) := semaphore.Acquire_enter rev (concurrent g) (g_done t) id cost in
          let next :=
            match r with
            | semaphore.EntryErr => goto t QueueFailed (gauge_dec p)
            | semaphore.EntryAcquired => goto t (Serving Queued) (served p)
            | semaphore.EntryDoomed => goto t AcquireDoomed []
            | semaphore.EntryWait => goto t AcquireWaiting []
            end in
          {| concurrent := c; burst := burst g;
             goroutines := <[id := next]> (goroutines g) |}
      | AcquireDoomed => g
      | AcquireWaiting =>
          if g_ready t then
            match semaphore.Acquire_ready rev (concurrent g) (g_done t) cost with
            | Some (c, closed, panic) =>
                let next :=
                  if panic
                  then goto (mark_panic true t) (Unwinding Panicked) (gauge_dec p)
                  else goto t QueueFailed (gauge_dec p) in
                {| concurrent := c; burst := burst g;
                   goroutines := wake closed (<[id := next]> (goroutines g)) |}
            | None =>
                {| concurrent := concurrent g; burst := burst g;
                   goroutines :=
                     <[id := goto t (Serving Queued) (served p)]> (goroutines g) |}
            end
          else g
      | Serving r =>
          let '(c, closed, panic) := semaphore.Release (concurrent g) cost in
          {| concurrent := c; burst := burst g;
             goroutines :=
               wake closed
                 (<[id := goto (mark_panic panic t) (Unwinding (admitted r))
                            [Released Concurrent]]> (goroutines g)) |}
      | QueueFailed =>
          {| concurrent := concurrent g; burst := burst g;
             goroutines :=
               <[id := goto t (Unwinding TimedOut) (overload p)]> (goroutines g) |}
      | Unwinding o =>
          let '(b, closed, panic) := semaphore.Release (burst g) cost in
          {| concurrent := concurrent g; burst := b;
             goroutines :=
               wake closed
                 (<[id := goto (mark_panic panic t) (Finished o) [Released Burst]]>
                    (goroutines g)) |}
      | Finished _ => g
      end
  end.

(** A goroutine blocked inside [Acquire] receives from [ctx.Done()]. *)
Definition governor_abort (rev : semaphore.revision) (p : Params) (id : nat)
           (g : governor) : governor :=
  match goroutines g !! id with
  | None => g
  | Some t =>
      if g_done t then
        match g_at t with
        | AcquireDoomed =>
            {| concurrent := concurrent g; burst := burst g;
               goroutines := <[id := goto t QueueFailed (gauge_dec p)]> (goroutines g) |}
        | AcquireWaiting =>
            let '(c, closed, granted) :=
              semaphore.Acquire_cancel rev (concurrent g) (g_ready t) id (g_cost t) in
            let next :=
              if granted
              then goto t (Serving Queued) (served p)
              else goto t QueueFailed (gauge_dec p) in
            {| concurrent := c; burst := burst g;
               goroutines := wake closed (<[id := next]> (goroutines g)) |}
        | _ => g
        end
      else g
  end.

Definition governor_step (rev : semaphore.revision) (p : Params)
           (g : governor) (e : event) : governor :=
  match e with
  | Arrive id req =>
      match goroutines g !! id with
      | Some _ => g
      | None =>
          {| concurrent := concurrent g; burst := burst g;
             goroutines := <[id := spawn (cost_of p req)]> (goroutines g) |}
      end
  | CtxDone id =>
      {| concurrent := concurrent g; burst := burst g;
         goroutines := alter mark_done id (goroutines g) |}
  | Run id => governor_run rev p id g
  | Abort id => governor_abort rev p id g
  end.

(** *** [New] *)

Definition simple_init (p : Params) : simpleGovernor :=
  {| sem := semaphore.NewWeighted (MaxConcurrency p); s_goroutines := ∅ |}.

Definition governor_init (p : Params) : governor :=
  {| concurrent := semaphore.NewWeighted (MaxConcurrency p);
     burst := semaphore.NewWeighted (MaxBurst p);
     goroutines := ∅ |}.

Inductive handler :=
| PassThrough                          (* return hnd *)
| SingleTier (g : simpleGovernor)
| TwoTier (g : governor).

Definition New (p : Params) : handler :=
  if MaxConcurrency p =? 0 then PassThrough
  else if MaxBurst p <=? MaxConcurrency p then SingleTier (simple_init p)
  else TwoTier (governor_init p).

(** The handler after one more event, and after a sequence of events. *)
Definition serve (rev : semaphore.revision) (p : Params) (h : handler) (e : event)
  : handler :=
  match h with
  | PassThrough => PassThrough
  | SingleTier g => SingleTier (simple_step p g e)
  | TwoTier g => TwoTier (governor_step rev p g e)
  end.

Definition run (rev : semaphore.revision) (p : Params) (evs : list event) : handler :=
  fold_left (serve rev p) evs (New p).

(** *** Quantities the properties speak about *)

(** Sum of a weight over all goroutines. *)
Definition total (w : goroutine -> Z) (gs : gmap nat goroutine) : Z :=
  map_fold (fun _ t acc => w t + acc) 0 gs.

(** Cost of a request that is in the wrapped handler. *)
Definition in_flight (t : goroutine) : Z :=
  match g_at t with
  | Bypass | Serving _ => g_cost t
  | _ => 0
  end.

(** Cost of a request that is inside [queue()]. *)
Definition queued (t : goroutine) : Z :=
  match g_at t with
  | QueueEntered | AcquireDoomed | AcquireWaiting => g_cost t
  | _ => 0
  end.

(** Weight a goroutine holds of the concurrent pool (or of [sem]): from
    the grant to the deferred [Release]. *)
Definition holds_concurrent (t : goroutine) : Z :=
  match g_at t with
  | Serving _ => g_cost t
  | AcquireWaiting => if g_ready t then g_cost t else 0
  | _ => 0
  end.

(** Weight a goroutine holds of the burst pool. *)
Definition holds_burst (t : goroutine) : Z :=
  match g_at t with
  | BurstGranted | QueueEntered | AcquireDoomed | AcquireWaiting
  | Serving _ | QueueFailed | Unwinding _ => g_cost t
  | _ => 0
  end.

(** Every request of the run was given a cost of at least 0. *)
Definition costs_nonneg (p : Params) (evs : list event) : Prop :=
  Forall (fun e => match e with
                   | Arrive _ req => 0 <= cost_of p req
                   | _ => True
                   end) evs.

Definition count (a : action) (t : goroutine) : nat :=
  length (filter (fun b => b = a) (g_trace t)).

(** The trace of a goroutine of the two-tier governor, by where it
    stands. *)
Definition trace_at (p : Params) (l : pc) : list action :=
  let entered := ([Acquired Burst] ++ gauge_inc p)%list in
  let failed := (entered ++ gauge_dec p)%list in
  let serving r :=
    match r with
    | Immediate => [Acquired Burst; Acquired Concurrent; Forward]
    | Queued => (entered ++ served p)%list
    end in
  let unwinding o :=
    match o with
    | FreeBypass => [Forward]
    | BurstDenied => overload p
    | ConcurrentImmediate => (serving Immediate ++ [Released Concurrent])%list
    | ConcurrentGranted => (serving Queued ++ [Released Concurrent])%list
    | TimedOut => (failed ++ overload p)%list
    | Panicked => failed
    end in
  match l with
  | Start => []
  | Bypass => [Forward]
  | Denied => []
  | BurstGranted => [Acquired Burst]
  | QueueEntered | AcquireDoomed | AcquireWaiting => entered
  | Serving r => serving r
  | QueueFailed => failed
  | Unwinding o => unwinding o
  | Finished FreeBypass => [Forward]
  | Finished BurstDenied => overload p
  | Finished o => (unwinding o ++ [Released Burst])%list
  end.

(** *** Invariants of the two forms *)

(** The parameters are int64 values; a concurrency limit is a capacity. *)
Definition params_ok (p : Params) : Prop :=
  0 < MaxConcurrency p /\ MaxConcurrency p <= int64.max /\ MaxBurst p <= int64.max.

(** Before it enters [Acquire] a goroutine has no [ready] channel. *)
Definition before_acquire (l : pc) : bool :=
  match l with
  | Start | Bypass | Denied | BurstGranted | QueueEntered => true
  | _ => false
  end.

(** Every goroutine was given a cost of at least 0, none has panicked,
    and only one that went through [Acquire] may have been woken. *)
Definition goroutines_ok (gs : gmap nat goroutine) : Prop :=
  forall id t, gs !! id = Some t ->
    0 <= g_cost t /\ g_panicked t = false /\
    g_at t <> Unwinding Panicked /\ g_at t <> Finished Panicked /\
    (before_acquire (g_at t) = true -> g_ready t = false).

(** The waiter list of the concurrent pool holds exactly once each
    goroutine that is blocked in [Acquire] and has not been granted its
    weight. *)
Definition waiters_ok (ws : list semaphore.waiter) (gs : gmap nat goroutine) : Prop :=
  NoDup (semaphore.w_ready <$> ws) /\
  forall w, w ∈ ws ->
    exists t, gs !! semaphore.w_ready w = Some t /\
      g_at t = AcquireWaiting /\ g_ready t = false /\
      g_cost t = semaphore.w_n w /\ 0 <= semaphore.w_n w.

(** The books of the concurrent pool (of [sem] in the single-tier form)
    and of the burst pool. *)
Definition concurrent_ok (limit : Z) (c : semaphore.Weighted)
           (gs : gmap nat goroutine) : Prop :=
  semaphore.size c = limit /\
  semaphore.cur c = total holds_concurrent gs /\
  semaphore.cur c <= limit /\
  waiters_ok (semaphore.waiters c) gs.

Definition burst_ok (limit : Z) (b : semaphore.Weighted)
           (gs : gmap nat goroutine) : Prop :=
  semaphore.size b = limit /\
  semaphore.cur b = total holds_burst gs /\
  semaphore.cur b <= limit /\
  semaphore.waiters b = [].

Record governor_inv (p : Params) (g : governor) : Prop := {
  inv_concurrent : concurrent_ok (MaxConcurrency p) (concurrent g) (goroutines g);
  inv_burst : burst_ok (MaxBurst p) (burst g) (goroutines g);
  inv_gs : goroutines_ok (goroutines g)
}.

(** In the single-tier form a goroutine never enters [Acquire]. *)
Definition simple_pc (l : pc) : bool :=
  match l with
  | Start | Bypass | Denied | Serving Immediate
  | Finished FreeBypass | Finished BurstDenied | Finished ConcurrentImmediate => true
  | _ => false
  end.

Record simple_inv (p : Params) (g : simpleGovernor) : Prop := {
  sinv_sem : concurrent_ok (MaxConcurrency p) (sem g) (s_goroutines g);
  sinv_gs : goroutines_ok (s_goroutines g);
  sinv_at : forall id t, s_goroutines g !! id = Some t -> simple_pc (g_at t) = true
}.

(** *** The per-request state machine

    [move p l cost l' acts]: a goroutine serving a request of the given
    cost can go from [l] to [l'], performing [acts]. *)

Inductive move (p : Params) : pc -> Z -> pc -> list action -> Prop :=
| move_bypass : move p Start 0 Bypass [Forward]
| move_burst cost : cost <> 0 -> move p Start cost BurstGranted [Acquired Burst]
| move_denied cost : cost <> 0 -> move p Start cost Denied []
| move_bypassed cost : move p Bypass cost (Finished FreeBypass) []
| move_overload cost : move p Denied cost (Finished BurstDenied) (overload p)
| move_immediate cost :
    move p BurstGranted cost (Serving Immediate) [Acquired Concurrent; Forward]
| move_queue cost : move p BurstGranted cost QueueEntered (gauge_inc p)
| move_entry_err cost : move p QueueEntered cost QueueFailed (gauge_dec p)
| move_entry_acquired cost : move p QueueEntered cost (Serving Queued) (served p)
| move_entry_doomed cost : move p QueueEntered cost AcquireDoomed []
| move_entry_wait cost : move p QueueEntered cost AcquireWaiting []
| move_doomed cost : move p AcquireDoomed cost QueueFailed (gauge_dec p)
| move_granted cost : move p AcquireWaiting cost (Serving Queued) (served p)
| move_cancelled cost : move p AcquireWaiting cost QueueFailed (gauge_dec p)
| move_panicked cost : move p AcquireWaiting cost (Unwinding Panicked) (gauge_dec p)
| move_release cost r :
    move p (Serving r) cost (Unwinding (admitted r)) [Released Concurrent]
| move_timed_out cost : move p QueueFailed cost (Unwinding TimedOut) (overload p)
| move_unwound cost o : move p (Unwinding o) cost (Finished o) [Released Burst].

(** The same for the single-tier form. *)
Inductive simple_move (p : Params) : pc -> Z -> pc -> list action -> Prop :=
| smove_bypass : simple_move p Start 0 Bypass [Forward]
| smove_acquired cost :
    cost <> 0 -> simple_move p Start cost (Serving Immediate) [Acquired Sem; Forward]
| smove_denied cost : cost <> 0 -> simple_move p Start cost Denied []
| smove_bypassed cost : simple_move p Bypass cost (Finished FreeBypass) []
| smove_overload cost : simple_move p Denied cost (Finished BurstDenied) (overload p)
| smove_release cost r :
    simple_move p (Serving r) cost (Finished (admitted r)) [Released Sem].

(** What one event may do to one goroutine: nothing but flags, or one
    move. *)
Definition evolves (mv : pc -> Z -> pc -> list action -> Prop)
           (t t' : goroutine) : Prop :=
  g_cost t' = g_cost t /\
  ((g_at t' = g_at t /\ g_trace t' = g_trace t) \/
   exists acts, mv (g_at t) (g_cost t) (g_at t') acts /\
                g_trace t' = (g_trace t ++ acts)%list).

(** The trace of a goroutine of the single-tier governor. *)
Definition simple_trace_at (p : Params) (l : pc) : list action :=
  match l with
  | Bypass | Finished FreeBypass => [Forward]
  | Serving _ => [Acquired Sem; Forward]
  | Finished BurstDenied => overload p
  | Finished _ => [Acquired Sem; Forward; Released Sem]
  | _ => []
  end.

(** The weight a goroutine takes from the concurrent pool fits the pool:
    the fast paths require [cost <= size - cur], enqueueing requires
    [cost <= size]. *)
Definition fits (c : semaphore.Weighted) (l l' : pc) (cost : Z) : Prop :=
  (l = BurstGranted \/ l = QueueEntered) ->
  (l' = Serving Immediate \/ l' = Serving Queued \/ l' = AcquireWaiting) ->
  cost <= int64.sub (semaphore.size c) (semaphore.cur c) \/
  ~ semaphore.size c < cost.

Definition moved (p : Params) (g g' : governor) (id : nat) : Prop :=
  exists t l acts closed b,
    goroutines g !! id = Some t /\
    move p (g_at t) (g_cost t) l acts /\
    goroutines g' = wake closed (<[id := goto (mark_panic b t) l acts]> (goroutines g)) /\
    fits (concurrent g) (g_at t) l (g_cost t).


(** What holds of every goroutine of the two-tier governor by itself: the
    trace is determined by the position, and a request bypasses the
    pools if and only if its cost is 0. *)
Definition local_ok (p : Params) (t : goroutine) : Prop :=
  g_trace t = trace_at p (g_at t) /\
  g_at t <> Unwinding FreeBypass /\ g_at t <> Unwinding BurstDenied /\
  (g_cost t = 0 ->
   g_at t = Start \/ g_at t = Bypass \/ g_at t = Finished FreeBypass) /\
  (g_at t = Bypass \/ g_at t = Finished FreeBypass -> g_cost t = 0).

Definition simple_fits (c : semaphore.Weighted) (l' : pc) (cost : Z) : Prop :=
  l' = Serving Immediate ->
  cost <= int64.sub (semaphore.size c) (semaphore.cur c).

Definition simple_moved (p : Params) (g g' : simpleGovernor) (id : nat) : Prop :=
  exists t l acts closed b,
    s_goroutines g !! id = Some t /\
    simple_move p (g_at t) (g_cost t) l acts /\
    s_goroutines g' = wake closed (<[id := goto (mark_panic b t) l acts]> (s_goroutines g)) /\
    simple_fits (sem g) l (g_cost t).

(** What holds of every goroutine of the single-tier governor by itself. *)
Definition simple_local_ok (p : Params) (t : goroutine) : Prop :=
  g_trace t = simple_trace_at p (g_at t) /\
  simple_pc (g_at t) = true /\
  (g_cost t = 0 ->
   g_at t = Start \/ g_at t = Bypass \/ g_at t = Finished FreeBypass) /\
  (g_at t = Bypass \/ g_at t = Finished FreeBypass -> g_cost t = 0).

(** *** Statements about single requests *)



(** The positions on the way to a rejection. *)
Definition rejecting (l : pc) : bool :=
  match l with
  | Start | Denied | BurstGranted | QueueEntered | AcquireDoomed | QueueFailed
  | Unwinding TimedOut | Finished BurstDenied | Finished TimedOut => true
  | _ => false
  end.

(** A request that the concurrent pool can never hold, in the two-tier
    governor: it is on the way to a rejection and was not forwarded;
    with the burst weight in hand it enters the queue; there [Acquire]
    fails at once or blocks on the context alone; blocked, it stays
    put until its context is done and then leaves the queue; out of
    the queue it is handed to the overload handler. *)
Definition oversized_governor (rev : semaphore.revision) (p : Params)
           (g : governor) (id : nat) (t : goroutine) : Prop :=
  let at_ l acts :=
    {| concurrent := concurrent g; burst := burst g;
       goroutines := <[id := goto t l acts]> (goroutines g) |} in
  count Forward t = 0%nat /\
  rejecting (g_at t) = true /\
  (g_at t = BurstGranted ->
   governor_run rev p id g = at_ QueueEntered (gauge_inc p)) /\
  (g_at t = QueueEntered ->
   governor_run rev p id g =
     if g_done t && match rev with semaphore.CheckContext => true | _ => false end
     then at_ QueueFailed (gauge_dec p)
     else at_ AcquireDoomed []) /\
  (g_at t = AcquireDoomed ->
   governor_run rev p id g = g /\
   governor_abort rev p id g =
     if g_done t then at_ QueueFailed (gauge_dec p) else g) /\
  (g_at t = QueueFailed ->
   governor_run rev p id g = at_ (Unwinding TimedOut) (overload p)).

(** The same in the single-tier governor: the only [TryAcquire] fails. *)
Definition oversized_simple (p : Params) (g : simpleGovernor) (id : nat)
           (t : goroutine) : Prop :=
  let at_ l acts :=
    {| sem := sem g; s_goroutines := <[id := goto t l acts]> (s_goroutines g) |} in
  count Forward t = 0%nat /\
  (g_at t = Start \/ g_at t = Denied \/ g_at t = Finished BurstDenied) /\
  (g_at t = Start -> simple_run p id g = at_ Denied []) /\
  (g_at t = Denied -> simple_run p id g = at_ (Finished BurstDenied) (overload p)).


(** No request that the concurrent pool cannot hold has left the way to
    a rejection. *)
Definition oversized_ok (p : Params) (gs : gmap nat goroutine) : Prop :=
  forall id t, gs !! id = Some t ->
    MaxConcurrency p < g_cost t -> rejecting (g_at t) = true.

(** ** Configurations shared by the two estimators *)

(** A pattern that [SetCost] files unchanged and as an exact match: a
    rooted path in clean form that does not denote a subtree. *)
Definition plain_path (k : string) : Prop :=
  strings.at_ k 0 = "/"%char /\ stdpath.Clean k = k /\
  strings.HasSuffix k "/" = false.

(** The [PathCostEstimator] built by assigning the entries in turn. *)
Definition path_table (l : list (string * Z)) : gmap string Z :=
  fold_left (fun m q => <[q.1 := q.2]> m) l ∅.

(** ** What the governors do with a request *)

(** Every request the handler has seen has run to its end. *)
Definition quiescent (gs : gmap nat goroutine) : Prop :=
  map_Forall (fun _ t => exists o, g_at t = Finished o) gs.

(** The goroutine is inside [queue()], between the gauge's [Inc] and its
    deferred [Dec]. *)
Definition in_queue (l : pc) : bool :=
  match l with
  | QueueEntered | AcquireDoomed | AcquireWaiting => true
  | _ => false
  end.

(** [queue()] has returned [true] for the goroutine. *)
Definition was_queued (l : pc) : bool :=
  match l with
  | Serving Queued | Unwinding ConcurrentGranted | Finished ConcurrentGranted => true
  | _ => false
  end.

(** All that a request served by the two-tier governor has done. *)
Definition admitted_trace (p : Params) (r : route) : list action :=
  match r with
  | Immediate =>
      [Acquired Burst; Acquired Concurrent; Forward;
       Released Concurrent; Released Burst]
  | Queued =>
      ([Acquired Burst] ++ gauge_inc p ++ [Acquired Concurrent] ++ observe p
       ++ gauge_dec p ++ [Forward; Released Concurrent; Released Burst])%list
  end.

(** A request goes to one handler, once, and the overload counter counts
    the calls of the overload handler. *)
Definition handled_once (p : Params) (t : goroutine) : Prop :=
  (count Forward t + count OverloadHandler t <= 1)%nat /\
  count CounterInc t
  = (if RequestOverloadCounter p then count OverloadHandler t else 0)%nat /\
  (forall o, g_at t = Finished o ->
     (count Forward t + count OverloadHandler t = 1)%nat).

(** A short run of the two-tier governor that comes to rest, and one of
    the single-tier governor. *)
Definition settled_scenario : list event :=
  [Arrive 1 (mkRequest "example.com" "/"); Run 1; Run 1;
   Arrive 2 (mkRequest "example.com" "/"); Run 2; Run 2; Run 2;
   Run 1; Run 1; Run 2; Run 2; Run 2].

Definition single_params : Params :=
  {| MaxConcurrency := 1; MaxBurst := 0; CostEstimatorOf := None;
     RequestOverloadCounter := true; QueueLengthGauge := true;
     QueueDurationObserver := true |}.

Definition single_scenario : list event :=
  [Arrive 1 (mkRequest "example.com" "/"); Run 1;
   Arrive 2 (mkRequest "example.com" "/"); Run 2; Run 2;
   Run 1].

(** The second request of [settled_scenario] at the end: it waited in
    the queue and was served. *)
Definition queued_goroutine : goroutine :=
  {| g_cost := 1; g_at := Finished ConcurrentGranted; g_done := false;
     g_ready := true; g_panicked := false;
     g_trace := [Acquired Burst; GaugeInc; Acquired Concurrent; Observe; GaugeDec;
                 Forward; Released Concurrent; Released Burst] |}.

(** The second request of [single_scenario] at the end: turned away. *)
Definition denied_goroutine : goroutine :=
  {| g_cost := 1; g_at := Finished BurstDenied; g_done := false;
     g_ready := false; g_panicked := false;
     g_trace := [CounterInc; OverloadHandler] |}.

(** A request waiting in the queue behind a running one. *)
Definition waiting_scenario : list event :=
  [Arrive 1 (mkRequest "example.com" "/"); Run 1; Run 1;
   Arrive 2 (mkRequest "example.com" "/"); Run 2; Run 2; Run 2].

Definition waiting_goroutine : goroutine :=
  {| g_cost := 1; g_at := AcquireWaiting; g_done := false;
     g_ready := false; g_panicked := false;
     g_trace := [Acquired Burst; GaugeInc] |}.

(** A third request arrives while one is served and one waits. *)
Definition full_scenario : list event :=
  (waiting_scenario ++ [Arrive 3 (mkRequest "example.com" "/")])%list.

(** ** Progress *)

(** An upper bound on the number of its own steps that separate a
    goroutine of the two-tier governor from its end. *)
Definition rank (l : pc) : nat :=
  match l with
  | Finished _ => 0
  | Unwinding _ | Bypass | Denied => 1
  | Serving _ | QueueFailed => 2
  | AcquireDoomed | AcquireWaiting => 3
  | QueueEntered => 4
  | BurstGranted => 5
  | Start => 6
  end.

(** A schedule that lets the goroutine [id] notice its context and then
    run, once for each entry of [gaps]; an entry gives the events that
    happen before and in between, whatever they are. *)
Fixpoint rounds (id : nat) (gaps : list (list event * list event)) : list event :=
  match gaps with
  | [] => []
  | (before, between) :: rest =>
      (before ++ [Abort id] ++ between ++ [Run id] ++ rounds id rest)%list
  end.

(** The same for the single-tier governor, which never blocks. *)
Definition simple_rank (l : pc) : nat :=
  match l with
  | Start => 2
  | Bypass | Denied | Serving _ => 1
  | _ => 0
  end.

(** ** [stripPort] with Go's run-time checks

    Indexing and slicing a Go string panic out of range.  Here a panic
    is [None]: [index] is [s[i]], [slice_to] is [s[:n]], and
    [stripPort_checked] is [stripPort] again, statement by statement,
    with every index expression checked where the source evaluates
    it ([&&] does not evaluate its right operand when the left one is
    false). *)
Definition index (s : string) (i : Z) : option ascii :=
  if (i <? 0) || (strings.len s <=? i) then None
  else String.get (Z.to_nat i) s.

Definition slice_to (s : string) (n : Z) : option string :=
  if (n <? 0) || (strings.len s <? n) then None
  else Some (strings.upto s n).

Definition stripPort_checked (hostport : string) : option string :=
  let n := strings.LastIndexByte hostport ":"%char in
  if n =? -1 then Some hostport
  else
    match index hostport 0 with
    | None => None
    | Some first =>
        if Ascii.eqb first "["%char then
          match index hostport (n - 1) with
          | None => None
          | Some before =>
              if negb (Ascii.eqb before "]"%char) then Some hostport
              else slice_to hostport n
          end
        else slice_to hostport n
    end.
Example clean_examples :
  stdpath.Clean "/api/calls/call1" = "/api/calls/call1" /\
  stdpath.Clean "/api//x/../y/." = "/api/y" /\
  stdpath.Clean "/api/" = "/api" /\
  stdpath.Clean "/.." = "/" /\
  stdpath.Clean "a/../../b" = "../b" /\
  stdpath.Clean "" = "." /\
  stdpath.Clean "/" = "/".
Proof. repeat split; vm_compute; reflexivity. Qed.

(** ** Facts about the string helpers *)

Section string_facts.

(** stdpp keeps [String.append] from unfolding under [simpl]. *)
Lemma sapp_nil t : "" ++ t = t.
Proof. reflexivity. Qed.

Lemma sapp_cons b s t : String b s ++ t = String b (s ++ t).
Proof. reflexivity. Qed.

Lemma sapp_assoc a b c : (a ++ b) ++ c = a ++ (b ++ c).
Proof.
  induction a as [|x a IH]; rewrite ?sapp_nil, ?sapp_cons; [reflexivity|].
  f_equal. exact IH.
Qed.

Lemma len_nonneg s : 0 <= strings.len s.
Proof. unfold strings.len. lia. Qed.

Lemma len_app s t : strings.len (s ++ t) = strings.len s + strings.len t.
Proof.
  unfold strings.len.
  induction s as [|b s IH]; rewrite ?sapp_nil, ?sapp_cons; simpl; lia.
Qed.


Lemma HasPrefix_length s p :
  strings.HasPrefix s p = true -> (String.length p <= String.length s)%nat.
Proof.
  unfold strings.HasPrefix. revert s.
  induction p as [|b p IH]; intros s H; simpl; [lia|].
  destruct s as [|c s]; simpl in H; [discriminate|].
  destruct (ascii_dec b c); [|discriminate].
  apply IH in H. simpl. lia.
Qed.

Lemma upto_app s t : strings.upto (s ++ t) (strings.len s) = s.
Proof.
  unfold strings.upto, strings.len. rewrite Nat2Z.id.
  induction s as [|b s IH]; rewrite ?sapp_nil, ?sapp_cons; simpl.
  - destruct t; reflexivity.
  - f_equal. exact IH.
Qed.

Lemma at_app_here s c t : strings.at_ (s ++ String c t) (strings.len s) = c.
Proof.
  unfold strings.at_, strings.len.
  destruct (Z.ltb_spec (Z.of_nat (String.length s)) 0) as [H|_]; [lia|].
  rewrite Nat2Z.id.
  induction s as [|b s IH]; rewrite ?sapp_nil, ?sapp_cons; simpl;
    [reflexivity | exact IH].
Qed.

Lemma IndexByte_range s c : -1 <= strings.IndexByte s c < strings.len s.
Proof.
  unfold strings.len. induction s as [|b s IH]; simpl; [lia|].
  destruct (Ascii.eqb b c); [lia|].
  destruct (Z.eqb_spec (strings.IndexByte s c) (-1)); lia.
Qed.

Lemma LastIndexByte_range s c : -1 <= strings.LastIndexByte s c < strings.len s.
Proof.
  unfold strings.len. induction s as [|b s IH]; simpl; [lia|].
  destruct (Z.eqb_spec (strings.LastIndexByte s c) (-1)).
  - destruct (Ascii.eqb b c); lia.
  - lia.
Qed.

(** Both searches agree on whether the byte occurs at all. *)
Lemma LastIndexByte_none s c :
  strings.LastIndexByte s c = -1 <-> strings.IndexByte s c = -1.
Proof.
  induction s as [|b s IH]; simpl; [tauto|].
  pose proof (IndexByte_range s c). pose proof (LastIndexByte_range s c).
  destruct (Ascii.eqb b c);
    destruct (Z.eqb_spec (strings.LastIndexByte s c) (-1));
    destruct (Z.eqb_spec (strings.IndexByte s c) (-1)); try lia; tauto.
Qed.

(** The last [c] of [s ++ c :: t], when [t] has none, is the one shown. *)
Lemma LastIndexByte_app s c t :
  strings.IndexByte t c = -1 ->
  strings.LastIndexByte (s ++ String c t) c = strings.len s.
Proof.
  intros Ht. apply LastIndexByte_none in Ht.
  unfold strings.len.
  induction s as [|b s IH]; rewrite ?sapp_nil, ?sapp_cons; simpl.
  - rewrite Ht. simpl. rewrite Ascii.eqb_refl. reflexivity.
  - rewrite IH.
    destruct (Z.eqb_spec (Z.of_nat (String.length s)) (-1)); lia.
Qed.

(** The byte in front of the last [c] belongs to the string. *)
Lemma at_before_last s c d :
  strings.IndexByte s d = -1 ->
  0 < strings.LastIndexByte s c ->
  strings.at_ s (strings.LastIndexByte s c - 1) <> d.
Proof.
  induction s as [|b s IH]; simpl; [lia|].
  destruct (Ascii.eqb_spec b d) as [|Hbd]; [discriminate|].
  pose proof (IndexByte_range s d) as Hrd.
  destruct (Z.eqb_spec (strings.IndexByte s d) (-1)) as [Hd|]; [|lia].
  intros _.
  pose proof (LastIndexByte_range s c) as Hr.
  destruct (Z.eqb_spec (strings.LastIndexByte s c) (-1)) as [Hl|Hl].
  - destruct (Ascii.eqb b c); lia.
  - intros _. replace (strings.LastIndexByte s c + 1 - 1)
      with (strings.LastIndexByte s c) by lia.
    destruct (Z.eq_dec (strings.LastIndexByte s c) 0) as [H0|H0].
    + rewrite H0. unfold strings.at_. simpl. exact Hbd.
    + specialize (IH Hd ltac:(lia)).
      unfold strings.at_ in *.
      destruct (Z.ltb_spec (strings.LastIndexByte s c) 0); [lia|].
      destruct (Z.ltb_spec (strings.LastIndexByte s c - 1) 0); [lia|].
      replace (Z.to_nat (strings.LastIndexByte s c))
        with (S (Z.to_nat (strings.LastIndexByte s c - 1))) by lia.
      simpl. exact IH.
Qed.

End string_facts.

(** ** [stripPort] *)

Section stripPort_facts.

Lemma at_app_l s t i :
  0 <= i < strings.len s -> strings.at_ (s ++ t) i = strings.at_ s i.
Proof.
  unfold strings.at_, strings.len. intros Hi.
  destruct (Z.ltb_spec i 0); [lia|].
  assert (Hn : (Z.to_nat i < String.length s)%nat) by lia.
  clear Hi. revert Hn. generalize (Z.to_nat i) as k.
  induction s as [|b s IH]; intros k Hk; simpl in Hk; [lia|].
  rewrite sapp_cons. destruct k; simpl; [reflexivity|].
  apply IH. lia.
Qed.

Lemma LastIndexByte_snoc s c d :
  c <> d -> strings.LastIndexByte (s ++ String d "") c = strings.LastIndexByte s c.
Proof.
  intros Hcd. induction s as [|b s IH]; rewrite ?sapp_nil, ?sapp_cons; simpl.
  - destruct (Ascii.eqb_spec d c); [congruence | reflexivity].
  - rewrite IH. reflexivity.
Qed.

Lemma at_LastIndexByte s c :
  strings.LastIndexByte s c <> -1 ->
  strings.at_ s (strings.LastIndexByte s c) = c.
Proof.
  induction s as [|b s IH]; simpl; [congruence|].
  pose proof (LastIndexByte_range s c) as Hr.
  destruct (Z.eqb_spec (strings.LastIndexByte s c) (-1)) as [Hl|Hl].
  - destruct (Ascii.eqb_spec b c) as [->|]; [|congruence].
    intros _. reflexivity.
  - intros _. specialize (IH Hl). unfold strings.at_ in *.
    destruct (Z.ltb_spec (strings.LastIndexByte s c) 0); [lia|].
    destruct (Z.ltb_spec (strings.LastIndexByte s c + 1) 0); [lia|].
    replace (Z.to_nat (strings.LastIndexByte s c + 1))
      with (S (Z.to_nat (strings.LastIndexByte s c))) by lia.
    simpl. exact IH.
Qed.

(** The two index expressions of [stripPort] are always in range, so
    the function cannot panic. *)
Lemma stripPort_in_range hostport :
  let n := strings.LastIndexByte hostport ":"%char in
  n <> -1 ->
  0 < strings.len hostport /\
  (strings.at_ hostport 0 = "["%char -> 0 <= n - 1 < strings.len hostport).
Proof.
  intros n Hn. pose proof (LastIndexByte_range hostport ":"%char) as Hr.
  fold n in Hr. split; [lia|].
  intros Hb. assert (n <> 0); [|lia].
  intros H0. pose proof (at_LastIndexByte hostport ":"%char Hn) as Ha.
  fold n in Ha. rewrite H0, Hb in Ha. discriminate.
Qed.

Lemma stripPort_plain h port :
  strings.IndexByte port ":"%char = -1 ->
  strings.at_ h 0 <> "["%char ->
  stripPort (h ++ ":" ++ port) = h.
Proof.
  intros Hport Hh. unfold stripPort.
  change (":" ++ port) with (String ":"%char port).
  rewrite (LastIndexByte_app h ":"%char port Hport).
  pose proof (len_nonneg h).
  destruct (Z.eqb_spec (strings.len h) (-1)); [lia|].
  assert (Hf : Ascii.eqb (strings.at_ (h ++ String ":"%char port) 0) "["%char = false).
  { destruct h as [|b h]; [reflexivity|].
    rewrite sapp_cons. apply Ascii.eqb_neq. exact Hh. }
  rewrite Hf. simpl. apply upto_app.
Qed.

Lemma stripPort_bracket_port x port :
  strings.IndexByte port ":"%char = -1 ->
  stripPort ("[" ++ x ++ "]:" ++ port) = "[" ++ x ++ "]".
Proof.
  intros Hport. unfold stripPort.
  assert (E : "[" ++ x ++ "]:" ++ port = ("[" ++ x ++ "]") ++ String ":"%char port).
  { rewrite !sapp_assoc. reflexivity. }
  rewrite E, (LastIndexByte_app _ ":"%char port Hport).
  pose proof (len_nonneg ("[" ++ x ++ "]")).
  destruct (Z.eqb_spec (strings.len ("[" ++ x ++ "]")) (-1)); [lia|].
  assert (Hb : strings.at_ (("[" ++ x ++ "]") ++ String ":"%char port)
                 (strings.len ("[" ++ x ++ "]") - 1) = "]"%char).
  { assert (E2 : ("[" ++ x ++ "]") ++ String ":"%char port
                 = ("[" ++ x) ++ String "]"%char (String ":"%char port)).
    { rewrite !sapp_assoc. reflexivity. }
    rewrite E2.
    replace (strings.len ("[" ++ x ++ "]") - 1) with (strings.len ("[" ++ x)).
    - apply at_app_here.
    - rewrite !len_app. unfold strings.len. simpl. lia. }
  rewrite Hb. rewrite Ascii.eqb_refl, andb_false_r. apply upto_app.
Qed.

Lemma stripPort_bracket x :
  strings.IndexByte x "]"%char = -1 ->
  stripPort ("[" ++ x ++ "]") = "[" ++ x ++ "]".
Proof.
  intros Hx. unfold stripPort.
  set (s := "[" ++ x).
  assert (E : "[" ++ x ++ "]" = s ++ String "]"%char "").
  { unfold s. rewrite !sapp_cons, !sapp_nil. reflexivity. }
  rewrite E, LastIndexByte_snoc by discriminate.
  destruct (Z.eqb_spec (strings.LastIndexByte s ":"%char) (-1)) as [|Hn];
    [reflexivity|].
  pose proof (LastIndexByte_range s ":"%char) as Hr.
  assert (Hpos : 0 < strings.LastIndexByte s ":"%char).
  { pose proof (at_LastIndexByte s ":"%char Hn) as Ha.
    destruct (Z.eq_dec (strings.LastIndexByte s ":"%char) 0) as [H0|]; [|lia].
    rewrite H0 in Ha. unfold s in Ha. rewrite sapp_cons in Ha. discriminate. }
  assert (Hs : strings.IndexByte s "]"%char = -1).
  { unfold s. rewrite sapp_cons, sapp_nil. simpl. rewrite Hx. reflexivity. }
  pose proof (at_before_last s ":"%char "]"%char Hs Hpos) as Hne.
  rewrite !(at_app_l s) by lia.
  apply Ascii.eqb_neq in Hne. rewrite Hne.
  assert (H0 : strings.at_ s 0 = "["%char).
  { unfold s. rewrite !sapp_cons. reflexivity. }
  rewrite H0. reflexivity.
Qed.

End stripPort_facts.

Section table_facts.

Lemma SetCost_costs c pattern cost :
  costs (SetCost c pattern cost) = <[patternKey pattern := cost]> (costs c).
Proof.
  unfold SetCost, patternKey. destruct (splitPattern pattern). reflexivity.
Qed.

Lemma SetCost_prefixes c pattern cost :
  prefixes (SetCost c pattern cost)
  = if isSubtree pattern then addPrefix (prefixes c) (patternKey pattern)
    else prefixes c.
Proof.
  unfold SetCost, patternKey, isSubtree.
  destruct (splitPattern pattern). reflexivity.
Qed.

Lemma SetCost_hasHost c pattern cost :
  hasHost (SetCost c pattern cost)
  = if negb (String.eqb (splitPattern pattern).1 "") then true else hasHost c.
Proof. unfold SetCost. destruct (splitPattern pattern). reflexivity. Qed.

Lemma configure_snoc l pattern cost :
  configure (l ++ [(pattern, cost)]) = SetCost (configure l) pattern cost.
Proof. unfold configure. rewrite fold_left_app. reflexivity. Qed.

Lemma elem_of_addPrefix ps prefix x :
  x ∈ addPrefix ps prefix <-> x = prefix \/ x ∈ ps.
Proof.
  induction ps as [|p rest IH]; simpl.
  - rewrite list_elem_of_singleton. split; [auto|].
    intros [H|H]; [exact H | inversion H].
  - destruct (String.eqb_spec p prefix) as [->|Hne].
    + rewrite elem_of_cons. tauto.
    + destruct (String.length p <? String.length prefix)%nat.
      * rewrite elem_of_cons. tauto.
      * rewrite !elem_of_cons, IH. tauto.
Qed.

Lemma addPrefix_sorted ps prefix :
  longest_first ps -> longest_first (addPrefix ps prefix).
Proof.
  unfold longest_first. induction 1 as [|p rest Hrest IH Hp]; simpl.
  - repeat constructor.
  - destruct (String.eqb p prefix); [constructor; assumption|].
    destruct (Nat.ltb_spec (String.length p) (String.length prefix)) as [Hlt|Hge].
    + constructor; [constructor; assumption|].
      constructor; [unfold longer; lia|].
      eapply Forall_impl; [exact Hp|]. unfold longer. simpl. intros; lia.
    + constructor; [exact IH|].
      apply Forall_forall. intros x Hx.
      apply elem_of_addPrefix in Hx as [->|Hx]; [exact Hge|].
      rewrite Forall_forall in Hp. auto.
Qed.

(** A prefix that is already listed is found before any shorter entry:
    the list is left as it is. *)
Lemma addPrefix_present ps prefix :
  longest_first ps -> prefix ∈ ps -> addPrefix ps prefix = ps.
Proof.
  unfold longest_first. induction 1 as [|p rest Hrest IH Hp]; simpl.
  - inversion 1.
  - intros Hin. destruct (String.eqb_spec p prefix) as [|Hne]; [reflexivity|].
    apply elem_of_cons in Hin as [->|Hin]; [contradiction|].
    rewrite Forall_forall in Hp. pose proof (Hp _ Hin) as Hlen.
    unfold longer in Hlen.
    destruct (Nat.ltb_spec (String.length p) (String.length prefix)); [lia|].
    rewrite IH by assumption. reflexivity.
Qed.

Lemma addPrefix_NoDup ps prefix :
  longest_first ps -> NoDup ps -> NoDup (addPrefix ps prefix).
Proof.
  unfold longest_first. induction 1 as [|p rest Hrest IH Hp]; simpl; intros Hnd.
  - apply NoDup_singleton.
  - destruct (String.eqb_spec p prefix) as [|Hne]; [exact Hnd|].
    apply NoDup_cons in Hnd as [Hnotin Hnd].
    destruct (Nat.ltb_spec (String.length p) (String.length prefix)) as [Hlt|Hge].
    + apply NoDup_cons. split; [|apply NoDup_cons; split; assumption].
      rewrite elem_of_cons. intros [->|Hin]; [contradiction|].
      rewrite Forall_forall in Hp. specialize (Hp _ Hin).
      unfold longer in Hp. lia.
    + apply NoDup_cons. split; [|auto].
      rewrite elem_of_addPrefix. intros [->|Hin]; contradiction.
Qed.

Lemma new_table_ok : table_ok newPatternCostEstimator.
Proof.
  split; simpl.
  - constructor.
  - apply NoDup_nil_2.
  - intros p Hp. inversion Hp.
Qed.

Lemma SetCost_table_ok c pattern cost :
  table_ok c -> table_ok (SetCost c pattern cost).
Proof.
  intros [Hs Hn Hc]. split.
  - rewrite SetCost_prefixes. destruct (isSubtree pattern);
      [apply addPrefix_sorted|]; assumption.
  - rewrite SetCost_prefixes. destruct (isSubtree pattern);
      [apply addPrefix_NoDup|]; assumption.
  - intros p. rewrite SetCost_prefixes, SetCost_costs. intros Hp.
    destruct (decide (patternKey pattern = p)) as [->|Hne].
    + rewrite lookup_insert_eq. eauto.
    + rewrite lookup_insert_ne by assumption. apply Hc.
      destruct (isSubtree pattern); [|assumption].
      apply elem_of_addPrefix in Hp as [->|Hp]; [contradiction | assumption].
Qed.

Lemma configure_table_ok l : table_ok (configure l).
Proof.
  induction l as [|[pattern cost] l IH] using rev_ind.
  - apply new_table_ok.
  - rewrite configure_snoc. apply SetCost_table_ok. exact IH.
Qed.

End table_facts.

(** ** [path.Clean] keeps a rooted path rooted *)

Section clean_facts.

Lemma backtrack_ge fuel out w dotdot :
  (dotdot <= w)%nat -> (dotdot <= stdpath.backtrack fuel out w dotdot)%nat.
Proof.
  revert w. induction fuel as [|fuel IH]; intros w Hw; simpl; [exact Hw|].
  destruct (Nat.ltb_spec dotdot w); simpl; [|exact Hw].
  destruct (negb _); [apply IH; lia | exact Hw].
Qed.

Lemma head_firstn (out : list ascii) w :
  (1 <= w)%nat -> head (firstn w out) = head out.
Proof. destruct w; [lia|]. destruct out; reflexivity. Qed.

Lemma head_snoc (out : list ascii) b x :
  head out = Some b -> head (out ++ x)%list = Some b.
Proof. destruct out; [discriminate | auto]. Qed.

Lemma copy_element_head fuel path r out b :
  head out = Some b -> head (stdpath.copy_element fuel path r out).2 = Some b.
Proof.
  revert r out. induction fuel as [|fuel IH]; intros r out Hout; simpl; [exact Hout|].
  destruct (_ && _); [|exact Hout].
  apply IH. apply head_snoc. exact Hout.
Qed.

Lemma clean_loop_rooted fuel path r out :
  head out = Some stdpath.slash ->
  head (stdpath.clean_loop fuel true path r out 1) = Some stdpath.slash.
Proof.
  revert r out. induction fuel as [|fuel IH]; intros r out Hout; simpl; [exact Hout|].
  destruct (negb (r <? length path)%nat); [exact Hout|].
  destruct (Ascii.eqb (nth r path zero) stdpath.slash); [apply IH; exact Hout|].
  destruct (_ && (_ || _)); [apply IH; exact Hout|].
  destruct (_ && _ && (_ || _)).
  - destruct (Nat.ltb_spec 1 (length out)) as [Hlen|Hlen].
    + apply IH. rewrite head_firstn; [exact Hout|].
      apply backtrack_ge. lia.
    + simpl. apply IH. exact Hout.
  - destruct (stdpath.copy_element (length path) path r _) as [r' out2] eqn:E.
    apply IH.
    change out2 with ((r', out2).2). rewrite <- E.
    apply copy_element_head.
    destruct (_ || _); [apply head_snoc|]; exact Hout.
Qed.

Lemma Clean_rooted path :
  strings.at_ path 0 = "/"%char ->
  exists rest, stdpath.Clean path = String "/"%char rest.
Proof.
  intros H. destruct path as [|b path]; [discriminate|].
  unfold strings.at_ in H. simpl in H. subst b.
  unfold stdpath.Clean.
  change (String.eqb (String "/"%char path) "") with false.
  cbv iota. cbv zeta.
  change (Ascii.eqb (nth 0 (list_ascii_of_string (String "/"%char path)) zero)
            stdpath.slash) with true.
  cbv iota.
  pose proof (clean_loop_rooted
                (length (list_ascii_of_string (String "/"%char path)))
                (list_ascii_of_string (String "/"%char path)) 1
                [stdpath.slash] eq_refl) as Hh.
  destruct (stdpath.clean_loop _ true _ 1 [stdpath.slash] 1) as [|a out];
    [discriminate|].
  simpl in Hh. injection Hh as ->. simpl. eauto.
Qed.

End clean_facts.

(** ** [match] *)

Section match_facts.

Lemma match_prefixes_miss cs ps key :
  Forall (fun p => strings.HasPrefix key p = false) ps ->
  match_prefixes cs ps key = (1, false).
Proof.
  induction 1 as [|p ps Hp _ IH]; simpl; [reflexivity|].
  rewrite Hp. exact IH.
Qed.

Lemma match_prefixes_hit cs ps key :
  snd (match_prefixes cs ps key) = false ->
  Forall (fun p => strings.HasPrefix key p = false) ps.
Proof.
  induction ps as [|p ps IH]; simpl; [constructor|].
  destruct (strings.HasPrefix key p) eqn:E; [discriminate|].
  intros H. constructor; auto.
Qed.

(** Over a longest-first list the first matching prefix is a longest
    matching prefix. *)
Lemma match_prefixes_longest cs ps key :
  longest_first ps ->
  match filter (fun p => strings.HasPrefix key p = true) ps with
  | [] => match_prefixes cs ps key = (1, false)
  | q :: _ =>
      match_prefixes cs ps key = (default 0 (cs !! q), true) /\
      q ∈ ps /\ strings.HasPrefix key q = true /\
      Forall (fun p => strings.HasPrefix key p = true ->
                       (String.length p <= String.length q)%nat) ps
  end.
Proof.
  unfold longest_first. induction 1 as [|p ps Hs IH Hp]; simpl; [reflexivity|].
  rewrite filter_cons.
  destruct (decide (strings.HasPrefix key p = true)) as [E|E].
  - rewrite E. split; [reflexivity|]. split; [apply elem_of_cons; auto|].
    split; [reflexivity|]. constructor; [lia|].
    eapply Forall_impl; [exact Hp|]. unfold longer. simpl. intros; lia.
  - apply not_true_is_false in E. rewrite E.
    destruct (filter _ ps) as [|q qs]; [exact IH|].
    destruct IH as (Hm & Hin & Hq & Hall).
    split; [exact Hm|]. split; [apply elem_of_cons; auto|].
    split; [exact Hq|]. constructor; [congruence | exact Hall].
Qed.

Lemma match_exact c key v :
  costs c !! key = Some v -> match_ c key = (v, true).
Proof. unfold match_. intros ->. reflexivity. Qed.

Lemma match_miss c key : no_match c key -> match_ c key = (1, false).
Proof.
  intros [Hc Hp]. unfold match_. rewrite Hc. apply match_prefixes_miss, Hp.
Qed.

Lemma match_ok c key : snd (match_ c key) = false <-> no_match c key.
Proof.
  split.
  - unfold match_, no_match. destruct (costs c !! key); [discriminate|].
    intros H. split; [reflexivity|]. eapply match_prefixes_hit, H.
  - intros H. rewrite (match_miss _ _ H). reflexivity.
Qed.

Lemma no_match_dec c key : {no_match c key} + {~ no_match c key}.
Proof.
  destruct (snd (match_ c key)) eqn:E.
  - right. intros H. apply match_ok in H. congruence.
  - left. apply match_ok, E.
Defined.

Lemma EstimateCost_no_host c req :
  hasHost c = false -> EstimateCost c req = (match_ c (pathKey req)).1.
Proof. unfold EstimateCost, pathKey. intros ->. reflexivity. Qed.

Lemma EstimateCost_host c req :
  hasHost c = true ->
  EstimateCost c req =
    if snd (match_ c (hostKey req)) then (match_ c (hostKey req)).1
    else (match_ c (pathKey req)).1.
Proof. unfold EstimateCost, pathKey, hostKey. intros ->. reflexivity. Qed.

End match_facts.

(** ** Properties of the pattern cost estimator *)

(** A table with one host-qualified subtree and one host-less exact path. *)
Definition mixed_table : PatternCostEstimator :=
  configure [("h/api/", 5); ("/api/x", 3)].

(** Claim C3.  When some entry carries a host, [EstimateCost] falls back
    from the host-qualified key to the path-only key exactly when the
    host-qualified key has no match at all, exact or by prefix: with no
    match the result is the result of matching the path alone (so a
    path-only exact entry supplies the cost), and with any match, be it
    only by prefix, the result is that of the host-qualified attempt. *)
Theorem EstimateCost_fallback_whole_attempt
  (c : PatternCostEstimator) (req : Request) :
  hasHost c = true ->
  (no_match c (hostKey req) ->
     EstimateCost c req = (match_ c (pathKey req)).1) /\
  (~ no_match c (hostKey req) ->
     snd (match_ c (hostKey req)) = true /\
     EstimateCost c req = (match_ c (hostKey req)).1) /\
  (forall v, no_match c (hostKey req) ->
     costs c !! pathKey req = Some v -> EstimateCost c req = v).
Proof.
  intros Hh. rewrite (EstimateCost_host c req Hh).
  split; [|split].
  - intros Hn. apply match_ok in Hn. rewrite Hn. reflexivity.
  - intros Hn. destruct (snd (match_ c (hostKey req))) eqn:E.
    + split; reflexivity.
    + apply match_ok in E. contradiction.
  - intros v Hn Hv. apply match_ok in Hn. rewrite Hn.
    rewrite (match_exact c _ v Hv). reflexivity.
Qed.

Lemma EstimateCost_fallback_whole_attempt_witness :
  hasHost mixed_table = true /\
  ((no_match mixed_table (hostKey (mkRequest "other" "/api/x")) ->
      EstimateCost mixed_table (mkRequest "other" "/api/x")
      = (match_ mixed_table (pathKey (mkRequest "other" "/api/x"))).1) /\
   (~ no_match mixed_table (hostKey (mkRequest "other" "/api/x")) ->
      snd (match_ mixed_table (hostKey (mkRequest "other" "/api/x"))) = true /\
      EstimateCost mixed_table (mkRequest "other" "/api/x")
      = (match_ mixed_table (hostKey (mkRequest "other" "/api/x"))).1) /\
   (forall v, no_match mixed_table (hostKey (mkRequest "other" "/api/x")) ->
      costs mixed_table !! pathKey (mkRequest "other" "/api/x") = Some v ->
      EstimateCost mixed_table (mkRequest "other" "/api/x") = v)).
Proof.
  split; [vm_compute; reflexivity|].
  apply (EstimateCost_fallback_whole_attempt mixed_table (mkRequest "other" "/api/x")).
  vm_compute; reflexivity.
Defined.

(** The two sides of the fallback on [mixed_table]: another host falls
    back to the path-only exact entry; host [h] is served by its subtree
    entry although the path alone has an exact entry. *)
Example fallback_on_mixed_table :
  no_match mixed_table (hostKey (mkRequest "other" "/api/x")) /\
  EstimateCost mixed_table (mkRequest "other" "/api/x") = 3 /\
  ~ no_match mixed_table (hostKey (mkRequest "h" "/api/x")) /\
  costs mixed_table !! hostKey (mkRequest "h" "/api/x") = None /\
  costs mixed_table !! pathKey (mkRequest "h" "/api/x") = Some 3 /\
  EstimateCost mixed_table (mkRequest "h" "/api/x") = 5.
Proof.
  split; [apply match_ok; vm_compute; reflexivity|].
  split; [vm_compute; reflexivity|].
  split; [intros H; apply match_ok in H; vm_compute in H; discriminate|].
  repeat split; vm_compute; reflexivity.
Qed.

(** Claim C4.  On every table built by [SetCost], [match] returns the
    cost of an exact entry if there is one, otherwise the cost of a
    longest listed prefix of the key, otherwise the default 1 with
    [false]; with [/free]->0, [/api/]->5 and [/api/calls/]->7 registered
    the estimates for [/api/calls/call1], [/api/other] and [/nomatch]
    are 7, 5 and 1, whatever the request host. *)
Theorem match_exact_then_longest_prefix
  (l : list (string * Z)) (key host : string) :
  let c := configure l in
  let c4 := configure [("/free", 0); ("/api/", 5); ("/api/calls/", 7)] in
  match costs c !! key with
  | Some v => match_ c key = (v, true)
  | None =>
      match filter (fun p => strings.HasPrefix key p = true) (prefixes c) with
      | [] => match_ c key = (1, false)
      | q :: _ =>
          match_ c key = (default 0 (costs c !! q), true) /\
          is_Some (costs c !! q) /\
          q ∈ prefixes c /\ strings.HasPrefix key q = true /\
          Forall (fun p => strings.HasPrefix key p = true ->
                           (String.length p <= String.length q)%nat) (prefixes c)
      end
  end /\
  EstimateCost c4 (mkRequest host "/api/calls/call1") = 7 /\
  EstimateCost c4 (mkRequest host "/api/other") = 5 /\
  EstimateCost c4 (mkRequest host "/nomatch") = 1.
Proof.
  intros c c4. split.
  - destruct (costs c !! key) as [v|] eqn:E; [apply match_exact, E|].
    pose proof (configure_table_ok l) as [Hs _ Hc]. fold c in Hs, Hc.
    pose proof (match_prefixes_longest (costs c) (prefixes c) key Hs) as H.
    unfold match_. rewrite E.
    destruct (filter _ (prefixes c)) as [|q qs]; [exact H|].
    destruct H as (Hm & Hin & Hq & Hall). auto 6.
  - repeat split; rewrite EstimateCost_no_host by reflexivity;
      vm_compute; reflexivity.
Qed.

(** Claim C5.  [stripPort] removes a trailing [:port] from a host that is
    not bracketed and from a bracketed literal, and leaves a bracketed
    literal without port alone, colons inside the brackets included; so
    a request to [host:port] is estimated by the entry filed under
    [host], as for [[::1]:80] and [127.0.0.1:80]. *)
Theorem stripPort_host_port
  (h x port path : string) (c : PatternCostEstimator) :
  strings.IndexByte port ":"%char = -1 ->
  strings.IndexByte x "]"%char = -1 ->
  strings.at_ h 0 <> "["%char ->
  stripPort (h ++ ":" ++ port) = h /\
  stripPort ("[" ++ x ++ "]:" ++ port) = "[" ++ x ++ "]" /\
  stripPort ("[" ++ x ++ "]") = "[" ++ x ++ "]" /\
  hostKey (mkRequest (h ++ ":" ++ port) path) = h ++ stdpath.Clean path /\
  hostKey (mkRequest ("[" ++ x ++ "]:" ++ port) path)
    = ("[" ++ x ++ "]") ++ stdpath.Clean path /\
  stripPort "[::1]:80" = "[::1]" /\
  stripPort "127.0.0.1:80" = "127.0.0.1" /\
  stripPort "[::1]" = "[::1]" /\
  EstimateCost (configure [("[::1]/free", 0); ("[::1]/api/", 5)])
    (mkRequest "[::1]:80" "/api/call") = 5 /\
  EstimateCost (configure [("127.0.0.1/free", 0); ("127.0.0.1/api/", 5)])
    (mkRequest "127.0.0.1:80" "/api/call") = 5 /\
  EstimateCost (SetCost c "[::1]/api" 5) (mkRequest "[::1]:80" "/api") = 5 /\
  EstimateCost (SetCost c "127.0.0.1/api" 5) (mkRequest "127.0.0.1:80" "/api") = 5.
Proof.
  intros Hport Hx Hh.
  pose proof (stripPort_plain h port Hport Hh) as H1.
  pose proof (stripPort_bracket_port x port Hport) as H2.
  pose proof (stripPort_bracket x Hx) as H3.
  assert (Hset : forall pat hostport key,
             patternKey pat = key ->
             negb (String.eqb (splitPattern pat).1 "") = true ->
             hostKey (mkRequest hostport "/api") = key ->
             EstimateCost (SetCost c pat 5) (mkRequest hostport "/api") = 5).
  { intros pat hostport key Hk Hsp Hhk.
    rewrite EstimateCost_host by (rewrite SetCost_hasHost, Hsp; reflexivity).
    rewrite Hhk.
    rewrite (match_exact _ key 5);
      [reflexivity | rewrite SetCost_costs, Hk; apply lookup_insert_eq]. }
  split; [exact H1|]. split; [exact H2|]. split; [exact H3|].
  split; [unfold hostKey; simpl; rewrite H1; reflexivity|].
  split; [unfold hostKey; simpl; rewrite H2; reflexivity|].
  do 5 (split; [vm_compute; reflexivity|]).
  split.
  - apply (Hset _ _ "[::1]/api"); vm_compute; reflexivity.
  - apply (Hset _ _ "127.0.0.1/api"); vm_compute; reflexivity.
Qed.

Lemma stripPort_host_port_witness :
  strings.IndexByte "80" ":"%char = -1 /\
  strings.IndexByte "::1" "]"%char = -1 /\
  strings.at_ "127.0.0.1" 0 <> "["%char /\
  stripPort ("127.0.0.1" ++ ":" ++ "80") = "127.0.0.1" /\
  stripPort ("[" ++ "::1" ++ "]:" ++ "80") = "[" ++ "::1" ++ "]" /\
  stripPort ("[" ++ "::1" ++ "]") = "[" ++ "::1" ++ "]".
Proof.
  split; [reflexivity|]. split; [reflexivity|]. split; [discriminate|].
  destruct (stripPort_host_port "127.0.0.1" "::1" "80" "/api/call"
              newPatternCostEstimator eq_refl eq_refl)
    as (H1 & H2 & H3 & _); [discriminate|].
  split; [exact H1|]. split; [exact H2 | exact H3].
Defined.

Section overwrite_facts.

Lemma SetCost_prefixes_mono c pattern cost x :
  x ∈ prefixes c -> x ∈ prefixes (SetCost c pattern cost).
Proof.
  rewrite SetCost_prefixes. destruct (isSubtree pattern); [|auto].
  rewrite elem_of_addPrefix. auto.
Qed.

Lemma configure_app l1 l2 :
  configure (l1 ++ l2)
  = fold_left (fun c pc => SetCost c pc.1 pc.2) l2 (configure l1).
Proof. unfold configure. apply fold_left_app. Qed.

Lemma fold_SetCost_prefixes_mono l c x :
  x ∈ prefixes c ->
  x ∈ prefixes (fold_left (fun c pc => SetCost c pc.1 pc.2) l c).
Proof.
  revert c. induction l as [|[p v] l IH]; intros c Hx; simpl; [exact Hx|].
  apply IH, SetCost_prefixes_mono, Hx.
Qed.

Lemma fold_SetCost_costs_other l c key :
  Forall (fun q : string * Z => patternKey q.1 <> key) l ->
  costs (fold_left (fun c pc => SetCost c pc.1 pc.2) l c) !! key = costs c !! key.
Proof.
  revert c. induction l as [|[p v] l IH]; intros c Hl; simpl; [reflexivity|].
  apply Forall_cons in Hl as [Hp Hl]. rewrite IH by exact Hl.
  rewrite SetCost_costs. apply lookup_insert_ne. exact Hp.
Qed.

Lemma SetCost_registered_prefix c pattern cost :
  isSubtree pattern = true ->
  patternKey pattern ∈ prefixes (SetCost c pattern cost).
Proof.
  intros Hs. rewrite SetCost_prefixes, Hs. apply elem_of_addPrefix. auto.
Qed.

End overwrite_facts.

(** Claim C6.  [SetCost] is last-write-wins: when two patterns are filed
    under the same key, after the later call the table holds the later
    cost for that key (until the key is registered again); if the
    earlier registration was a subtree pattern, the later call leaves
    the prefix list as it was, and the list has no duplicates;
    [/api/]->5 followed by [/api/]->7 estimates [/api/call] at 7. *)
Theorem SetCost_last_write_wins
  (l0 l1 l2 : list (string * Z)) (p1 p2 : string) (v1 v2 : Z) (host : string) :
  patternKey p1 = patternKey p2 ->
  Forall (fun q : string * Z => patternKey q.1 <> patternKey p2) l2 ->
  let before := configure (l0 ++ (p1, v1) :: l1) in
  let after := SetCost before p2 v2 in
  costs after !! patternKey p1 = Some v2 /\
  costs (configure (l0 ++ (p1, v1) :: l1 ++ (p2, v2) :: l2)) !! patternKey p1
    = Some v2 /\
  (isSubtree p1 = true -> prefixes after = prefixes before) /\
  NoDup (prefixes after) /\
  EstimateCost (configure [("/api/", 5); ("/api/", 7)])
    (mkRequest host "/api/call") = 7.
Proof.
  intros Hk Hl2 before after.
  assert (Hafter : costs after !! patternKey p1 = Some v2).
  { unfold after. rewrite SetCost_costs, Hk. apply lookup_insert_eq. }
  split; [exact Hafter|]. split; [|split; [|split]].
  - replace (l0 ++ (p1, v1) :: l1 ++ (p2, v2) :: l2)%list
      with (((l0 ++ (p1, v1) :: l1) ++ [(p2, v2)]) ++ l2)%list
      by (rewrite <- !app_assoc; reflexivity).
    rewrite configure_app, configure_snoc. fold before. fold after.
    rewrite Hk. rewrite fold_SetCost_costs_other by exact Hl2.
    rewrite <- Hk. exact Hafter.
  - intros Hs. unfold after. rewrite SetCost_prefixes.
    destruct (isSubtree p2); [|reflexivity].
    apply addPrefix_present.
    + apply (ok_sorted _ (configure_table_ok _)).
    + rewrite <- Hk. unfold before.
      replace (l0 ++ (p1, v1) :: l1)%list with ((l0 ++ [(p1, v1)]) ++ l1)%list
        by (rewrite <- app_assoc; reflexivity).
      rewrite configure_app. apply fold_SetCost_prefixes_mono.
      rewrite configure_snoc. apply SetCost_registered_prefix, Hs.
  - apply (ok_nodup _ (SetCost_table_ok _ p2 v2 (configure_table_ok _))).
  - rewrite EstimateCost_no_host by reflexivity. vm_compute. reflexivity.
Qed.

Lemma SetCost_last_write_wins_witness :
  patternKey "/api/" = patternKey "/api//" /\
  Forall (fun q : string * Z => patternKey q.1 <> patternKey "/api//")
    [("/api", 1)] /\
  costs (SetCost (configure ([] ++ ("/api/", 5) :: [("/x/", 2)])) "/api//" 7)
    !! patternKey "/api/" = Some 7 /\
  costs (configure ([] ++ ("/api/", 5) :: [("/x/", 2)] ++ ("/api//", 7) :: [("/api", 1)]))
    !! patternKey "/api/" = Some 7.
Proof.
  assert (H1 : patternKey "/api/" = patternKey "/api//") by (vm_compute; reflexivity).
  assert (H2 : Forall (fun q : string * Z => patternKey q.1 <> patternKey "/api//")
                 [("/api", 1)]).
  { constructor; [vm_compute; discriminate | constructor]. }
  split; [exact H1|]. split; [exact H2|].
  destruct (SetCost_last_write_wins [] [("/x/", 2)] [("/api", 1)]
              "/api/" "/api//" 5 7 "example.com" H1 H2) as (Ha & Hb & _).
  split; [exact Ha | exact Hb].
Defined.

(** Claim C7.  After every sequence of [SetCost] calls the prefix list is
    sorted longest first (lengths never increase along the list), has no
    duplicates, and each of its entries is a key of the cost map. *)
Theorem prefixes_invariant (l : list (string * Z)) :
  let c := configure l in
  StronglySorted
    (fun a b : string => (String.length b <= String.length a)%nat) (prefixes c) /\
  NoDup (prefixes c) /\
  Forall (fun p => is_Some (costs c !! p)) (prefixes c).
Proof.
  intros c. destruct (configure_table_ok l) as [Hs Hn Hc]. fold c in Hs, Hn, Hc.
  split; [exact Hs|]. split; [exact Hn|].
  apply Forall_forall. exact Hc.
Qed.

Section host_only_facts.





End host_only_facts.




(** ** Sums over the goroutines *)

Section total_facts.

Context (w : goroutine -> Z).

Lemma total_empty : total w ∅ = 0.
Proof. unfold total. apply map_fold_empty. Qed.

Lemma total_insert_fresh (m : gmap nat goroutine) i t :
  m !! i = None -> total w (<[i := t]> m) = w t + total w m.
Proof.
  intros H. unfold total.
  rewrite (map_fold_insert_L (fun _ t acc => w t + acc)); [reflexivity| |exact H].
  intros. lia.
Qed.

Lemma total_delete (m : gmap nat goroutine) i t :
  m !! i = Some t -> total w m = w t + total w (delete i m).
Proof.
  intros H. unfold total.
  rewrite (map_fold_delete_L (fun _ t acc => w t + acc) 0 i t m);
    [reflexivity| |exact H].
  intros. lia.
Qed.

Lemma total_insert (m : gmap nat goroutine) i t0 t :
  m !! i = Some t0 -> total w (<[i := t]> m) = total w m - w t0 + w t.
Proof.
  intros H. rewrite (total_delete m i t0 H).
  rewrite <- (insert_delete_eq m i t).
  rewrite total_insert_fresh by apply lookup_delete_eq. lia.
Qed.

Lemma alter_as_insert (f : goroutine -> goroutine) (m : gmap nat goroutine) i t0 :
  m !! i = Some t0 -> alter f i m = <[i := f t0]> m.
Proof.
  intros H. apply map_eq. intros j. destruct (decide (i = j)) as [->|Hne].
  - rewrite lookup_alter_eq, lookup_insert_eq, H. reflexivity.
  - rewrite lookup_alter_ne, lookup_insert_ne by assumption. reflexivity.
Qed.

Lemma alter_absent (f : goroutine -> goroutine) (m : gmap nat goroutine) i :
  m !! i = None -> alter f i m = m.
Proof.
  intros H. apply map_eq. intros j. destruct (decide (i = j)) as [->|Hne].
  - rewrite lookup_alter_eq, H. reflexivity.
  - rewrite lookup_alter_ne by assumption. reflexivity.
Qed.

Lemma total_alter_same (f : goroutine -> goroutine) (m : gmap nat goroutine) i :
  (forall t, w (f t) = w t) -> total w (alter f i m) = total w m.
Proof.
  intros Hf. destruct (m !! i) as [t0|] eqn:E.
  - rewrite (alter_as_insert f m i t0 E), (total_insert m i t0 _ E), Hf. lia.
  - rewrite alter_absent by exact E. reflexivity.
Qed.

Lemma total_nonneg (m : gmap nat goroutine) :
  (forall i t, m !! i = Some t -> 0 <= w t) -> 0 <= total w m.
Proof.
  induction m as [|i t m Hi IH] using map_ind; intros H.
  - rewrite total_empty. lia.
  - rewrite total_insert_fresh by exact Hi.
    assert (0 <= w t) by (apply (H i); apply lookup_insert_eq).
    assert (0 <= total w m); [|lia].
    apply IH. intros j t' Hj. apply (H j).
    rewrite lookup_insert_ne; [exact Hj|]. intros ->. congruence.
Qed.

(** One summand is at most the sum, when no summand is negative. *)
Lemma total_ge_one (m : gmap nat goroutine) i t :
  (forall i t, m !! i = Some t -> 0 <= w t) ->
  m !! i = Some t -> w t <= total w m.
Proof.
  intros H Hi. rewrite (total_delete m i t Hi).
  assert (0 <= total w (delete i m)); [|lia].
  apply total_nonneg. intros j t' Hj.
  apply lookup_delete_Some in Hj as [_ Hj]. eauto.
Qed.

End total_facts.

Lemma total_le (w1 w2 : goroutine -> Z) (m : gmap nat goroutine) :
  (forall i t, m !! i = Some t -> w1 t <= w2 t) -> total w1 m <= total w2 m.
Proof.
  induction m as [|i t m Hi IH] using map_ind; intros H.
  - rewrite !total_empty. lia.
  - rewrite !total_insert_fresh by exact Hi.
    assert (w1 t <= w2 t) by (apply (H i); apply lookup_insert_eq).
    assert (total w1 m <= total w2 m); [|lia].
    apply IH. intros j t' Hj. apply (H j).
    rewrite lookup_insert_ne; [exact Hj|]. intros ->. congruence.
Qed.

Lemma total_plus (w1 w2 : goroutine -> Z) (m : gmap nat goroutine) :
  total (fun t => w1 t + w2 t) m = total w1 m + total w2 m.
Proof.
  induction m as [|i t m Hi IH] using map_ind.
  - rewrite !total_empty. lia.
  - rewrite !total_insert_fresh by exact Hi. lia.
Qed.

(** ** int64 arithmetic within range *)

Lemma wrap_in_range z : int64.in_range z -> int64.wrap z = z.
Proof.
  unfold int64.in_range, int64.min, int64.max, int64.wrap. intros H.
  rewrite Z.mod_small; lia.
Qed.

(** ** Waking goroutines *)

Section wake_facts.

Lemma wake_lookup ids (gs : gmap nat goroutine) id :
  wake ids gs !! id
  = if decide (id ∈ ids) then mark_ready <$> gs !! id else gs !! id.
Proof.
  unfold wake. revert gs. induction ids as [|i ids IH]; intros gs; simpl.
  - destruct (decide (id ∈ [])) as [H|]; [inversion H | reflexivity].
  - rewrite IH. destruct (decide (i = id)) as [->|Hne].
    + rewrite lookup_alter_eq.
      destruct (decide (id ∈ ids)), (decide (id ∈ id :: ids)) as [|Hn];
        try reflexivity.
      * destruct (gs !! id); reflexivity.
      * exfalso. apply Hn. apply elem_of_cons. auto.
      * exfalso. apply Hn. apply elem_of_cons. auto.
    + rewrite lookup_alter_ne by assumption.
      destruct (decide (id ∈ ids)), (decide (id ∈ i :: ids)) as [Hy|Hn];
        try reflexivity.
      * exfalso. apply Hn. apply elem_of_cons. auto.
      * exfalso. apply elem_of_cons in Hy as [?|?]; congruence.
Qed.

(** Waking changes nothing but the [ready] flag. *)
Lemma wake_lookup_Some ids (gs : gmap nat goroutine) id t' :
  wake ids gs !! id = Some t' ->
  exists t, gs !! id = Some t /\
    g_cost t' = g_cost t /\ g_at t' = g_at t /\ g_trace t' = g_trace t /\
    g_panicked t' = g_panicked t /\
    (g_ready t' = g_ready t \/ (id ∈ ids /\ g_ready t' = true)).
Proof.
  rewrite wake_lookup. destruct (decide (id ∈ ids)) as [Hin|Hn].
  - destruct (gs !! id) as [t|]; [|discriminate].
    simpl. intros [= <-]. exists t. simpl. auto 10.
  - intros H. exists t'. auto 10.
Qed.

Lemma wake_lookup_None ids (gs : gmap nat goroutine) id :
  gs !! id = None -> wake ids gs !! id = None.
Proof.
  intros H. rewrite wake_lookup, H. destruct (decide (id ∈ ids)); reflexivity.
Qed.

Lemma wake_nil (gs : gmap nat goroutine) : wake [] gs = gs.
Proof. reflexivity. Qed.

Lemma wake_cons i ids (gs : gmap nat goroutine) :
  wake (i :: ids) gs = wake ids (alter mark_ready i gs).
Proof. reflexivity. Qed.

Lemma total_wake_same (w : goroutine -> Z) ids (gs : gmap nat goroutine) :
  (forall t, w (mark_ready t) = w t) -> total w (wake ids gs) = total w gs.
Proof.
  intros Hw. revert gs. induction ids as [|i ids IH]; intros gs; [reflexivity|].
  rewrite wake_cons, IH. apply total_alter_same. exact Hw.
Qed.

End wake_facts.

(** ** [notifyWaiters] *)

Section notify_facts.

Lemma holds_concurrent_nonneg (gs : gmap nat goroutine) :
  goroutines_ok gs -> forall i t, gs !! i = Some t -> 0 <= holds_concurrent t.
Proof.
  intros H i t Hi. destruct (H i t Hi) as (Hc & _). unfold holds_concurrent.
  destruct (g_at t); try lia. destruct (g_ready t); lia.
Qed.

Lemma holds_burst_nonneg (gs : gmap nat goroutine) :
  goroutines_ok gs -> forall i t, gs !! i = Some t -> 0 <= holds_burst t.
Proof.
  intros H i t Hi. destruct (H i t Hi) as (Hc & _). unfold holds_burst.
  destruct (g_at t); lia.
Qed.

Lemma waiters_ok_nil gs : waiters_ok [] gs.
Proof. split; [constructor | intros w Hw; inversion Hw]. Qed.

(** A goroutine that is not an ungranted waiter may change freely. *)
Lemma waiters_ok_insert ws (gs : gmap nat goroutine) id t t' :
  waiters_ok ws gs -> gs !! id = Some t ->
  (g_at t <> AcquireWaiting \/ g_ready t = true) ->
  waiters_ok ws (<[id := t']> gs).
Proof.
  intros [Hnd Hw] Hid Hnot. split; [exact Hnd|].
  intros w Hin. destruct (Hw w Hin) as (t0 & Ht0 & Hat & Hr & Hc).
  destruct (decide (id = semaphore.w_ready w)) as [->|Hne].
  - rewrite Hid in Ht0. injection Ht0 as ->.
    destruct Hnot; congruence.
  - exists t0. rewrite lookup_insert_ne by exact Hne. auto.
Qed.

Lemma waiters_ok_fresh ws (gs : gmap nat goroutine) id t' :
  waiters_ok ws gs -> gs !! id = None -> waiters_ok ws (<[id := t']> gs).
Proof.
  intros [Hnd Hw] Hid. split; [exact Hnd|].
  intros w Hin. destruct (Hw w Hin) as (t0 & Ht0 & Hrest).
  exists t0. rewrite lookup_insert_ne; [auto|]. intros ->. congruence.
Qed.

Lemma goroutines_ok_wake ids gs : goroutines_ok gs ->
  (forall id, id ∈ ids -> forall t, gs !! id = Some t -> g_at t = AcquireWaiting) ->
  goroutines_ok (wake ids gs).
Proof.
  intros H Hids id t' Ht'.
  destruct (wake_lookup_Some _ _ _ _ Ht') as (t & Ht & Hc & Hat & _ & Hp & Hr).
  destruct (H id t Ht) as (H1 & H2 & H3 & H4 & H5).
  rewrite Hc, Hat, Hp. repeat split; try assumption.
  intros Hb. destruct Hr as [->|[Hin _]]; [auto|].
  rewrite (Hids id Hin t Ht) in Hb. discriminate.
Qed.

(** The loop of [notifyWaiters] keeps the books: the tokens it hands out
    are held by the goroutines it wakes. *)
Lemma notify_loop_inv size ws : forall cur gs,
  0 <= cur <= size -> size <= int64.max ->
  cur = total holds_concurrent gs ->
  waiters_ok ws gs ->
  match semaphore.notify_loop size cur ws with
  | (cur', ws', closed) =>
      cur' = total holds_concurrent (wake closed gs) /\
      cur <= cur' <= size /\
      waiters_ok ws' (wake closed gs) /\
      (forall id, id ∈ closed -> id ∈ semaphore.w_ready <$> ws)
  end.
Proof.
  induction ws as [|w rest IH]; intros cur gs Hcur Hsize Htot Hok; simpl.
  - split; [exact Htot|]. split; [lia|]. split; [exact Hok|].
    intros id Hid; inversion Hid.
  - assert (Hsub : int64.sub size cur = size - cur).
    { apply wrap_in_range. unfold int64.in_range, int64.min, int64.max in *. lia. }
    rewrite Hsub.
    destruct (Z.ltb_spec (size - cur) (semaphore.w_n w)) as [Hlt|Hge].
    + split; [exact Htot|]. split; [lia|]. split; [exact Hok|].
      intros id Hid; inversion Hid.
    + destruct Hok as [Hnd Hw].
      destruct (Hw w ltac:(apply elem_of_cons; auto))
        as (t & Ht & Hat & Hr & Hc & Hn).
      assert (Hadd : int64.add cur (semaphore.w_n w) = cur + semaphore.w_n w).
      { apply wrap_in_range. unfold int64.in_range, int64.min, int64.max in *. lia. }
      rewrite Hadd.
      rewrite fmap_cons in Hnd. apply NoDup_cons in Hnd as [Hnotin Hnd].
      specialize (IH (cur + semaphore.w_n w)
                     (alter mark_ready (semaphore.w_ready w) gs)).
      destruct (semaphore.notify_loop size (cur + semaphore.w_n w) rest)
        as [[cur' ws'] closed].
      destruct IH as (H1 & H2 & H3 & H4).
      * lia.
      * exact Hsize.
      * rewrite (alter_as_insert _ _ _ _ Ht), (total_insert _ _ _ _ _ Ht).
        unfold holds_concurrent at 2 3. simpl. rewrite Hat, Hr. lia.
      * split; [exact Hnd|]. intros w' Hin'.
        destruct (Hw w' ltac:(apply elem_of_cons; auto)) as (t' & Ht' & Hrest).
        exists t'. rewrite lookup_alter_ne; [auto|].
        intros E. apply Hnotin. rewrite E. apply list_elem_of_fmap_2. exact Hin'.
      * rewrite wake_cons. split; [exact H1|]. split; [lia|]. split; [exact H3|].
        intros id Hid. change (id ∈ semaphore.w_ready w :: (semaphore.w_ready <$> rest)).
        apply elem_of_cons in Hid as [->|Hid]; apply elem_of_cons; auto.
Qed.

End notify_facts.

(** ** Keeping the books *)

Section books.

Lemma concurrent_range limit c gs :
  concurrent_ok limit c gs -> goroutines_ok gs -> 0 <= semaphore.cur c <= limit.
Proof.
  intros (_ & Hcur & Hle & _) Hgs. split; [|exact Hle].
  rewrite Hcur. apply total_nonneg. apply holds_concurrent_nonneg, Hgs.
Qed.

Lemma burst_range limit b gs :
  burst_ok limit b gs -> goroutines_ok gs -> 0 <= semaphore.cur b <= limit.
Proof.
  intros (_ & Hcur & Hle & _) Hgs. split; [|exact Hle].
  rewrite Hcur. apply total_nonneg. apply holds_burst_nonneg, Hgs.
Qed.

Lemma not_waiter ws (gs : gmap nat goroutine) id t :
  waiters_ok ws gs -> gs !! id = Some t ->
  (g_at t <> AcquireWaiting \/ g_ready t = true) ->
  id ∉ semaphore.w_ready <$> ws.
Proof.
  intros [_ Hw] Hid Hnot Hin.
  apply list_elem_of_fmap in Hin as (w & -> & Hin).
  destruct (Hw w Hin) as (t0 & Ht0 & Hat & Hr & _).
  rewrite Hid in Ht0. injection Ht0 as ->. destruct Hnot; congruence.
Qed.

(** The goroutine [id] moves on and the pool gains [delta]. *)
Lemma concurrent_ok_update limit c gs id t t' delta :
  concurrent_ok limit c gs -> gs !! id = Some t ->
  (g_at t <> AcquireWaiting \/ g_ready t = true) ->
  holds_concurrent t' = holds_concurrent t + delta ->
  semaphore.cur c + delta <= limit ->
  concurrent_ok limit
    {| semaphore.size := semaphore.size c;
       semaphore.cur := semaphore.cur c + delta;
       semaphore.waiters := semaphore.waiters c |}
    (<[id := t']> gs).
Proof.
  intros (Hs & Hcur & Hle & Hw) Hid Hnot Hh Hd. split; [exact Hs|]. simpl.
  split; [|split; [exact Hd|]].
  - rewrite (total_insert _ _ _ _ _ Hid), Hcur, Hh. lia.
  - eapply waiters_ok_insert; eassumption.
Qed.

Lemma concurrent_ok_move limit c gs id t t' :
  concurrent_ok limit c gs -> gs !! id = Some t ->
  (g_at t <> AcquireWaiting \/ g_ready t = true) ->
  holds_concurrent t' = holds_concurrent t ->
  concurrent_ok limit c (<[id := t']> gs).
Proof.
  intros (Hs & Hcur & Hle & Hw) Hid Hnot Hh. split; [exact Hs|].
  split; [|split; [exact Hle|]].
  - rewrite (total_insert _ _ _ _ _ Hid), Hcur, Hh. lia.
  - eapply waiters_ok_insert; eassumption.
Qed.

Lemma burst_ok_update limit b gs id t t' delta :
  burst_ok limit b gs -> gs !! id = Some t ->
  holds_burst t' = holds_burst t + delta ->
  semaphore.cur b + delta <= limit ->
  burst_ok limit
    {| semaphore.size := semaphore.size b;
       semaphore.cur := semaphore.cur b + delta;
       semaphore.waiters := semaphore.waiters b |}
    (<[id := t']> gs).
Proof.
  intros (Hs & Hcur & Hle & Hw) Hid Hh Hd. split; [exact Hs|]. simpl.
  split; [|split; [exact Hd | exact Hw]].
  rewrite (total_insert _ _ _ _ _ Hid), Hcur, Hh. lia.
Qed.

Lemma burst_ok_move limit b gs id t t' :
  burst_ok limit b gs -> gs !! id = Some t ->
  holds_burst t' = holds_burst t ->
  burst_ok limit b (<[id := t']> gs).
Proof.
  intros (Hs & Hcur & Hle & Hw) Hid Hh. split; [exact Hs|].
  split; [|split; [exact Hle | exact Hw]].
  rewrite (total_insert _ _ _ _ _ Hid), Hcur, Hh. lia.
Qed.

Lemma burst_ok_wake limit b gs ids :
  burst_ok limit b gs -> burst_ok limit b (wake ids gs).
Proof.
  intros (Hs & Hcur & Hle & Hw). split; [exact Hs|].
  split; [|split; [exact Hle | exact Hw]].
  rewrite total_wake_same; [exact Hcur | reflexivity].
Qed.

Lemma goroutines_ok_update (gs : gmap nat goroutine) id t t' :
  goroutines_ok gs -> gs !! id = Some t ->
  g_cost t' = g_cost t -> g_panicked t' = false ->
  g_at t' <> Unwinding Panicked -> g_at t' <> Finished Panicked ->
  (before_acquire (g_at t') = true -> g_ready t' = false) ->
  goroutines_ok (<[id := t']> gs).
Proof.
  intros Hgs Hid Hc Hp H1 H2 H3 j tj Hj.
  destruct (decide (id = j)) as [->|Hne].
  - rewrite lookup_insert_eq in Hj. injection Hj as <-.
    destruct (Hgs j t Hid) as (Hc0 & _). rewrite Hc. auto.
  - rewrite lookup_insert_ne in Hj by exact Hne. eauto.
Qed.

(** [notifyWaiters] on a pool whose books are in order. *)
Lemma notifyWaiters_ok limit c gs :
  limit <= int64.max ->
  concurrent_ok limit c gs -> goroutines_ok gs ->
  concurrent_ok limit (semaphore.notifyWaiters c).1
    (wake (semaphore.notifyWaiters c).2 gs) /\
  goroutines_ok (wake (semaphore.notifyWaiters c).2 gs).
Proof.
  intros Hmax Hc Hgs. pose proof (concurrent_range _ _ _ Hc Hgs) as Hr.
  destruct Hc as (Hs & Hcur & Hle & Hw).
  pose proof (notify_loop_inv (semaphore.size c) (semaphore.waiters c)
                (semaphore.cur c) gs) as H.
  unfold semaphore.notifyWaiters.
  destruct (semaphore.notify_loop _ _ _) as [[cur' ws'] closed]. simpl.
  destruct H as (H1 & H2 & H3 & H4); [lia | lia | exact Hcur | exact Hw |].
  split.
  - split; [exact Hs|]. simpl. split; [exact H1|]. split; [lia | exact H3].
  - apply goroutines_ok_wake; [exact Hgs|].
    intros id Hid t Ht. apply H4 in Hid.
    apply list_elem_of_fmap in Hid as (w & -> & Hin).
    destruct Hw as [_ Hw]. destruct (Hw w Hin) as (t0 & Ht0 & Hat & _).
    congruence.
Qed.

(** With no waiters, [notifyWaiters] does nothing. *)
Lemma notifyWaiters_no_waiters s :
  semaphore.waiters s = [] -> semaphore.notifyWaiters s = (s, []).
Proof.
  destruct s as [sz cu ws]. simpl. intros ->. reflexivity.
Qed.

Lemma sub_in_range a b :
  0 <= b <= a -> a <= int64.max -> int64.sub a b = a - b.
Proof.
  intros. apply wrap_in_range.
  unfold int64.in_range, int64.min, int64.max in *. lia.
Qed.

Lemma add_in_range a b limit :
  0 <= a -> 0 <= b -> a + b <= limit -> limit <= int64.max -> int64.add a b = a + b.
Proof.
  intros. apply wrap_in_range.
  unfold int64.in_range, int64.min, int64.max in *. lia.
Qed.

(** [TryAcquire] without wrap-around. *)
Lemma TryAcquire_spec s n :
  0 <= semaphore.cur s <= semaphore.size s -> semaphore.size s <= int64.max ->
  0 <= n ->
  semaphore.TryAcquire s n =
    if (n <=? semaphore.size s - semaphore.cur s)
       && (length (semaphore.waiters s) =? 0)%nat
    then ({| semaphore.size := semaphore.size s;
             semaphore.cur := semaphore.cur s + n;
             semaphore.waiters := semaphore.waiters s |}, true)
    else (s, false).
Proof.
  intros Hr Hmax Hn. unfold semaphore.TryAcquire.
  rewrite sub_in_range by lia.
  destruct (Z.leb_spec n (semaphore.size s - semaphore.cur s)); [|reflexivity].
  destruct (length (semaphore.waiters s) =? 0)%nat; [|reflexivity]. simpl.
  rewrite (add_in_range _ _ (semaphore.size s)) by lia. reflexivity.
Qed.

(** [Release] of weight that is held: no panic, no wrap-around. *)
Lemma Release_spec s n :
  0 <= n <= semaphore.cur s -> semaphore.cur s <= semaphore.size s ->
  semaphore.size s <= int64.max ->
  semaphore.Release s n =
    let s1 := {| semaphore.size := semaphore.size s;
                 semaphore.cur := semaphore.cur s - n;
                 semaphore.waiters := semaphore.waiters s |} in
    ((semaphore.notifyWaiters s1).1, (semaphore.notifyWaiters s1).2, false).
Proof.
  intros Hn Hr Hmax. unfold semaphore.Release. simpl.
  rewrite sub_in_range by lia.
  destruct (Z.ltb_spec (semaphore.cur s - n) 0); [lia|].
  destruct (semaphore.notifyWaiters _). reflexivity.
Qed.

End books.

(** Side conditions of a move of one goroutine. *)
Ltac side :=
  simpl; unfold holds_concurrent, holds_burst; simpl;
  match goal with
  | |- _ \/ _ => first [left; congruence | right; congruence]
  | |- _ => idtac
  end;
  repeat match goal with
  | H : g_at ?t = _ |- context [g_at ?t] => rewrite H
  | H : g_ready ?t = _ |- context [g_ready ?t] => rewrite H
  end;
  simpl; try first [reflexivity | discriminate | congruence | lia | tauto].

(** ** The transitions of the two-tier governor keep the invariant *)

Section governor_invariant.

Context (rev : semaphore.revision) (p : Params).
Hypothesis Hp : params_ok p.

Lemma concurrent_ok_set limit c c' gs id t t' delta :
  concurrent_ok limit c gs -> gs !! id = Some t ->
  (g_at t <> AcquireWaiting \/ g_ready t = true) ->
  holds_concurrent t' = holds_concurrent t + delta ->
  semaphore.size c' = semaphore.size c ->
  semaphore.cur c' = semaphore.cur c + delta ->
  semaphore.waiters c' = semaphore.waiters c ->
  semaphore.cur c + delta <= limit ->
  concurrent_ok limit c' (<[id := t']> gs).
Proof.
  intros Hc Hid Hnot Hh Hs Hcur Hw Hd.
  pose proof (concurrent_ok_update _ _ _ _ _ t' delta Hc Hid Hnot Hh Hd) as H.
  destruct c' as [sz cu ws]. simpl in *. subst. exact H.
Qed.

Lemma burst_ok_set limit b b' gs id t t' delta :
  burst_ok limit b gs -> gs !! id = Some t ->
  holds_burst t' = holds_burst t + delta ->
  semaphore.size b' = semaphore.size b ->
  semaphore.cur b' = semaphore.cur b + delta ->
  semaphore.waiters b' = semaphore.waiters b ->
  semaphore.cur b + delta <= limit ->
  burst_ok limit b' (<[id := t']> gs).
Proof.
  intros Hb Hid Hh Hs Hcur Hw Hd.
  pose proof (burst_ok_update _ _ _ _ _ t' delta Hb Hid Hh Hd) as H.
  destruct b' as [sz cu ws]. simpl in *. subst. exact H.
Qed.

(** A change that leaves position, [ready] flag and cost alone. *)
Lemma waiters_ok_same ws (gs : gmap nat goroutine) id t t' :
  waiters_ok ws gs -> gs !! id = Some t ->
  g_at t' = g_at t -> g_ready t' = g_ready t -> g_cost t' = g_cost t ->
  waiters_ok ws (<[id := t']> gs).
Proof.
  intros [Hnd Hw] Hid Hat Hr Hc. split; [exact Hnd|].
  intros w Hin. destruct (Hw w Hin) as (t0 & Ht0 & Hrest).
  destruct (decide (id = semaphore.w_ready w)) as [->|Hne].
  - rewrite Hid in Ht0. injection Ht0 as ->.
    exists t'. rewrite lookup_insert_eq, Hat, Hr, Hc. auto.
  - exists t0. rewrite lookup_insert_ne by exact Hne. auto.
Qed.

Lemma governor_arrive_inv g id req :
  governor_inv p g -> 0 <= cost_of p req ->
  governor_inv p (governor_step rev p g (Arrive id req)).
Proof.
  intros [Hc Hb Hgs] Hcost. simpl.
  destruct (goroutines g !! id) eqn:Hid; [split; assumption|].
  split; simpl.
  - destruct Hc as (Hs & Hcur & Hle & Hw). split; [exact Hs|].
    split; [|split; [exact Hle | apply waiters_ok_fresh; assumption]].
    rewrite total_insert_fresh by exact Hid. rewrite Hcur. reflexivity.
  - destruct Hb as (Hs & Hcur & Hle & Hw). split; [exact Hs|].
    split; [|split; assumption].
    rewrite total_insert_fresh by exact Hid. rewrite Hcur. reflexivity.
  - intros j tj Hj. destruct (decide (id = j)) as [->|Hne].
    + rewrite lookup_insert_eq in Hj. injection Hj as <-. simpl.
      repeat split; try assumption; discriminate.
    + rewrite lookup_insert_ne in Hj by exact Hne. eauto.
Qed.

Lemma governor_ctxdone_inv g id :
  governor_inv p g -> governor_inv p (governor_step rev p g (CtxDone id)).
Proof.
  intros [Hc Hb Hgs]. simpl.
  destruct (goroutines g !! id) as [t|] eqn:Hid.
  - rewrite (alter_as_insert _ _ _ _ Hid). split; simpl.
    + destruct Hc as (Hs & Hcur & Hle & Hw). split; [exact Hs|].
      split; [|split; [exact Hle | eapply waiters_ok_same; eauto]].
      rewrite (total_insert _ _ _ _ _ Hid), Hcur.
      unfold holds_concurrent. simpl. lia.
    + eapply burst_ok_move; eauto.
    + destruct (Hgs id t Hid) as (H1 & H2 & H3 & H4 & H5).
      eapply goroutines_ok_update; eauto.
  - rewrite alter_absent by exact Hid. split; assumption.
Qed.

(** A move of goroutine [id] that touches no pool. *)
Lemma governor_move_inv g id t t' :
  governor_inv p g -> goroutines g !! id = Some t ->
  (g_at t <> AcquireWaiting \/ g_ready t = true) ->
  holds_concurrent t' = holds_concurrent t ->
  holds_burst t' = holds_burst t ->
  g_cost t' = g_cost t -> g_panicked t' = false ->
  g_at t' <> Unwinding Panicked -> g_at t' <> Finished Panicked ->
  (before_acquire (g_at t') = true -> g_ready t' = false) ->
  governor_inv p
    {| concurrent := concurrent g; burst := burst g;
       goroutines := <[id := t']> (goroutines g) |}.
Proof.
  intros [Hc Hb Hgs] Hid Hnot Hhc Hhb Hcost Hpan H1 H2 H3. split; simpl.
  - eapply concurrent_ok_move; eassumption.
  - eapply burst_ok_move; eassumption.
  - eapply goroutines_ok_update; eassumption.
Qed.

(** Goroutine [id] gives back [n] of the concurrent pool, which then
    notifies its waiters. *)
Lemma governor_give_back_inv g id t t' n :
  governor_inv p g -> goroutines g !! id = Some t ->
  (g_at t <> AcquireWaiting \/ g_ready t = true) ->
  holds_concurrent t = n -> holds_concurrent t' = 0 ->
  holds_burst t' = holds_burst t ->
  g_cost t' = g_cost t -> g_panicked t' = false ->
  g_at t' <> Unwinding Panicked -> g_at t' <> Finished Panicked ->
  (before_acquire (g_at t') = true -> g_ready t' = false) ->
  let c1 := {| semaphore.size := semaphore.size (concurrent g);
               semaphore.cur := semaphore.cur (concurrent g) - n;
               semaphore.waiters := semaphore.waiters (concurrent g) |} in
  governor_inv p
    {| concurrent := (semaphore.notifyWaiters c1).1; burst := burst g;
       goroutines := wake (semaphore.notifyWaiters c1).2 (<[id := t']> (goroutines g)) |}.
Proof.
  intros [Hc Hb Hgs] Hid Hnot Hn Hhc Hhb Hcost Hpan H1 H2 H3 c1.
  destruct Hp as (Hp1 & Hp2 & Hp3).
  pose proof (concurrent_range _ _ _ Hc Hgs) as Hr.
  assert (Hn0 : 0 <= n).
  { rewrite <- Hn. exact (holds_concurrent_nonneg _ Hgs id t Hid). }
  assert (Hc1 : concurrent_ok (MaxConcurrency p) c1 (<[id := t']> (goroutines g))).
  { eapply (concurrent_ok_set _ _ c1 _ _ _ _ (- n)); try eassumption;
      try reflexivity; lia. }
  assert (Hgs1 : goroutines_ok (<[id := t']> (goroutines g))).
  { eapply goroutines_ok_update; eassumption. }
  destruct (notifyWaiters_ok _ _ _ Hp2 Hc1 Hgs1) as [Hc2 Hgs2].
  split; simpl; [exact Hc2 | | exact Hgs2].
  apply burst_ok_wake. eapply burst_ok_move; eassumption.
Qed.

Lemma held_concurrent_le g id t :
  governor_inv p g -> goroutines g !! id = Some t ->
  holds_concurrent t <= semaphore.cur (concurrent g).
Proof.
  intros [Hc Hb Hgs] Hid. destruct Hc as (_ & -> & _).
  apply (total_ge_one _ _ id); [apply holds_concurrent_nonneg, Hgs | exact Hid].
Qed.

Lemma held_burst_le g id t :
  governor_inv p g -> goroutines g !! id = Some t ->
  holds_burst t <= semaphore.cur (burst g).
Proof.
  intros [Hc Hb Hgs] Hid. destruct Hb as (_ & -> & _).
  apply (total_ge_one _ _ id); [apply holds_burst_nonneg, Hgs | exact Hid].
Qed.

Lemma governor_run_inv g id :
  governor_inv p g -> governor_inv p (governor_run rev p id g).
Proof.
  intros Hinv. pose proof Hinv as [Hc Hb Hgs].
  destruct Hp as (Hp1 & Hp2 & Hp3).
  unfold governor_run.
  destruct (goroutines g !! id) as [t|] eqn:Hid; [|exact Hinv].
  destruct (Hgs id t Hid) as (Hcost & Hpan & Hnu & Hnf & Hfresh).
  pose proof (concurrent_range _ _ _ Hc Hgs) as Hcr.
  pose proof (burst_range _ _ _ Hb Hgs) as Hbr.
  pose proof (held_concurrent_le g id t Hinv Hid) as Hhc.
  pose proof (held_burst_le g id t Hinv Hid) as Hhb.
  pose proof Hc as (Hcs & Hccur & _ & Hcw).
  pose proof Hb as (Hbs & Hbcur & _ & Hbw).
  destruct (g_at t) eqn:Hat; simpl in Hfresh.
  - (* Start *)
    destruct (Z.eqb_spec (g_cost t) 0) as [H0|H0].
    + eapply governor_move_inv; try eassumption; side.
    + rewrite TryAcquire_spec by lia. rewrite Hbw. simpl. rewrite andb_true_r.
      destruct (Z.leb_spec (g_cost t) (semaphore.size (burst g) - semaphore.cur (burst g))).
      * split; simpl.
        -- eapply concurrent_ok_move; try eassumption; side.
        -- eapply (burst_ok_set _ _ _ _ _ _ _ (g_cost t)); try eassumption; side.
        -- eapply goroutines_ok_update; try eassumption; side.
      * eapply governor_move_inv; try eassumption; side.
  - (* Bypass *)
    eapply governor_move_inv; try eassumption; side.
  - (* Denied *)
    eapply governor_move_inv; try eassumption; side.
  - (* BurstGranted *)
    rewrite TryAcquire_spec by lia.
    destruct (_ && _) eqn:E.
    + apply andb_true_iff in E as [E _]. apply Z.leb_le in E.
      split; simpl.
      * eapply (concurrent_ok_set _ _ _ _ _ _ _ (g_cost t)); try eassumption; side.
      * eapply burst_ok_move; try eassumption; side.
      * eapply goroutines_ok_update; try eassumption; side.
    + eapply governor_move_inv; try eassumption; side.
  - (* QueueEntered *)
    unfold semaphore.Acquire_enter.
    destruct (g_done t && _).
    { eapply governor_move_inv; try eassumption; side. }
    rewrite sub_in_range by lia.
    destruct (_ && _) eqn:E.
    { apply andb_true_iff in E as [E _]. apply Z.leb_le in E.
      rewrite (add_in_range _ _ (semaphore.size (concurrent g))) by lia.
      split; simpl.
      * eapply (concurrent_ok_set _ _ _ _ _ _ _ (g_cost t)); try eassumption; side.
      * eapply burst_ok_move; try eassumption; side.
      * eapply goroutines_ok_update; try eassumption; side. }
    destruct (semaphore.size (concurrent g) <? g_cost t).
    { eapply governor_move_inv; try eassumption; side. }
    split; simpl.
    + split; [exact Hcs|]. simpl. split; [|split; [lia|]].
      * rewrite (total_insert _ _ _ _ _ Hid), <- Hccur.
        unfold holds_concurrent. simpl. rewrite Hat, (Hfresh eq_refl). lia.
      * destruct Hcw as [Hnd Hw]. split.
        -- rewrite fmap_app. apply NoDup_app. split; [exact Hnd|].
           split; [|apply NoDup_singleton].
           intros x Hx Hx'. apply list_elem_of_singleton in Hx'. simpl in Hx'. subst x.
           revert Hx. eapply not_waiter; [split; eassumption | exact Hid |].
           left. congruence.
        -- intros w Hin. apply elem_of_app in Hin as [Hin|Hin].
           ++ destruct (Hw w Hin) as (t0 & Ht0 & Hrest).
              exists t0. rewrite lookup_insert_ne; [auto|].
              intros E'. rewrite <- E', Hid in Ht0. injection Ht0 as <-.
              destruct Hrest as (Hrest & _). congruence.
           ++ apply list_elem_of_singleton in Hin. subst w. simpl.
              eexists. rewrite lookup_insert_eq. split; [reflexivity|].
              simpl. auto.
    + eapply burst_ok_move; try eassumption; side.
    + eapply goroutines_ok_update; try eassumption; side.
  - (* AcquireDoomed *)
    exact Hinv.
  - (* AcquireWaiting *)
    destruct (g_ready t) eqn:Hr; [|exact Hinv].
    unfold holds_concurrent in Hhc. rewrite Hat, Hr in Hhc.
    unfold semaphore.Acquire_ready.
    destruct rev; try (eapply governor_move_inv; try eassumption; side).
    destruct (g_done t); [|eapply governor_move_inv; try eassumption; side].
    rewrite Release_spec by lia. cbv zeta.
    eapply governor_give_back_inv; try eassumption; side.
  - (* Serving *)
    unfold holds_concurrent in Hhc. rewrite Hat in Hhc.
    rewrite Release_spec by lia. cbv zeta.
    eapply governor_give_back_inv; try eassumption; side.
    destruct r; discriminate.
  - (* QueueFailed *)
    eapply governor_move_inv; try eassumption; side.
  - (* Unwinding *)
    unfold holds_burst in Hhb. rewrite Hat in Hhb.
    rewrite Release_spec by lia. cbv zeta.
    rewrite notifyWaiters_no_waiters by exact Hbw. simpl.
    split; simpl.
    + eapply concurrent_ok_move; try eassumption; side.
    + eapply (burst_ok_set _ _ _ _ _ _ _ (- g_cost t)); try eassumption; side.
    + eapply goroutines_ok_update; try eassumption; side.
  - (* Finished *)
    exact Hinv.
Qed.

Lemma remove_subset ws id x :
  x ∈ semaphore.w_ready <$> semaphore.remove ws id -> x ∈ semaphore.w_ready <$> ws.
Proof.
  intros H. apply list_elem_of_fmap in H as (w & -> & Hin).
  apply list_elem_of_filter in Hin as [_ Hin].
  apply list_elem_of_fmap_2. exact Hin.
Qed.

Lemma remove_NoDup ws id :
  NoDup (semaphore.w_ready <$> ws) ->
  NoDup (semaphore.w_ready <$> semaphore.remove ws id).
Proof.
  induction ws as [|w ws IH]; intros Hnd; [constructor|].
  rewrite fmap_cons in Hnd. apply NoDup_cons in Hnd as [Hnotin Hnd].
  unfold semaphore.remove in *. rewrite filter_cons.
  destruct (decide (semaphore.w_ready w <> id)); [|auto].
  rewrite fmap_cons. apply NoDup_cons. split; [|auto].
  intros H. apply Hnotin. eapply remove_subset. exact H.
Qed.

(** A waiter leaves the list without having been granted its weight. *)
Lemma concurrent_ok_remove limit c gs id t t' :
  concurrent_ok limit c gs -> gs !! id = Some t ->
  holds_concurrent t' = holds_concurrent t ->
  concurrent_ok limit
    {| semaphore.size := semaphore.size c; semaphore.cur := semaphore.cur c;
       semaphore.waiters := semaphore.remove (semaphore.waiters c) id |}
    (<[id := t']> gs).
Proof.
  intros (Hs & Hcur & Hle & [Hnd Hw]) Hid Hh. split; [exact Hs|]. simpl.
  split; [|split; [exact Hle|]].
  - rewrite (total_insert _ _ _ _ _ Hid), Hcur, Hh. lia.
  - split; [apply remove_NoDup, Hnd|].
    intros w Hin. apply list_elem_of_filter in Hin as [Hne Hin].
    destruct (Hw w Hin) as (t0 & Ht0 & Hrest).
    exists t0. rewrite lookup_insert_ne by congruence. auto.
Qed.

Lemma governor_abort_inv g id :
  governor_inv p g -> governor_inv p (governor_abort rev p id g).
Proof.
  intros Hinv. pose proof Hinv as [Hc Hb Hgs].
  destruct Hp as (Hp1 & Hp2 & Hp3).
  unfold governor_abort.
  destruct (goroutines g !! id) as [t|] eqn:Hid; [|exact Hinv].
  destruct (g_done t); [|exact Hinv].
  destruct (Hgs id t Hid) as (Hcost & Hpan & Hnu & Hnf & Hfresh).
  pose proof (concurrent_range _ _ _ Hc Hgs) as Hcr.
  pose proof (held_concurrent_le g id t Hinv Hid) as Hhc.
  pose proof Hc as (Hcs & Hccur & _ & Hcw).
  destruct (g_at t) eqn:Hat; try exact Hinv.
  - (* AcquireDoomed *)
    eapply governor_move_inv; try eassumption; side.
  - (* AcquireWaiting *)
    unfold semaphore.Acquire_cancel.
    destruct (g_ready t) eqn:Hr.
    + unfold holds_concurrent in Hhc. rewrite Hat, Hr in Hhc.
      destruct rev; simpl; try (eapply governor_move_inv; try eassumption; side).
      rewrite sub_in_range by lia.
      pose proof (governor_give_back_inv g id t (goto t QueueFailed (gauge_dec p))
                    (g_cost t) Hinv Hid) as H.
      cbv zeta in H.
      destruct (semaphore.notifyWaiters _) as [c' closed]. simpl in *.
      apply H; side.
    + assert (Hc1 : concurrent_ok (MaxConcurrency p)
                {| semaphore.size := semaphore.size (concurrent g);
                   semaphore.cur := semaphore.cur (concurrent g);
                   semaphore.waiters :=
                     semaphore.remove (semaphore.waiters (concurrent g)) id |}
                (<[id := goto t QueueFailed (gauge_dec p)]> (goroutines g))).
      { eapply concurrent_ok_remove; try eassumption; side. }
      assert (Hb1 : burst_ok (MaxBurst p) (burst g)
                (<[id := goto t QueueFailed (gauge_dec p)]> (goroutines g))).
      { eapply burst_ok_move; try eassumption; side. }
      assert (Hgs1 : goroutines_ok
                (<[id := goto t QueueFailed (gauge_dec p)]> (goroutines g))).
      { eapply goroutines_ok_update; try eassumption; side. }
      assert (Hplain : governor_inv p
                {| concurrent :=
                     {| semaphore.size := semaphore.size (concurrent g);
                        semaphore.cur := semaphore.cur (concurrent g);
                        semaphore.waiters :=
                          semaphore.remove (semaphore.waiters (concurrent g)) id |};
                   burst := burst g;
                   goroutines :=
                     wake [] (<[id := goto t QueueFailed (gauge_dec p)]> (goroutines g)) |}).
      { split; assumption. }
      destruct rev; simpl; try exact Hplain.
      * destruct (_ && _); [|exact Hplain].
        destruct (notifyWaiters_ok _ _ _ Hp2 Hc1 Hgs1) as [Hc2 Hgs2].
        destruct (semaphore.notifyWaiters _) as [c' closed]. simpl in *.
        split; simpl; [exact Hc2 | apply burst_ok_wake, Hb1 | exact Hgs2].
      * destruct (_ && _); [|exact Hplain].
        destruct (notifyWaiters_ok _ _ _ Hp2 Hc1 Hgs1) as [Hc2 Hgs2].
        destruct (semaphore.notifyWaiters _) as [c' closed]. simpl in *.
        split; simpl; [exact Hc2 | apply burst_ok_wake, Hb1 | exact Hgs2].
Qed.

Lemma governor_init_inv :
  MaxConcurrency p < MaxBurst p -> governor_inv p (governor_init p).
Proof.
  intros Hlt. destruct Hp as (Hp1 & Hp2 & Hp3). split; simpl.
  - split; [reflexivity|]. simpl. rewrite total_empty.
    split; [reflexivity|]. split; [lia | apply waiters_ok_nil].
  - split; [reflexivity|]. simpl. rewrite total_empty.
    split; [reflexivity|]. split; [lia | reflexivity].
  - intros id t Hid. rewrite lookup_empty in Hid. discriminate.
Qed.

Lemma governor_step_inv g e :
  governor_inv p g ->
  match e with Arrive _ req => 0 <= cost_of p req | _ => True end ->
  governor_inv p (governor_step rev p g e).
Proof.
  intros Hinv He. destruct e as [id req|id|id|id].
  - apply governor_arrive_inv; assumption.
  - apply governor_ctxdone_inv; assumption.
  - apply governor_run_inv; assumption.
  - apply governor_abort_inv; assumption.
Qed.

Lemma governor_steps_inv evs : forall g,
  governor_inv p g -> costs_nonneg p evs ->
  governor_inv p (fold_left (governor_step rev p) evs g).
Proof.
  induction evs as [|e evs IH]; intros g Hinv Hev; [exact Hinv|].
  apply Forall_cons in Hev as [He Hev]. simpl.
  apply IH; [|exact Hev]. apply governor_step_inv; assumption.
Qed.

(** ** What a transition does to the goroutines *)

Ltac shape l acts closed b :=
  right;
  match goal with H : goroutines _ !! _ = Some ?t |- _ => exists t, l, acts, closed, b end;
  split; [reflexivity|]; split; [|split; [reflexivity|]];
  [ repeat match goal with H : g_at _ = _ |- _ => rewrite H end;
    try (constructor; assumption)
  | unfold fits; intros [?|?] [?|[?|?]]; try congruence ].

Lemma governor_run_shape g id :
  governor_run rev p id g = g \/ moved p g (governor_run rev p id g) id.
Proof.
  unfold governor_run, moved.
  destruct (goroutines g !! id) as [t|] eqn:Hid; [|left; reflexivity].
  destruct (g_at t) eqn:Hat.
  - destruct (Z.eqb_spec (g_cost t) 0) as [H0|H0].
    + shape Bypass [Forward] (@nil nat) false. rewrite H0. constructor.
    + destruct (semaphore.TryAcquire (burst g) (g_cost t)) as [b [|]].
      * shape BurstGranted [Acquired Burst] (@nil nat) false.
      * shape Denied (@nil action) (@nil nat) false.
  - shape (Finished FreeBypass) (@nil action) (@nil nat) false.
  - shape (Finished BurstDenied) (overload p) (@nil nat) false.
  - unfold semaphore.TryAcquire.
    destruct (Z.leb_spec (g_cost t)
                (int64.sub (semaphore.size (concurrent g)) (semaphore.cur (concurrent g))));
      simpl.
    + destruct (length _ =? 0)%nat.
      * shape (Serving Immediate) [Acquired Concurrent; Forward] (@nil nat) false.
        left. assumption.
      * shape QueueEntered (gauge_inc p) (@nil nat) false.
    + shape QueueEntered (gauge_inc p) (@nil nat) false.
  - unfold semaphore.Acquire_enter.
    destruct (g_done t && _).
    { shape QueueFailed (gauge_dec p) (@nil nat) false. }
    destruct (Z.leb_spec (g_cost t)
                (int64.sub (semaphore.size (concurrent g)) (semaphore.cur (concurrent g))));
      simpl.
    + destruct (length _ =? 0)%nat.
      * shape (Serving Queued) (served p) (@nil nat) false. left. assumption.
      * destruct (Z.ltb_spec (semaphore.size (concurrent g)) (g_cost t)).
        -- shape AcquireDoomed (@nil action) (@nil nat) false.
        -- shape AcquireWaiting (@nil action) (@nil nat) false. right. lia.
    + destruct (Z.ltb_spec (semaphore.size (concurrent g)) (g_cost t)).
      * shape AcquireDoomed (@nil action) (@nil nat) false.
      * shape AcquireWaiting (@nil action) (@nil nat) false. right. lia.
  - left. reflexivity.
  - destruct (g_ready t); [|left; reflexivity].
    destruct (semaphore.Acquire_ready rev (concurrent g) (g_done t) (g_cost t))
      as [[[c closed] [|]]|].
    + shape (Unwinding Panicked) (gauge_dec p) closed true.
    + shape QueueFailed (gauge_dec p) closed false.
    + shape (Serving Queued) (served p) (@nil nat) false.
  - destruct (semaphore.Release (concurrent g) (g_cost t)) as [[c closed] panic].
    shape (Unwinding (admitted r)) [Released Concurrent] closed panic.
  - shape (Unwinding TimedOut) (overload p) (@nil nat) false.
  - destruct (semaphore.Release (burst g) (g_cost t)) as [[b closed] panic].
    shape (Finished o) [Released Burst] closed panic.
  - left. reflexivity.
Qed.

Lemma governor_abort_shape g id :
  governor_abort rev p id g = g \/ moved p g (governor_abort rev p id g) id.
Proof.
  unfold governor_abort, moved.
  destruct (goroutines g !! id) as [t|] eqn:Hid; [|left; reflexivity].
  destruct (g_done t); [|left; reflexivity].
  destruct (g_at t) eqn:Hat; try (left; reflexivity).
  - shape QueueFailed (gauge_dec p) (@nil nat) false.
  - destruct (semaphore.Acquire_cancel rev (concurrent g) (g_ready t) id (g_cost t))
      as [[c closed] [|]].
    + shape (Serving Queued) (served p) closed false.
    + shape QueueFailed (gauge_dec p) closed false.
Qed.

Lemma evolves_refl mv t : evolves mv t t.
Proof. split; [reflexivity|]. left. split; reflexivity. Qed.

(** The goroutines after a move of [id]. *)
Lemma moved_evolves g g' id0 id t' :
  moved p g g' id0 -> goroutines g' !! id = Some t' ->
  exists t, goroutines g !! id = Some t /\ evolves (move p) t t' /\
    (id <> id0 -> g_at t' = g_at t).
Proof.
  intros (t0 & l & acts & closed & b & Ht0 & Hmv & -> & _) Ht'.
  apply wake_lookup_Some in Ht' as (t1 & Ht1 & Hc & Hat & Htr & _).
  destruct (decide (id0 = id)) as [->|Hne].
  - rewrite lookup_insert_eq in Ht1. injection Ht1 as <-.
    exists t0. split; [exact Ht0|]. split; [|congruence].
    split; [rewrite Hc; reflexivity|]. right. exists acts.
    rewrite Hat, Htr. simpl. split; [exact Hmv | reflexivity].
  - rewrite lookup_insert_ne in Ht1 by exact Hne.
    exists t1. split; [exact Ht1|]. split; [|intros _; exact Hat].
    split; [exact Hc|]. left. split; assumption.
Qed.

Lemma governor_step_evolves g e id t' :
  goroutines (governor_step rev p g e) !! id = Some t' ->
  (goroutines g !! id = None /\
   exists req, e = Arrive id req /\ t' = spawn (cost_of p req)) \/
  (exists t, goroutines g !! id = Some t /\ evolves (move p) t t').
Proof.
  destruct e as [id0 req|id0|id0|id0]; simpl.
  - destruct (goroutines g !! id0) eqn:Hid0.
    + intros H. right. exists t'. split; [exact H | apply evolves_refl].
    + simpl. destruct (decide (id0 = id)) as [->|Hne].
      * rewrite lookup_insert_eq. intros [= <-]. left. eauto.
      * rewrite lookup_insert_ne by exact Hne.
        intros H. right. exists t'. split; [exact H | apply evolves_refl].
  - destruct (decide (id0 = id)) as [->|Hne].
    + rewrite lookup_alter_eq. destruct (goroutines g !! id) as [t|]; [|discriminate].
      simpl. intros [= <-]. right. exists t. split; [reflexivity|].
      split; [reflexivity|]. left. split; reflexivity.
    + rewrite lookup_alter_ne by exact Hne.
      intros H. right. exists t'. split; [exact H | apply evolves_refl].
  - destruct (governor_run_shape g id0) as [->|Hm].
    + intros H. right. exists t'. split; [exact H | apply evolves_refl].
    + intros H. right. destruct (moved_evolves _ _ _ _ _ Hm H) as (t & ? & ? & _).
      eauto.
  - destruct (governor_abort_shape g id0) as [->|Hm].
    + intros H. right. exists t'. split; [exact H | apply evolves_refl].
    + intros H. right. destruct (moved_evolves _ _ _ _ _ Hm H) as (t & ? & ? & _).
      eauto.
Qed.

(** A property of single goroutines that moves preserve holds
    throughout every run. *)
Lemma governor_local_inv (P : goroutine -> Prop) :
  (forall cost, P (spawn cost)) ->
  (forall t t', evolves (move p) t t' -> P t -> P t') ->
  forall evs g,
    (forall id t, goroutines g !! id = Some t -> P t) ->
    forall id t,
      goroutines (fold_left (governor_step rev p) evs g) !! id = Some t -> P t.
Proof.
  intros Hspawn Hev evs. induction evs as [|e evs IH]; intros g Hg; [exact Hg|].
  simpl. apply IH. intros id t' Ht'.
  apply governor_step_evolves in Ht' as [(_ & req & _ & ->)|(t & Ht & He)].
  - apply Hspawn.
  - eapply Hev; eauto.
Qed.

End governor_invariant.

(** ** Thread-local invariants of the two-tier governor *)

Lemma move_local p l cost l' acts :
  move p l cost l' acts ->
  l <> Unwinding FreeBypass -> l <> Unwinding BurstDenied ->
  (cost = 0 -> l = Start \/ l = Bypass \/ l = Finished FreeBypass) ->
  (l = Bypass \/ l = Finished FreeBypass -> cost = 0) ->
  trace_at p l' = (trace_at p l ++ acts)%list /\
  l' <> Unwinding FreeBypass /\ l' <> Unwinding BurstDenied /\
  (cost = 0 -> l' = Start \/ l' = Bypass \/ l' = Finished FreeBypass) /\
  (l' = Bypass \/ l' = Finished FreeBypass -> cost = 0).
Proof.
  destruct 1; intros H1 H2 H3 H4;
    try match goal with r : route |- _ => destruct r end;
    try match goal with o : outcome |- _ => destruct o end;
    try congruence;
    (split; [simpl; rewrite ?app_nil_r, <- ?app_assoc; reflexivity|]);
    (split; [discriminate|]); (split; [discriminate|]);
    (split; [intros H0; try congruence; auto;
             destruct (H3 H0) as [?|[?|?]]; discriminate|]);
    intros [?|?]; try discriminate; auto.
Qed.

Lemma local_ok_spawn p cost : local_ok p (spawn cost).
Proof.
  unfold local_ok. simpl. repeat split; try discriminate; auto.
  intros [?|?]; discriminate.
Qed.

Lemma local_ok_evolves p t t' :
  evolves (move p) t t' -> local_ok p t -> local_ok p t'.
Proof.
  intros (Hc & [[Hat Htr]|(acts & Hmv & Htr)]) (Ht & H1 & H2 & H3 & H4).
  - unfold local_ok. rewrite Hat, Htr, Hc. auto.
  - destruct (move_local _ _ _ _ _ Hmv H1 H2 H3 H4) as (E & ? & ? & ? & ?).
    unfold local_ok. rewrite Htr, Ht, Hc, E. auto.
Qed.

(** ** Runs of the two-tier governor *)

Section two_tier_runs.

Context (rev : semaphore.revision) (p : Params).

Lemma serve_two_tier evs : forall g,
  fold_left (serve rev p) evs (TwoTier g)
  = TwoTier (fold_left (governor_step rev p) evs g).
Proof. induction evs as [|e evs IH]; intros g; [reflexivity | apply IH]. Qed.

Lemma run_two_tier evs :
  MaxConcurrency p <> 0 -> MaxConcurrency p < MaxBurst p ->
  run rev p evs = TwoTier (fold_left (governor_step rev p) evs (governor_init p)).
Proof.
  intros H0 Hlt. unfold run, New.
  destruct (Z.eqb_spec (MaxConcurrency p) 0); [contradiction|].
  destruct (Z.leb_spec (MaxBurst p) (MaxConcurrency p)); [lia|].
  apply serve_two_tier.
Qed.

Lemma two_tier_local_ok evs id t :
  goroutines (fold_left (governor_step rev p) evs (governor_init p)) !! id = Some t ->
  local_ok p t.
Proof.
  apply (governor_local_inv rev p (local_ok p)).
  - apply local_ok_spawn.
  - apply local_ok_evolves.
  - intros i t0 H. simpl in H. rewrite lookup_empty in H. discriminate.
Qed.

End two_tier_runs.

(** Claim C1.  In the two-tier form, whatever requests arrive and however
    the goroutines serving them interleave, in every state reached the
    costs of the requests in the wrapped handler sum to at most
    [MaxConcurrency], and together with the costs of the requests in
    the queue to at most [MaxBurst].  (Costs are at least 0, as the
    estimator contract has it, and the limits are int64 values.) *)
Theorem two_tier_cost_bounds
  (rev : semaphore.revision) (p : Params) (evs : list event) :
  params_ok p ->
  MaxConcurrency p < MaxBurst p ->
  costs_nonneg p evs ->
  exists g, run rev p evs = TwoTier g /\
    total in_flight (goroutines g) <= MaxConcurrency p /\
    total in_flight (goroutines g) + total queued (goroutines g) <= MaxBurst p.
Proof.
  intros Hp Hlt Hev. pose proof Hp as (Hp1 & _).
  exists (fold_left (governor_step rev p) evs (governor_init p)).
  split; [apply run_two_tier; lia|].
  set (g := fold_left (governor_step rev p) evs (governor_init p)).
  assert (Hinv : governor_inv p g).
  { apply governor_steps_inv; [exact Hp | apply governor_init_inv; assumption | exact Hev]. }
  destruct Hinv as [(_ & Hccur & Hcle & _) (_ & Hbcur & Hble & _) Hgs].
  assert (Hlocal : forall id t, goroutines g !! id = Some t -> local_ok p t).
  { intros id t. apply two_tier_local_ok. }
  split.
  - rewrite Hccur in Hcle. etransitivity; [|exact Hcle].
    apply total_le. intros id t Ht.
    destruct (Hgs id t Ht) as (Hc & _).
    destruct (Hlocal id t Ht) as (_ & _ & _ & _ & Hb).
    unfold in_flight, holds_concurrent.
    destruct (g_at t) eqn:E; try lia.
    + assert (g_cost t = 0) by (apply Hb; auto). lia.
    + destruct (g_ready t); lia.
  - rewrite <- total_plus. rewrite Hbcur in Hble. etransitivity; [|exact Hble].
    apply total_le. intros id t Ht.
    destruct (Hgs id t Ht) as (Hc & _).
    destruct (Hlocal id t Ht) as (_ & _ & _ & _ & Hb).
    unfold in_flight, queued, holds_burst.
    destruct (g_at t) eqn:E; try lia.
    assert (g_cost t = 0) by (apply Hb; auto). lia.
Qed.

(** The queueing scenario of the tests: one request in the handler, one
    queued, one turned away; then the first completes. *)
Definition slash_request : Request := mkRequest "example.com" "/".

Definition queueing_params : Params :=
  {| MaxConcurrency := 1; MaxBurst := 2; CostEstimatorOf := None;
     RequestOverloadCounter := true; QueueLengthGauge := true;
     QueueDurationObserver := true |}.

Definition queueing_scenario : list event :=
  [Arrive 1 slash_request; Run 1; Run 1;
   Arrive 2 slash_request; Run 2; Run 2; Run 2;
   Arrive 3 slash_request; Run 3; Run 3;
   Run 1; Run 2].

Lemma queueing_params_ok : params_ok queueing_params.
Proof. unfold params_ok, int64.max. simpl. lia. Qed.

Lemma queueing_scenario_nonneg : costs_nonneg queueing_params queueing_scenario.
Proof.
  unfold costs_nonneg, queueing_scenario.
  repeat (constructor; [first [exact I | unfold cost_of; simpl; lia]|]).
  constructor.
Qed.

Lemma two_tier_cost_bounds_witness :
  params_ok queueing_params /\
  MaxConcurrency queueing_params < MaxBurst queueing_params /\
  costs_nonneg queueing_params queueing_scenario /\
  exists g, run semaphore.CheckContext queueing_params queueing_scenario = TwoTier g /\
    total in_flight (goroutines g) <= MaxConcurrency queueing_params /\
    total in_flight (goroutines g) + total queued (goroutines g)
      <= MaxBurst queueing_params.
Proof.
  split; [exact queueing_params_ok|]. split; [simpl; lia|].
  split; [exact queueing_scenario_nonneg|].
  apply (two_tier_cost_bounds semaphore.CheckContext queueing_params queueing_scenario).
  - exact queueing_params_ok.
  - simpl; lia.
  - exact queueing_scenario_nonneg.
Defined.

(** ** The single-tier governor *)

Section simple_invariant.

Context (p : Params).
Hypothesis Hp : params_ok p.

Lemma simple_no_waiters limit c gs :
  concurrent_ok limit c gs ->
  (forall id t, gs !! id = Some t -> simple_pc (g_at t) = true) ->
  semaphore.waiters c = [].
Proof.
  intros (_ & _ & _ & [_ Hw]) Hat.
  destruct (semaphore.waiters c) as [|w ws]; [reflexivity|].
  destruct (Hw w ltac:(apply elem_of_cons; auto)) as (t & Ht & Hw' & _).
  specialize (Hat _ _ Ht). rewrite Hw' in Hat. discriminate.
Qed.

Lemma simple_pc_insert (gs : gmap nat goroutine) id t' :
  (forall i t, gs !! i = Some t -> simple_pc (g_at t) = true) ->
  simple_pc (g_at t') = true ->
  forall i t, <[id := t']> gs !! i = Some t -> simple_pc (g_at t) = true.
Proof.
  intros H Ht' i t Hi. destruct (decide (id = i)) as [->|Hne].
  - rewrite lookup_insert_eq in Hi. injection Hi as <-. exact Ht'.
  - rewrite lookup_insert_ne in Hi by exact Hne. eauto.
Qed.

Lemma simple_run_inv g id : simple_inv p g -> simple_inv p (simple_run p id g).
Proof.
  intros Hinv. pose proof Hinv as [Hc Hgs Hpc].
  destruct Hp as (Hp1 & Hp2 & Hp3).
  unfold simple_run.
  destruct (s_goroutines g !! id) as [t|] eqn:Hid; [|exact Hinv].
  destruct (Hgs id t Hid) as (Hcost & Hpan & Hnu & Hnf & Hfresh).
  pose proof (concurrent_range _ _ _ Hc Hgs) as Hcr.
  pose proof (simple_no_waiters _ _ _ Hc Hpc) as Hw.
  pose proof (Hpc id t Hid) as Hsp.
  pose proof Hc as (Hcs & Hccur & _ & _).
  assert (Hhc : holds_concurrent t <= semaphore.cur (sem g)).
  { rewrite Hccur. apply (total_ge_one _ _ id);
      [apply holds_concurrent_nonneg, Hgs | exact Hid]. }
  destruct (g_at t) eqn:Hat; simpl in Hfresh; try exact Hinv.
  - destruct (Z.eqb_spec (g_cost t) 0) as [H0|H0].
    + split; simpl.
      * eapply concurrent_ok_move; try eassumption; side.
      * eapply goroutines_ok_update; try eassumption; side.
      * apply simple_pc_insert; [exact Hpc | reflexivity].
    + rewrite TryAcquire_spec by lia. rewrite Hw. simpl. rewrite andb_true_r.
      destruct (Z.leb_spec (g_cost t) (semaphore.size (sem g) - semaphore.cur (sem g))).
      * split; simpl.
        -- eapply (concurrent_ok_set _ _ _ _ _ _ _ (g_cost t)); try eassumption; side.
        -- eapply goroutines_ok_update; try eassumption; side.
        -- apply simple_pc_insert; [exact Hpc | reflexivity].
      * split; simpl.
        -- eapply concurrent_ok_move; try eassumption; side.
        -- eapply goroutines_ok_update; try eassumption; side.
        -- apply simple_pc_insert; [exact Hpc | reflexivity].
  - split; simpl.
    + eapply concurrent_ok_move; try eassumption; side.
    + eapply goroutines_ok_update; try eassumption; side.
    + apply simple_pc_insert; [exact Hpc | reflexivity].
  - split; simpl.
    + eapply concurrent_ok_move; try eassumption; side.
    + eapply goroutines_ok_update; try eassumption; side.
    + apply simple_pc_insert; [exact Hpc | reflexivity].
  - unfold holds_concurrent in Hhc. rewrite Hat in Hhc.
    rewrite Release_spec by lia. cbv zeta.
    rewrite notifyWaiters_no_waiters by exact Hw. simpl.
    destruct r; [|discriminate].
    split; simpl.
    + eapply (concurrent_ok_set _ _ _ _ _ _ _ (- g_cost t)); try eassumption; side.
    + eapply goroutines_ok_update; try eassumption; side.
    + apply simple_pc_insert; [exact Hpc | reflexivity].
Qed.

Lemma simple_step_inv g e :
  simple_inv p g ->
  match e with Arrive _ req => 0 <= cost_of p req | _ => True end ->
  simple_inv p (simple_step p g e).
Proof.
  intros Hinv He. pose proof Hinv as [Hc Hgs Hpc].
  destruct e as [id req|id|id|id]; simpl.
  - destruct (s_goroutines g !! id) eqn:Hid; [exact Hinv|].
    split; simpl.
    + destruct Hc as (Hs & Hcur & Hle & Hw). split; [exact Hs|].
      split; [|split; [exact Hle | apply waiters_ok_fresh; assumption]].
      rewrite total_insert_fresh by exact Hid. rewrite Hcur. reflexivity.
    + intros j tj Hj. destruct (decide (id = j)) as [->|Hne].
      * rewrite lookup_insert_eq in Hj. injection Hj as <-. simpl.
        repeat split; try assumption; discriminate.
      * rewrite lookup_insert_ne in Hj by exact Hne. eauto.
    + apply simple_pc_insert; [exact Hpc | reflexivity].
  - destruct (s_goroutines g !! id) as [t|] eqn:Hid.
    + rewrite (alter_as_insert _ _ _ _ Hid). split; simpl.
      * destruct Hc as (Hs & Hcur & Hle & Hw). split; [exact Hs|].
        split; [|split; [exact Hle | eapply waiters_ok_same; eauto]].
        rewrite (total_insert _ _ _ _ _ Hid), Hcur.
        unfold holds_concurrent. simpl. lia.
      * destruct (Hgs id t Hid) as (H1 & H2 & H3 & H4 & H5).
        eapply goroutines_ok_update; eauto.
      * apply simple_pc_insert; [exact Hpc | exact (Hpc id t Hid)].
    + rewrite alter_absent by exact Hid. split; assumption.
  - apply simple_run_inv. exact Hinv.
  - exact Hinv.
Qed.

Lemma simple_init_inv : simple_inv p (simple_init p).
Proof.
  destruct Hp as (Hp1 & Hp2 & Hp3). split; simpl.
  - split; [reflexivity|]. simpl. rewrite total_empty.
    split; [reflexivity|]. split; [lia | apply waiters_ok_nil].
  - intros id t Hid. rewrite lookup_empty in Hid. discriminate.
  - intros id t Hid. rewrite lookup_empty in Hid. discriminate.
Qed.

Lemma simple_steps_inv evs : forall g,
  simple_inv p g -> costs_nonneg p evs ->
  simple_inv p (fold_left (simple_step p) evs g).
Proof.
  induction evs as [|e evs IH]; intros g Hinv Hev; [exact Hinv|].
  apply Forall_cons in Hev as [He Hev]. simpl.
  apply IH; [|exact Hev]. apply simple_step_inv; assumption.
Qed.

Ltac sshape l acts closed b :=
  right;
  match goal with H : s_goroutines _ !! _ = Some ?t |- _ => exists t, l, acts, closed, b end;
  split; [reflexivity|]; split; [|split; [reflexivity|]];
  [ repeat match goal with H : g_at _ = _ |- _ => rewrite H end;
    try (constructor; assumption)
  | unfold simple_fits; intros ?; try congruence ].

Lemma simple_run_shape g id :
  simple_run p id g = g \/ simple_moved p g (simple_run p id g) id.
Proof.
  unfold simple_run, simple_moved.
  destruct (s_goroutines g !! id) as [t|] eqn:Hid; [|left; reflexivity].
  destruct (g_at t) eqn:Hat; try (left; reflexivity).
  - destruct (Z.eqb_spec (g_cost t) 0) as [H0|H0].
    + sshape Bypass [Forward] (@nil nat) false. rewrite H0. constructor.
    + unfold semaphore.TryAcquire.
      destruct (Z.leb_spec (g_cost t)
                  (int64.sub (semaphore.size (sem g)) (semaphore.cur (sem g))));
        simpl.
      * destruct (length _ =? 0)%nat.
        -- sshape (Serving Immediate) [Acquired Sem; Forward] (@nil nat) false.
        -- sshape Denied (@nil action) (@nil nat) false.
      * sshape Denied (@nil action) (@nil nat) false.
  - sshape (Finished FreeBypass) (@nil action) (@nil nat) false.
  - sshape (Finished BurstDenied) (overload p) (@nil nat) false.
  - destruct (semaphore.Release (sem g) (g_cost t)) as [[c closed] panic].
    sshape (Finished (admitted r)) [Released Sem] closed panic.
Qed.

Lemma simple_moved_evolves g g' id0 id t' :
  simple_moved p g g' id0 -> s_goroutines g' !! id = Some t' ->
  exists t, s_goroutines g !! id = Some t /\ evolves (simple_move p) t t'.
Proof.
  intros (t0 & l & acts & closed & b & Ht0 & Hmv & -> & _) Ht'.
  apply wake_lookup_Some in Ht' as (t1 & Ht1 & Hc & Hat & Htr & _).
  destruct (decide (id0 = id)) as [->|Hne].
  - rewrite lookup_insert_eq in Ht1. injection Ht1 as <-.
    exists t0. split; [exact Ht0|].
    split; [rewrite Hc; reflexivity|]. right. exists acts.
    rewrite Hat, Htr. simpl. split; [exact Hmv | reflexivity].
  - rewrite lookup_insert_ne in Ht1 by exact Hne.
    exists t1. split; [exact Ht1|].
    split; [exact Hc|]. left. split; assumption.
Qed.

Lemma simple_step_evolves g e id t' :
  s_goroutines (simple_step p g e) !! id = Some t' ->
  (s_goroutines g !! id = None /\
   exists req, e = Arrive id req /\ t' = spawn (cost_of p req)) \/
  (exists t, s_goroutines g !! id = Some t /\ evolves (simple_move p) t t').
Proof.
  destruct e as [id0 req|id0|id0|id0]; simpl.
  - destruct (s_goroutines g !! id0) eqn:Hid0.
    + intros H. right. exists t'. split; [exact H | apply evolves_refl].
    + simpl. destruct (decide (id0 = id)) as [->|Hne].
      * rewrite lookup_insert_eq. intros [= <-]. left. eauto.
      * rewrite lookup_insert_ne by exact Hne.
        intros H. right. exists t'. split; [exact H | apply evolves_refl].
  - destruct (decide (id0 = id)) as [->|Hne].
    + rewrite lookup_alter_eq. destruct (s_goroutines g !! id) as [t|]; [|discriminate].
      simpl. intros [= <-]. right. exists t. split; [reflexivity|].
      split; [reflexivity|]. left. split; reflexivity.
    + rewrite lookup_alter_ne by exact Hne.
      intros H. right. exists t'. split; [exact H | apply evolves_refl].
  - destruct (simple_run_shape g id0) as [->|Hm].
    + intros H. right. exists t'. split; [exact H | apply evolves_refl].
    + intros H. right. eapply simple_moved_evolves; eassumption.
  - intros H. right. exists t'. split; [exact H | apply evolves_refl].
Qed.

Lemma simple_local_inv (P : goroutine -> Prop) :
  (forall cost, P (spawn cost)) ->
  (forall t t', evolves (simple_move p) t t' -> P t -> P t') ->
  forall evs g,
    (forall id t, s_goroutines g !! id = Some t -> P t) ->
    forall id t,
      s_goroutines (fold_left (simple_step p) evs g) !! id = Some t -> P t.
Proof.
  intros Hspawn Hev evs. induction evs as [|e evs IH]; intros g Hg; [exact Hg|].
  simpl. apply IH. intros id t' Ht'.
  apply simple_step_evolves in Ht' as [(_ & req & _ & ->)|(t & Ht & He)].
  - apply Hspawn.
  - eapply Hev; eauto.
Qed.

Lemma simple_move_local l cost l' acts :
  simple_move p l cost l' acts ->
  simple_pc l = true ->
  (cost = 0 -> l = Start \/ l = Bypass \/ l = Finished FreeBypass) ->
  (l = Bypass \/ l = Finished FreeBypass -> cost = 0) ->
  simple_trace_at p l' = (simple_trace_at p l ++ acts)%list /\
  simple_pc l' = true /\
  (cost = 0 -> l' = Start \/ l' = Bypass \/ l' = Finished FreeBypass) /\
  (l' = Bypass \/ l' = Finished FreeBypass -> cost = 0).
Proof.
  destruct 1; intros H1 H3 H4;
    try match goal with r : route |- _ => destruct r end;
    try discriminate;
    (split; [reflexivity|]); (split; [reflexivity|]);
    (split; [intros H0; try congruence; auto;
             destruct (H3 H0) as [?|[?|?]]; discriminate|]);
    intros [?|?]; try discriminate; auto.
Qed.

Lemma simple_local_ok_evolves t t' :
  evolves (simple_move p) t t' -> simple_local_ok p t -> simple_local_ok p t'.
Proof.
  intros (Hc & [[Hat Htr]|(acts & Hmv & Htr)]) (Ht & H1 & H3 & H4).
  - unfold simple_local_ok. rewrite Hat, Htr, Hc. auto.
  - destruct (simple_move_local _ _ _ _ Hmv H1 H3 H4) as (E & ? & ? & ?).
    unfold simple_local_ok. rewrite Htr, Ht, Hc, E. auto.
Qed.

Lemma serve_single_tier rev evs : forall g,
  fold_left (serve rev p) evs (SingleTier g)
  = SingleTier (fold_left (simple_step p) evs g).
Proof. induction evs as [|e evs IH]; intros g; [reflexivity | apply IH]. Qed.

Lemma run_single_tier rev evs :
  MaxConcurrency p <> 0 -> MaxBurst p <= MaxConcurrency p ->
  run rev p evs = SingleTier (fold_left (simple_step p) evs (simple_init p)).
Proof.
  intros H0 Hle. unfold run, New.
  destruct (Z.eqb_spec (MaxConcurrency p) 0); [contradiction|].
  destruct (Z.leb_spec (MaxBurst p) (MaxConcurrency p)); [|lia].
  apply serve_single_tier.
Qed.

Lemma single_tier_local_ok evs id t :
  s_goroutines (fold_left (simple_step p) evs (simple_init p)) !! id = Some t ->
  simple_local_ok p t.
Proof.
  apply (simple_local_inv (simple_local_ok p)).
  - intros cost. unfold simple_local_ok. simpl.
    repeat split; auto. intros [?|?]; discriminate.
  - apply simple_local_ok_evolves.
  - intros i t0 H. simpl in H. rewrite lookup_empty in H. discriminate.
Qed.

End simple_invariant.

(** ** Which form [New] selects *)

Lemma serve_pass_through rev p evs :
  fold_left (serve rev p) evs PassThrough = PassThrough.
Proof. induction evs as [|e evs IH]; [reflexivity | exact IH]. Qed.

Lemma run_cases rev p evs :
  (MaxConcurrency p = 0 /\ run rev p evs = PassThrough) \/
  (MaxConcurrency p <> 0 /\ MaxBurst p <= MaxConcurrency p /\
   run rev p evs = SingleTier (fold_left (simple_step p) evs (simple_init p))) \/
  (MaxConcurrency p <> 0 /\ MaxConcurrency p < MaxBurst p /\
   run rev p evs = TwoTier (fold_left (governor_step rev p) evs (governor_init p))).
Proof.
  destruct (Z.eq_dec (MaxConcurrency p) 0) as [H0|H0].
  - left. split; [exact H0|]. unfold run, New. rewrite H0. simpl.
    apply serve_pass_through.
  - right. destruct (Z.le_gt_cases (MaxBurst p) (MaxConcurrency p)).
    + left. split; [exact H0|]. split; [assumption|].
      apply run_single_tier; assumption.
    + right. split; [exact H0|]. split; [lia|].
      apply run_two_tier; [exact H0 | lia].
Qed.

(** ** Requests of cost 0 *)




(** A free path next to the root path, as in the tests. *)
Definition free_request : Request := mkRequest "example.com" "/free".

Definition free_params : Params :=
  {| MaxConcurrency := 1; MaxBurst := 2;
     CostEstimatorOf := Some (estimate (<["/free" := 0]> ∅ : gmap string Z));
     RequestOverloadCounter := true; QueueLengthGauge := true;
     QueueDurationObserver := true |}.

(** One request in the handler, one in the queue: both pools are full
    when the free request arrives. *)
Definition saturated_then_free : list event :=
  [Arrive 1 slash_request; Run 1; Run 1;
   Arrive 2 slash_request; Run 2; Run 2; Run 2;
   Arrive 4 free_request].


Example free_request_when_saturated :
  exists g, run semaphore.CheckContext free_params saturated_then_free = TwoTier g /\
    semaphore.cur (concurrent g) = MaxConcurrency free_params /\
    semaphore.cur (burst g) = MaxBurst free_params /\
    length (semaphore.waiters (concurrent g)) = 1%nat /\
    goroutines g !! 4%nat = Some (spawn 0) /\
    let g' := governor_step semaphore.CheckContext free_params g (Run 4) in
    concurrent g' = concurrent g /\ burst g' = burst g /\
    (g_at <$> goroutines g' !! 4%nat) = Some Bypass /\
    (g_trace <$> goroutines g' !! 4%nat) = Some [Forward].
Proof.
  eexists. split; [vm_compute; reflexivity|].
  repeat split; vm_compute; reflexivity.
Qed.

(** ** Rejected requests *)

Lemma count_app a t acts l :
  count a (goto t l acts)
  = (count a t + length (filter (fun b => b = a) acts))%nat.
Proof. unfold count. simpl. rewrite filter_app, length_app. reflexivity. Qed.





(** ** Requests larger than the concurrent pool *)

Section oversized.

Context (rev : semaphore.revision) (p : Params).
Hypothesis Hp : params_ok p.

Lemma move_rejecting c l cost l' acts :
  move p l cost l' acts -> fits c l l' cost ->
  0 <= semaphore.cur c <= semaphore.size c ->
  semaphore.size c = MaxConcurrency p ->
  MaxConcurrency p < cost ->
  rejecting l = true -> rejecting l' = true.
Proof.
  destruct Hp as (Hp1 & Hp2 & Hp3).
  intros Hmv Hfits Hr Hs Hlt Hrej.
  assert (Hno : ~ (cost <= int64.sub (semaphore.size c) (semaphore.cur c) \/
                   ~ semaphore.size c < cost)).
  { rewrite sub_in_range by lia. lia. }
  destruct Hmv; simpl in *; try reflexivity; try discriminate; try lia;
    try (exfalso; apply Hno; apply Hfits; auto; fail).
  destruct o; try discriminate; reflexivity.
Qed.

Lemma simple_move_rejecting c l cost l' acts :
  simple_move p l cost l' acts -> simple_fits c l' cost ->
  0 <= semaphore.cur c <= semaphore.size c ->
  semaphore.size c = MaxConcurrency p ->
  MaxConcurrency p < cost ->
  rejecting l = true -> rejecting l' = true.
Proof.
  destruct Hp as (Hp1 & Hp2 & Hp3).
  intros Hmv Hfits Hr Hs Hlt Hrej.
  destruct Hmv; simpl in *; try reflexivity; try discriminate; try lia.
  specialize (Hfits eq_refl). rewrite sub_in_range in Hfits by lia. lia.
Qed.

Lemma oversized_ok_moved g g' id0 :
  governor_inv p g -> moved p g g' id0 ->
  oversized_ok p (goroutines g) -> oversized_ok p (goroutines g').
Proof.
  intros Hinv (t0 & l & acts & closed & b & Ht0 & Hmv & Heq & Hfits) Hok id t' Ht' Hlt.
  pose proof Hinv as [Hc _ Hgs].
  pose proof (concurrent_range _ _ _ Hc Hgs) as Hr.
  destruct Hc as (Hs & _).
  rewrite Heq in Ht'.
  apply wake_lookup_Some in Ht' as (t1 & Ht1 & Hcost & Hat & _).
  rewrite Hcost in Hlt. rewrite Hat.
  destruct (decide (id0 = id)) as [->|Hne].
  - rewrite lookup_insert_eq in Ht1. injection Ht1 as <-. simpl in *.
    eapply move_rejecting; try eassumption; [lia|].
    eapply Hok; eassumption.
  - rewrite lookup_insert_ne in Ht1 by exact Hne. eapply Hok; eassumption.
Qed.

Lemma oversized_ok_step g e :
  governor_inv p g -> oversized_ok p (goroutines g) ->
  oversized_ok p (goroutines (governor_step rev p g e)).
Proof.
  intros Hinv Hok. destruct e as [id0 req|id0|id0|id0]; simpl.
  - destruct (goroutines g !! id0) eqn:Hid0; [exact Hok|]. simpl.
    intros id t Ht Hlt. destruct (decide (id0 = id)) as [->|Hne].
    + rewrite lookup_insert_eq in Ht. injection Ht as <-. reflexivity.
    + rewrite lookup_insert_ne in Ht by exact Hne. eapply Hok; eassumption.
  - intros id t Ht Hlt. destruct (decide (id0 = id)) as [->|Hne].
    + rewrite lookup_alter_eq in Ht.
      destruct (goroutines g !! id) as [t0|] eqn:E; [|discriminate].
      simpl in Ht. injection Ht as <-. simpl in *. eapply Hok; eassumption.
    + rewrite lookup_alter_ne in Ht by exact Hne. eapply Hok; eassumption.
  - destruct (governor_run_shape rev p g id0) as [->|Hm]; [exact Hok|].
    eapply oversized_ok_moved; eassumption.
  - destruct (governor_abort_shape rev p g id0) as [->|Hm]; [exact Hok|].
    eapply oversized_ok_moved; eassumption.
Qed.

Lemma oversized_ok_steps evs : forall g,
  governor_inv p g -> oversized_ok p (goroutines g) -> costs_nonneg p evs ->
  oversized_ok p (goroutines (fold_left (governor_step rev p) evs g)).
Proof.
  induction evs as [|e evs IH]; intros g Hinv Hok Hev; [exact Hok|].
  apply Forall_cons in Hev as [He Hev]. simpl. apply IH; [| |exact Hev].
  - apply governor_step_inv; assumption.
  - apply oversized_ok_step; assumption.
Qed.

Lemma simple_oversized_ok_step g e :
  simple_inv p g -> oversized_ok p (s_goroutines g) ->
  oversized_ok p (s_goroutines (simple_step p g e)).
Proof.
  intros Hinv Hok. destruct e as [id0 req|id0|id0|id0]; simpl.
  - destruct (s_goroutines g !! id0) eqn:Hid0; [exact Hok|]. simpl.
    intros id t Ht Hlt. destruct (decide (id0 = id)) as [->|Hne].
    + rewrite lookup_insert_eq in Ht. injection Ht as <-. reflexivity.
    + rewrite lookup_insert_ne in Ht by exact Hne. eapply Hok; eassumption.
  - intros id t Ht Hlt. destruct (decide (id0 = id)) as [->|Hne].
    + rewrite lookup_alter_eq in Ht.
      destruct (s_goroutines g !! id) as [t0|] eqn:E; [|discriminate].
      simpl in Ht. injection Ht as <-. simpl in *. eapply Hok; eassumption.
    + rewrite lookup_alter_ne in Ht by exact Hne. eapply Hok; eassumption.
  - destruct (simple_run_shape p g id0) as [->|Hm]; [exact Hok|].
    destruct Hm as (t0 & l & acts & closed & b & Ht0 & Hmv & Heq & Hfits).
    pose proof Hinv as [Hc Hgs _].
    pose proof (concurrent_range _ _ _ Hc Hgs) as Hr.
    destruct Hc as (Hs & _).
    intros id t' Ht' Hlt. rewrite Heq in Ht'.
    apply wake_lookup_Some in Ht' as (t1 & Ht1 & Hcost & Hat & _).
    rewrite Hcost in Hlt. rewrite Hat.
    destruct (decide (id0 = id)) as [->|Hne].
    + rewrite lookup_insert_eq in Ht1. injection Ht1 as <-. simpl in *.
      eapply simple_move_rejecting; try eassumption; [lia|].
      eapply Hok; eassumption.
    + rewrite lookup_insert_ne in Ht1 by exact Hne. eapply Hok; eassumption.
  - exact Hok.
Qed.

Lemma simple_oversized_ok_steps evs : forall g,
  simple_inv p g -> oversized_ok p (s_goroutines g) -> costs_nonneg p evs ->
  oversized_ok p (s_goroutines (fold_left (simple_step p) evs g)).
Proof.
  induction evs as [|e evs IH]; intros g Hinv Hok Hev; [exact Hok|].
  apply Forall_cons in Hev as [He Hev]. simpl. apply IH; [| |exact Hev].
  - apply simple_step_inv; assumption.
  - apply simple_oversized_ok_step; assumption.
Qed.

Lemma rejecting_no_forward l :
  rejecting l = true ->
  length (filter (fun b => b = Forward) (trace_at p l)) = 0%nat.
Proof.
  destruct l as [| | | | | | |r| |o|o]; try discriminate;
    try destruct o; try discriminate; intros _;
    unfold trace_at, overload, counter_inc, gauge_inc, gauge_dec;
    destruct (RequestOverloadCounter p), (QueueLengthGauge p); reflexivity.
Qed.

(** What the steps of an oversized request are, in a state whose books
    are in order. *)
Lemma oversized_governor_steps g id t :
  governor_inv p g -> goroutines g !! id = Some t ->
  MaxConcurrency p < g_cost t ->
  (g_at t = BurstGranted ->
   governor_run rev p id g =
     {| concurrent := concurrent g; burst := burst g;
        goroutines := <[id := goto t QueueEntered (gauge_inc p)]> (goroutines g) |}) /\
  (g_at t = QueueEntered ->
   governor_run rev p id g =
     if g_done t && match rev with semaphore.CheckContext => true | _ => false end
     then {| concurrent := concurrent g; burst := burst g;
             goroutines := <[id := goto t QueueFailed (gauge_dec p)]> (goroutines g) |}
     else {| concurrent := concurrent g; burst := burst g;
             goroutines := <[id := goto t AcquireDoomed []]> (goroutines g) |}) /\
  (g_at t = AcquireDoomed ->
   governor_run rev p id g = g /\
   governor_abort rev p id g =
     if g_done t
     then {| concurrent := concurrent g; burst := burst g;
             goroutines := <[id := goto t QueueFailed (gauge_dec p)]> (goroutines g) |}
     else g) /\
  (g_at t = QueueFailed ->
   governor_run rev p id g =
     {| concurrent := concurrent g; burst := burst g;
        goroutines := <[id := goto t (Unwinding TimedOut) (overload p)]> (goroutines g) |}).
Proof.
  intros Hinv Hid Hlt. pose proof Hinv as [Hc _ Hgs].
  destruct Hp as (Hp1 & Hp2 & Hp3).
  pose proof (concurrent_range _ _ _ Hc Hgs) as Hr.
  destruct Hc as (Hs & _).
  destruct (Hgs id t Hid) as (Hcost & _).
  unfold governor_run, governor_abort. rewrite Hid.
  split; [|split; [|split]]; intros Hat; rewrite Hat.
  - rewrite TryAcquire_spec by lia.
    destruct (Z.leb_spec (g_cost t)
                (semaphore.size (concurrent g) - semaphore.cur (concurrent g)));
      [lia | reflexivity].
  - unfold semaphore.Acquire_enter.
    destruct (g_done t && _); [reflexivity|].
    rewrite sub_in_range by lia.
    destruct (Z.leb_spec (g_cost t)
                (semaphore.size (concurrent g) - semaphore.cur (concurrent g)));
      [lia|]. simpl.
    destruct (Z.ltb_spec (semaphore.size (concurrent g)) (g_cost t));
      [reflexivity | lia].
  - split; [reflexivity|]. destruct (g_done t); reflexivity.
  - reflexivity.
Qed.

Lemma oversized_simple_steps g id t :
  simple_inv p g -> s_goroutines g !! id = Some t ->
  MaxConcurrency p < g_cost t ->
  (g_at t = Start ->
   simple_run p id g =
     {| sem := sem g;
        s_goroutines := <[id := goto t Denied []]> (s_goroutines g) |}) /\
  (g_at t = Denied ->
   simple_run p id g =
     {| sem := sem g;
        s_goroutines :=
          <[id := goto t (Finished BurstDenied) (overload p)]> (s_goroutines g) |}).
Proof.
  intros Hinv Hid Hlt. pose proof Hinv as [Hc Hgs _].
  destruct Hp as (Hp1 & Hp2 & Hp3).
  pose proof (concurrent_range _ _ _ Hc Hgs) as Hr.
  destruct Hc as (Hs & _).
  unfold simple_run. rewrite Hid.
  split; intros Hat; rewrite Hat; [|reflexivity].
  destruct (Z.eqb_spec (g_cost t) 0); [lia|].
  rewrite TryAcquire_spec by lia.
  destruct (Z.leb_spec (g_cost t)
              (semaphore.size (sem g) - semaphore.cur (sem g)));
    [lia | reflexivity].
Qed.

End oversized.

(** Claim C9.  A request whose cost exceeds [MaxConcurrency] is never
    forwarded.  In the single-tier form its [TryAcquire] fails in every
    reachable state, the idle one included, and the overload handler
    follows.  In the two-tier form, once it holds the burst weight, the
    concurrent [TryAcquire] fails, and in the queue [Acquire] grants
    nothing: the request blocks until its context is done (deadline or
    cancellation) and is then rejected as overload. *)
Theorem oversized_request_rejected
  (rev : semaphore.revision) (p : Params) (evs : list event)
  (id : nat) (t : goroutine) :
  params_ok p ->
  costs_nonneg p evs ->
  MaxConcurrency p < g_cost t ->
  match run rev p evs with
  | PassThrough => True
  | SingleTier g => s_goroutines g !! id = Some t -> oversized_simple p g id t
  | TwoTier g => goroutines g !! id = Some t -> oversized_governor rev p g id t
  end.
Proof.
  intros Hp Hev Hlt.
  destruct (run_cases rev p evs) as [[_ ->]|[(_ & _ & ->)|(_ & Hb & ->)]];
    [exact I| |].
  - intros Hid.
    set (g := fold_left (simple_step p) evs (simple_init p)) in *.
    assert (Hinv : simple_inv p g).
    { apply simple_steps_inv; [exact Hp | apply simple_init_inv, Hp | exact Hev]. }
    assert (Hok : oversized_ok p (s_goroutines g)).
    { apply simple_oversized_ok_steps;
        [exact Hp | apply simple_init_inv, Hp | | exact Hev].
      intros i t0 H. simpl in H. rewrite lookup_empty in H. discriminate. }
    destruct (single_tier_local_ok p evs id t Hid) as (Htr & Hpc & _).
    pose proof (Hok id t Hid Hlt) as Hrej.
    destruct (oversized_simple_steps p Hp g id t Hinv Hid Hlt) as [H1 H2].
    unfold oversized_simple. split; [|split; [|split; assumption]].
    + unfold count. rewrite Htr.
      destruct (g_at t) as [| | | | | | |r| |o|o]; try discriminate;
        try destruct o; try discriminate; try reflexivity.
      unfold simple_trace_at, overload, counter_inc.
      destruct (RequestOverloadCounter p); reflexivity.
    + destruct (g_at t) as [| | | | | | |r| |o|o]; try discriminate; auto;
        destruct o; try discriminate; auto.
  - intros Hid.
    set (g := fold_left (governor_step rev p) evs (governor_init p)) in *.
    assert (Hinv : governor_inv p g).
    { apply governor_steps_inv;
        [exact Hp | apply governor_init_inv; assumption | exact Hev]. }
    assert (Hok : oversized_ok p (goroutines g)).
    { apply oversized_ok_steps;
        [exact Hp | apply governor_init_inv; assumption | | exact Hev].
      intros i t0 H. simpl in H. rewrite lookup_empty in H. discriminate. }
    destruct (two_tier_local_ok rev p evs id t Hid) as (Htr & _).
    pose proof (Hok id t Hid Hlt) as Hrej.
    destruct (oversized_governor_steps rev p Hp g id t Hinv Hid Hlt)
      as (H1 & H2 & H3 & H4).
    unfold oversized_governor. split; [|split; [exact Hrej|]].
    + unfold count. rewrite Htr. apply rejecting_no_forward. exact Hrej.
    + split; [exact H1|]. split; [exact H2|]. split; [exact H3 | exact H4].
Qed.

(** A request of cost 2 against a concurrency limit of 1. *)
Definition big_request : Request := mkRequest "example.com" "/big".

Definition big_params : Params :=
  {| MaxConcurrency := 1; MaxBurst := 2;
     CostEstimatorOf := Some (estimate (<["/big" := 2]> ∅ : gmap string Z));
     RequestOverloadCounter := true; QueueLengthGauge := true;
     QueueDurationObserver := true |}.

Definition big_scenario : list event :=
  [Arrive 1 big_request; Run 1; Run 1; Run 1].

Definition doomed_goroutine : goroutine :=
  {| g_cost := 2; g_at := AcquireDoomed; g_done := false; g_ready := false;
     g_panicked := false; g_trace := [Acquired Burst; GaugeInc] |}.

Lemma big_params_ok : params_ok big_params.
Proof. unfold params_ok, int64.max. simpl. lia. Qed.

Lemma big_scenario_nonneg : costs_nonneg big_params big_scenario.
Proof.
  unfold costs_nonneg, big_scenario.
  repeat (constructor; [first [exact I | vm_compute; discriminate]|]).
  constructor.
Qed.

Lemma oversized_request_rejected_witness :
  params_ok big_params /\
  costs_nonneg big_params big_scenario /\
  MaxConcurrency big_params < g_cost doomed_goroutine /\
  match run semaphore.CheckContext big_params big_scenario with
  | TwoTier g =>
      goroutines g !! 1%nat = Some doomed_goroutine /\
      oversized_governor semaphore.CheckContext big_params g 1 doomed_goroutine
  | _ => False
  end.
Proof.
  split; [exact big_params_ok|]. split; [exact big_scenario_nonneg|].
  split; [simpl; lia|].
  pose proof (oversized_request_rejected semaphore.CheckContext big_params big_scenario
                1 doomed_goroutine big_params_ok big_scenario_nonneg
                ltac:(simpl; lia)) as H.
  destruct (run semaphore.CheckContext big_params big_scenario) as [|g|g] eqn:E;
    [vm_compute in E; discriminate E | vm_compute in E; discriminate E |].
  assert (Hg : goroutines g !! 1%nat = Some doomed_goroutine).
  { vm_compute in E. injection E as <-. vm_compute. reflexivity. }
  split; [exact Hg | exact (H Hg)].
Defined.

(** The oversized request on an idle two-tier governor: it blocks in
    [Acquire], and once its context is done it is rejected. *)
Example big_request_times_out :
  exists g, run semaphore.CheckContext big_params big_scenario = TwoTier g /\
    goroutines g !! 1%nat = Some doomed_goroutine /\
    semaphore.cur (concurrent g) = 0 /\
    governor_step semaphore.CheckContext big_params g (Run 1) = g /\
    governor_step semaphore.CheckContext big_params g (Abort 1) = g /\
    let g' := fold_left (governor_step semaphore.CheckContext big_params)
                [CtxDone 1; Abort 1; Run 1; Run 1] g in
    (g_at <$> goroutines g' !! 1%nat) = Some (Finished TimedOut) /\
    (g_trace <$> goroutines g' !! 1%nat)
      = Some [Acquired Burst; GaugeInc; GaugeDec; CounterInc; OverloadHandler;
              Released Burst] /\
    semaphore.cur (burst g') = 0.
Proof.
  eexists. split; [vm_compute; reflexivity|].
  repeat split; vm_compute; reflexivity.
Qed.

(** The same request on an idle single-tier governor. *)
Example big_request_single_tier :
  let p := {| MaxConcurrency := 1; MaxBurst := 0;
              CostEstimatorOf := CostEstimatorOf big_params;
              RequestOverloadCounter := true; QueueLengthGauge := false;
              QueueDurationObserver := false |} in
  exists g, run semaphore.CheckContext p [Arrive 1 big_request; Run 1; Run 1]
            = SingleTier g /\
    semaphore.cur (sem g) = 0 /\
    (g_at <$> s_goroutines g !! 1%nat) = Some (Finished BurstDenied) /\
    (g_trace <$> s_goroutines g !! 1%nat) = Some [CounterInc; OverloadHandler].
Proof.
  eexists. split; [vm_compute; reflexivity|].
  repeat split; vm_compute; reflexivity.
Qed.

(** Why the costs must not be negative: a request of cost -1 lends its
    weight to two requests of cost 1, and takes it back when it
    completes; the two are then in the handler together although
    [MaxConcurrency] is 1. *)
Definition lending_params : Params :=
  {| MaxConcurrency := 1; MaxBurst := 2;
     CostEstimatorOf := Some (estimate (<["/lend" := -1]> ∅ : gmap string Z));
     RequestOverloadCounter := false; QueueLengthGauge := false;
     QueueDurationObserver := false |}.

Definition lending_scenario : list event :=
  [Arrive 0 (mkRequest "example.com" "/lend"); Run 0; Run 0;
   Arrive 1 slash_request; Run 1; Run 1;
   Arrive 2 slash_request; Run 2; Run 2;
   Run 0; Run 0].

Example negative_cost_breaks_the_bound :
  exists g, run semaphore.CheckContext lending_params lending_scenario = TwoTier g /\
    (g_at <$> goroutines g !! 1%nat) = Some (Serving Immediate) /\
    (g_at <$> goroutines g !! 2%nat) = Some (Serving Immediate) /\
    total in_flight (goroutines g) = 2 /\
    semaphore.cur (concurrent g) = 2.
Proof.
  eexists. split; [vm_compute; reflexivity|].
  repeat split; vm_compute; reflexivity.
Qed.

(** * Further properties of the estimators *)

(** ** Strings *)

Section more_string_facts.

Lemma at_0_cons b s : strings.at_ (String b s) 0 = b.
Proof. reflexivity. Qed.

Lemma at_0_rooted s :
  strings.at_ s 0 = "/"%char -> exists rest, s = String "/"%char rest.
Proof.
  destruct s as [|b s]; [discriminate|].
  rewrite at_0_cons. intros ->. eauto.
Qed.

Lemma at_0_app s t : s <> "" -> strings.at_ (s ++ t) 0 = strings.at_ s 0.
Proof.
  destruct s as [|b s]; [congruence|]. intros _. rewrite sapp_cons. reflexivity.
Qed.

Lemma IndexByte_zero s c : strings.IndexByte s c = 0 -> strings.at_ s 0 = c.
Proof.
  destruct s as [|b s]; simpl; [discriminate|].
  destruct (Ascii.eqb_spec b c) as [->|_]; [reflexivity|].
  pose proof (IndexByte_range s c).
  destruct (Z.eqb_spec (strings.IndexByte s c) (-1)); intros; lia.
Qed.

Lemma IndexByte_head s c :
  s <> "" -> strings.IndexByte s c = -1 -> strings.at_ s 0 <> c.
Proof.
  destruct s as [|b s]; simpl; [congruence|]. intros _.
  destruct (Ascii.eqb_spec b c) as [->|Hne]; [discriminate|].
  intros _. rewrite at_0_cons. exact Hne.
Qed.

Lemma IndexByte_app_absent s t c :
  strings.IndexByte s c = -1 ->
  strings.IndexByte (s ++ t) c
  = if strings.IndexByte t c =? -1 then -1 else strings.len s + strings.IndexByte t c.
Proof.
  unfold strings.len.
  induction s as [|b s IH]; rewrite ?sapp_nil, ?sapp_cons; simpl.
  - intros _. destruct (Z.eqb_spec (strings.IndexByte t c) (-1)); lia.
  - destruct (Ascii.eqb b c); [discriminate|].
    pose proof (IndexByte_range s c).
    destruct (Z.eqb_spec (strings.IndexByte s c) (-1)) as [E|E]; [|intros; lia].
    intros _. rewrite (IH E).
    destruct (Z.eqb_spec (strings.IndexByte t c) (-1)) as [Et|Et]; [reflexivity|].
    pose proof (IndexByte_range t c).
    destruct (Z.eqb_spec (Z.of_nat (String.length s) + strings.IndexByte t c) (-1)); lia.
Qed.

Lemma from_app s t : strings.from (s ++ t) (strings.len s) = t.
Proof.
  unfold strings.from, strings.len. rewrite Nat2Z.id.
  induction s as [|b s IH]; rewrite ?sapp_nil, ?sapp_cons; simpl.
  - rewrite Nat.sub_0_r. induction t as [|c t IHt]; simpl; [reflexivity|].
    f_equal. exact IHt.
  - exact IH.
Qed.

Lemma upto_nonempty s n : 0 < n < strings.len s -> strings.upto s n <> "".
Proof.
  unfold strings.upto, strings.len. intros [H1 H2].
  destruct s as [|b s]; simpl in H2; [lia|].
  destruct (Z.to_nat n) as [|k] eqn:E; [lia|]. simpl. discriminate.
Qed.

Lemma HasPrefix_refl s : strings.HasPrefix s s = true.
Proof.
  unfold strings.HasPrefix. induction s as [|b s IH]; simpl; [reflexivity|].
  destruct (ascii_dec b b); [exact IH | contradiction].
Qed.

Lemma HasPrefix_head s p a b :
  a <> b -> strings.HasPrefix (String a s) (String b p) = false.
Proof.
  intros Hne. unfold strings.HasPrefix. simpl.
  destruct (ascii_dec b a); [congruence | reflexivity].
Qed.

Lemma HasPrefix_app_inv h s p :
  strings.HasPrefix (h ++ s) (h ++ p) = strings.HasPrefix s p.
Proof.
  unfold strings.HasPrefix.
  induction h as [|b h IH]; rewrite ?sapp_nil, ?sapp_cons; simpl; [reflexivity|].
  destruct (ascii_dec b b); [exact IH | contradiction].
Qed.

(** Two prefixes of one string that have the same length are equal. *)
Lemma HasPrefix_same_length s a b :
  strings.HasPrefix s a = true -> strings.HasPrefix s b = true ->
  String.length a = String.length b -> a = b.
Proof.
  unfold strings.HasPrefix. revert a b.
  induction s as [|c s IH]; intros [|x a] [|y b]; simpl; try congruence;
    try discriminate.
  destruct (ascii_dec x c) as [->|]; [|discriminate].
  destruct (ascii_dec y c) as [->|]; [|discriminate].
  intros Ha Hb Hl. f_equal. apply IH; congruence.
Qed.

(** A string with a last [c] splits there. *)
Lemma LastIndexByte_split s c :
  strings.LastIndexByte s c <> -1 ->
  exists a b, s = a ++ String c b /\ strings.IndexByte b c = -1 /\
              strings.LastIndexByte s c = strings.len a.
Proof.
  induction s as [|x s IH]; simpl; [congruence|].
  destruct (Z.eqb_spec (strings.LastIndexByte s c) (-1)) as [E|E].
  - destruct (Ascii.eqb_spec x c) as [->|_]; [|congruence].
    intros _. exists "", s. rewrite sapp_nil.
    split; [reflexivity|]. split; [apply LastIndexByte_none, E | reflexivity].
  - intros _. destruct (IH E) as (a & b & -> & Hb & Hl).
    exists (String x a), b. rewrite sapp_cons.
    split; [reflexivity|]. split; [exact Hb|].
    rewrite Hl. unfold strings.len. simpl. lia.
Qed.

End more_string_facts.

(** ** Keys of the pattern table *)

Section key_facts.

Lemma splitPattern_rooted pattern :
  (splitPattern pattern).1 = "" -> strings.at_ (splitPattern pattern).2 0 = "/"%char.
Proof.
  unfold splitPattern, strings.Index_slash.
  pose proof (IndexByte_range pattern "/"%char) as Hr.
  destruct (Z.eqb_spec (strings.IndexByte pattern "/"%char) (-1)) as [E|E];
    [reflexivity|].
  destruct (Z.eqb_spec (strings.IndexByte pattern "/"%char) 0) as [E0|E0]; simpl.
  - intros _. apply IndexByte_zero, E0.
  - intros H. apply upto_nonempty in H; [contradiction | lia].
Qed.

Lemma patternKey_rooted pattern :
  (splitPattern pattern).1 = "" -> strings.at_ (patternKey pattern) 0 = "/"%char.
Proof.
  intros Hh. pose proof (splitPattern_rooted pattern Hh) as Hp.
  unfold patternKey. destruct (splitPattern pattern) as [host path].
  simpl in Hh, Hp. subst host. rewrite sapp_nil.
  destruct (Clean_rooted path Hp) as [rest ->].
  destruct (_ && _); rewrite ?sapp_cons; reflexivity.
Qed.

Lemma hasHost_configure l :
  hasHost (configure l) = true <-> Exists (fun q => (splitPattern q.1).1 <> "") l.
Proof.
  induction l as [|[pattern cost] l IH] using rev_ind.
  - split; [discriminate | intros H; inversion H].
  - rewrite configure_snoc, SetCost_hasHost, Exists_app, Exists_cons, Exists_nil.
    simpl. destruct (String.eqb_spec (splitPattern pattern).1 "") as [E|E]; simpl.
    + rewrite IH. tauto.
    + tauto.
Qed.

Lemma hasHost_false_snoc l q :
  hasHost (configure (l ++ [q])) = false ->
  hasHost (configure l) = false /\ (splitPattern q.1).1 = "".
Proof.
  destruct q as [pattern cost].
  rewrite configure_snoc, SetCost_hasHost. simpl.
  destruct (String.eqb_spec (splitPattern pattern).1 "") as [E|E]; simpl;
    [auto | discriminate].
Qed.

(** As long as no pattern names a host, every key is a rooted path. *)
Lemma rooted_keys l k :
  hasHost (configure l) = false ->
  is_Some (costs (configure l) !! k) -> strings.at_ k 0 = "/"%char.
Proof.
  induction l as [|[pattern cost] l IH] using rev_ind.
  - intros _ [v Hv]. simpl in Hv. rewrite lookup_empty in Hv. discriminate.
  - intros Hh. apply hasHost_false_snoc in Hh as [Hh Hs]. simpl in Hs.
    rewrite configure_snoc, SetCost_costs. simpl.
    destruct (decide (patternKey pattern = k)) as [<-|Hne].
    + intros _. apply patternKey_rooted, Hs.
    + rewrite lookup_insert_ne by exact Hne. apply IH, Hh.
Qed.

Lemma prefixes_configure l x :
  x ∈ prefixes (configure l) <->
  exists q, q ∈ l /\ isSubtree q.1 = true /\ patternKey q.1 = x.
Proof.
  induction l as [|[pattern cost] l IH] using rev_ind.
  - simpl. split; [intros H; inversion H|].
    intros (q & Hq & _). inversion Hq.
  - rewrite configure_snoc, SetCost_prefixes. simpl.
    destruct (isSubtree pattern) eqn:E.
    + rewrite elem_of_addPrefix, IH. split.
      * intros [->|(q & Hq & Hs & Hk)].
        -- exists (pattern, cost). rewrite elem_of_app, list_elem_of_singleton. auto.
        -- exists q. rewrite elem_of_app. auto.
      * intros (q & Hq & Hs & Hk).
        apply elem_of_app in Hq as [Hq|Hq].
        -- right. eauto.
        -- apply list_elem_of_singleton in Hq. subst q. left. symmetry. exact Hk.
    + rewrite IH. split.
      * intros (q & Hq & Hs & Hk). exists q. rewrite elem_of_app. auto.
      * intros (q & Hq & Hs & Hk).
        apply elem_of_app in Hq as [Hq|Hq]; [eauto|].
        apply list_elem_of_singleton in Hq. subst q. simpl in Hs. congruence.
Qed.

Lemma costs_configure_registered l k v :
  costs (configure l) !! k = Some v ->
  exists q, q ∈ l /\ patternKey q.1 = k /\ q.2 = v.
Proof.
  induction l as [|[pattern cost] l IH] using rev_ind.
  - simpl. rewrite lookup_empty. discriminate.
  - rewrite configure_snoc, SetCost_costs. simpl.
    destruct (decide (patternKey pattern = k)) as [<-|Hne].
    + rewrite lookup_insert_eq. intros [= <-].
      exists (pattern, cost). rewrite elem_of_app, list_elem_of_singleton. auto.
    + rewrite lookup_insert_ne by exact Hne. intros H.
      destruct (IH H) as (q & Hq & Hk & Hv).
      exists q. rewrite elem_of_app. auto.
Qed.

(** When no two patterns share a key, the cost map holds exactly what
    was registered. *)
Lemma costs_configure_distinct l k v :
  NoDup ((fun q : string * Z => patternKey q.1) <$> l) ->
  costs (configure l) !! k = Some v <->
  exists q, q ∈ l /\ patternKey q.1 = k /\ q.2 = v.
Proof.
  intros Hnd. split; [apply costs_configure_registered|].
  revert Hnd. induction l as [|[pattern cost] l IH] using rev_ind.
  - intros _ (q & Hq & _). inversion Hq.
  - rewrite fmap_app. simpl. intros Hnd.
    apply NoDup_app in Hnd as (Hnd & Hfresh & _).
    rewrite configure_snoc, SetCost_costs. simpl.
    intros (q & Hq & Hk & Hv). apply elem_of_app in Hq as [Hq|Hq].
    + assert (patternKey pattern <> k) as Hne.
      { intros E. apply (Hfresh k).
        - subst k. apply (list_elem_of_fmap_2 (fun q : string * Z => patternKey q.1)) in Hq.
          exact Hq.
        - rewrite <- E. apply list_elem_of_singleton. reflexivity. }
      rewrite lookup_insert_ne by exact Hne. apply IH; eauto.
    + apply list_elem_of_singleton in Hq. subst q. simpl in Hk, Hv. subst k v.
      apply lookup_insert_eq.
Qed.

End key_facts.

(** ** Matching *)

Section more_match_facts.

(** The value of a successful match is a registered cost. *)
Lemma match_value c key :
  table_ok c ->
  (snd (match_ c key) = true /\ exists k, costs c !! k = Some (match_ c key).1) \/
  match_ c key = (1, false).
Proof.
  intros Hok. unfold match_. destruct (costs c !! key) as [v|] eqn:E.
  - left. split; [reflexivity|]. exists key. exact E.
  - pose proof (match_prefixes_longest (costs c) (prefixes c) key (ok_sorted c Hok)) as H.
    destruct (filter _ (prefixes c)) as [|q qs]; [right; exact H|].
    destruct H as (Hm & Hin & _). left. rewrite Hm. split; [reflexivity|].
    destruct (ok_costs c Hok q Hin) as [v Hv]. exists q. rewrite Hv. reflexivity.
Qed.

(** Over longest-first lists the scan depends on the entries only, not
    on how entries of equal length are ordered. *)
Lemma match_prefixes_ext cs ps ps' key :
  longest_first ps -> longest_first ps' ->
  (forall x, x ∈ ps <-> x ∈ ps') ->
  match_prefixes cs ps key = match_prefixes cs ps' key.
Proof.
  intros Hs Hs' Hiff.
  pose proof (match_prefixes_longest cs ps key Hs) as H.
  pose proof (match_prefixes_longest cs ps' key Hs') as H'.
  destruct (filter _ ps) as [|q qs] eqn:E; destruct (filter _ ps') as [|q' qs'] eqn:E'.
  - congruence.
  - destruct H' as (_ & Hin & Hq & _). apply Hiff in Hin.
    assert (q' ∈ filter (fun p => strings.HasPrefix key p = true) ps) as Hf
      by (apply list_elem_of_filter; auto).
    rewrite E in Hf. inversion Hf.
  - destruct H as (_ & Hin & Hq & _). apply Hiff in Hin.
    assert (q ∈ filter (fun p => strings.HasPrefix key p = true) ps') as Hf
      by (apply list_elem_of_filter; auto).
    rewrite E' in Hf. inversion Hf.
  - destruct H as (Hm & Hin & Hq & Hall). destruct H' as (Hm' & Hin' & Hq' & Hall').
    rewrite Forall_forall in Hall, Hall'.
    assert (q = q') as <-.
    { apply (HasPrefix_same_length key); [exact Hq | exact Hq' |].
      apply Nat.le_antisymm.
      - apply Hall'; [apply Hiff, Hin | exact Hq].
      - apply Hall; [apply Hiff, Hin' | exact Hq']. }
    congruence.
Qed.

Lemma no_match_SetCost c pattern cost key :
  no_match c key ->
  strings.HasPrefix key (patternKey pattern) = false ->
  no_match (SetCost c pattern cost) key.
Proof.
  intros [Hc Hp] Hk. split.
  - rewrite SetCost_costs. rewrite lookup_insert_ne; [exact Hc|].
    intros E. rewrite E, HasPrefix_refl in Hk. discriminate.
  - rewrite SetCost_prefixes. destruct (isSubtree pattern); [|exact Hp].
    rewrite Forall_forall in Hp |- *. intros x Hx.
    apply elem_of_addPrefix in Hx as [->|Hx]; auto.
Qed.

End more_match_facts.

(** ** The host flag *)

Lemma splitPattern_hostless pattern :
  (splitPattern pattern).1 = "" <->
  pattern = "" \/ strings.at_ pattern 0 = "/"%char.
Proof.
  split.
  - unfold splitPattern, strings.Index_slash.
    pose proof (IndexByte_range pattern "/"%char) as Hr.
    destruct (Z.eqb_spec (strings.IndexByte pattern "/"%char) (-1)) as [E|E];
      [simpl; auto|].
    destruct (Z.eqb_spec (strings.IndexByte pattern "/"%char) 0) as [E0|E0]; simpl.
    + intros _. right. apply IndexByte_zero, E0.
    + intros H. apply upto_nonempty in H; [contradiction | lia].
  - intros [->|H]; [reflexivity|].
    destruct (at_0_rooted pattern H) as [rest ->]. reflexivity.
Qed.

(** X1.  [hasHost] is false exactly as long as every pattern registered
    so far is empty or starts with a slash, that is, has no host part. *)
Theorem hasHost_records_hosts (l : list (string * Z)) :
  hasHost (configure l) = false <->
  Forall (fun q => q.1 = "" \/ strings.at_ q.1 0 = "/"%char) l.
Proof.
  induction l as [|[pattern cost] l IH] using rev_ind.
  - split; [constructor | reflexivity].
  - rewrite Forall_app, Forall_singleton, <- IH. simpl.
    rewrite <- splitPattern_hostless. split.
    + intros H. apply hasHost_false_snoc in H. exact H.
    + intros [H E]. rewrite configure_snoc, SetCost_hasHost, E. exact H.
Qed.

(** X2.  The shortcut taken when [hasHost] is false loses nothing: the
    host-qualified attempt that is skipped would not have matched (for
    a request host that does not itself start with a slash), so the
    estimate is what the two attempts in turn would give. *)
Theorem hasHost_shortcut_sound (l : list (string * Z)) (req : Request) :
  hasHost (configure l) = false ->
  strings.at_ (stripPort (Host req)) 0 <> "/"%char ->
  (stripPort (Host req) <> "" -> no_match (configure l) (hostKey req)) /\
  EstimateCost (configure l) req
  = if snd (match_ (configure l) (hostKey req))
    then (match_ (configure l) (hostKey req)).1
    else (match_ (configure l) (pathKey req)).1.
Proof.
  intros Hh. unfold hostKey, pathKey.
  generalize (stripPort (Host req)). intros h Hhost.
  assert (Hn : h <> "" ->
               no_match (configure l) (h ++ stdpath.Clean (URL_Path req))).
  { intros Hne. destruct h as [|a h]; [congruence|].
    rewrite at_0_cons in Hhost. rewrite sapp_cons. split.
    - destruct (costs (configure l) !! _) as [v|] eqn:E; [|reflexivity].
      exfalso. apply Hhost.
      rewrite <- (at_0_cons a (h ++ stdpath.Clean (URL_Path req))).
      apply (rooted_keys l); [exact Hh | rewrite E; eauto].
    - apply Forall_forall. intros x Hx.
      assert (Hx0 : strings.at_ x 0 = "/"%char).
      { apply (rooted_keys l); [exact Hh|].
        apply (ok_costs _ (configure_table_ok l)), Hx. }
      destruct (at_0_rooted x Hx0) as [rest ->].
      apply HasPrefix_head. exact Hhost. }
  split; [exact Hn|].
  rewrite EstimateCost_no_host by exact Hh. unfold pathKey.
  destruct (string_dec h "") as [E|E].
  - rewrite E, sapp_nil. destruct (snd _); reflexivity.
  - apply Hn, match_ok in E. rewrite E. reflexivity.
Qed.

Lemma hasHost_shortcut_sound_witness :
  hasHost (configure [("/free", 0); ("/api/", 5)]) = false /\
  strings.at_ (stripPort (Host (mkRequest "example.com:80" "/api/x"))) 0 <> "/"%char /\
  no_match (configure [("/free", 0); ("/api/", 5)])
    (hostKey (mkRequest "example.com:80" "/api/x")) /\
  EstimateCost (configure [("/free", 0); ("/api/", 5)])
    (mkRequest "example.com:80" "/api/x") = 5.
Proof.
  assert (H1 : hasHost (configure [("/free", 0); ("/api/", 5)]) = false)
    by reflexivity.
  assert (H2 : strings.at_ (stripPort (Host (mkRequest "example.com:80" "/api/x"))) 0
               <> "/"%char)
    by (vm_compute; discriminate).
  split; [exact H1|]. split; [exact H2|].
  destruct (hasHost_shortcut_sound [("/free", 0); ("/api/", 5)]
              (mkRequest "example.com:80" "/api/x") H1 H2) as [Hn He].
  split; [apply Hn; vm_compute; discriminate|].
  rewrite He. vm_compute. reflexivity.
Defined.

(** ** What the table holds *)

(** X3.  After any sequence of [SetCost] calls the cost map has an
    entry exactly for the keys of the patterns registered, and the
    prefix list holds exactly the keys of the subtree patterns among
    them. *)
Theorem table_holds_registered_keys (l : list (string * Z)) (k : string) :
  (is_Some (costs (configure l) !! k) <->
   exists q, q ∈ l /\ patternKey q.1 = k) /\
  (k ∈ prefixes (configure l) <->
   exists q, q ∈ l /\ isSubtree q.1 = true /\ patternKey q.1 = k).
Proof.
  split; [|apply prefixes_configure].
  split.
  - intros [v Hv]. destruct (costs_configure_registered l k v Hv) as (q & Hq & Hk & _).
    eauto.
  - induction l as [|[pattern cost] l IH] using rev_ind.
    + intros (q & Hq & _). inversion Hq.
    + intros (q & Hq & Hk). rewrite configure_snoc, SetCost_costs.
      destruct (decide (patternKey pattern = k)) as [E|E].
      * rewrite E, lookup_insert_eq. eauto.
      * rewrite lookup_insert_ne by exact E. apply IH.
        apply elem_of_app in Hq as [Hq|Hq]; [eauto|].
        apply list_elem_of_singleton in Hq. subst q. contradiction.
Qed.

(** X4.  The order in which patterns with different keys are registered
    does not matter to any estimate (prefixes of equal length may end
    up in a different order in the prefix list, but no candidate key
    starts with two of them). *)
Theorem configure_order_irrelevant (l l' : list (string * Z)) (req : Request) :
  l ≡ₚ l' ->
  NoDup ((fun q : string * Z => patternKey q.1) <$> l) ->
  EstimateCost (configure l) req = EstimateCost (configure l') req.
Proof.
  intros Hperm Hnd.
  assert (Hnd' : NoDup ((fun q : string * Z => patternKey q.1) <$> l'))
    by (rewrite <- Hperm; exact Hnd).
  assert (Hin : forall q, q ∈ l <-> q ∈ l') by (intros q; rewrite Hperm; reflexivity).
  assert (Hc : costs (configure l) = costs (configure l')).
  { apply map_eq. intros k. apply option_eq. intros v.
    rewrite !costs_configure_distinct by assumption.
    split; intros (q & Hq & H); exists q; (split; [apply Hin, Hq | exact H]). }
  assert (Hh : hasHost (configure l) = hasHost (configure l')).
  { apply eq_true_iff_eq. rewrite !hasHost_configure, !Exists_exists.
    split; intros (q & Hq & H); exists q; (split; [apply Hin, Hq | exact H]). }
  assert (Hm : forall k, match_ (configure l) k = match_ (configure l') k).
  { intros k. unfold match_. rewrite Hc.
    destruct (costs (configure l') !! k); [reflexivity|].
    apply match_prefixes_ext.
    - apply (ok_sorted _ (configure_table_ok l)).
    - apply (ok_sorted _ (configure_table_ok l')).
    - intros x. rewrite !prefixes_configure.
      split; intros (q & Hq & H); exists q; (split; [apply Hin, Hq | exact H]). }
  unfold EstimateCost. rewrite Hh, !Hm. reflexivity.
Qed.

Lemma configure_order_irrelevant_witness :
  [("/api/", 5); ("/free", 0); ("/abc/", 7)] ≡ₚ [("/abc/", 7); ("/free", 0); ("/api/", 5)] /\
  NoDup ((fun q : string * Z => patternKey q.1)
           <$> [("/api/", 5); ("/free", 0); ("/abc/", 7)]) /\
  prefixes (configure [("/api/", 5); ("/free", 0); ("/abc/", 7)])
    <> prefixes (configure [("/abc/", 7); ("/free", 0); ("/api/", 5)]) /\
  EstimateCost (configure [("/api/", 5); ("/free", 0); ("/abc/", 7)])
    (mkRequest "example.com" "/abc/x")
  = EstimateCost (configure [("/abc/", 7); ("/free", 0); ("/api/", 5)])
      (mkRequest "example.com" "/abc/x").
Proof.
  assert (H1 : [("/api/", 5); ("/free", 0); ("/abc/", 7)]
               ≡ₚ [("/abc/", 7); ("/free", 0); ("/api/", 5)]).
  { etransitivity; [apply perm_swap|].
    etransitivity; [apply perm_skip, perm_swap|]. apply perm_swap. }
  assert (H2 : NoDup ((fun q : string * Z => patternKey q.1)
                        <$> [("/api/", 5); ("/free", 0); ("/abc/", 7)])).
  { apply (bool_decide_unpack _). vm_compute. reflexivity. }
  split; [exact H1|]. split; [exact H2|].
  split; [vm_compute; discriminate|].
  apply (configure_order_irrelevant _ _ _ H1 H2).
Defined.

(** ** [stripPort] *)

(** X5.  [stripPort] returns its argument or cuts it at a colon: what
    it removes is a colon followed by text without colons, so the
    result is always the front part of the argument. *)
Theorem stripPort_cuts_port (hostport : string) :
  stripPort hostport = hostport \/
  exists port, strings.IndexByte port ":"%char = -1 /\
               hostport = stripPort hostport ++ ":" ++ port.
Proof.
  unfold stripPort.
  destruct (Z.eqb_spec (strings.LastIndexByte hostport ":"%char) (-1)) as [E|E];
    [left; reflexivity|].
  destruct (_ && _); [left; reflexivity|]. right.
  destruct (LastIndexByte_split hostport ":"%char E) as (a & b & Hs & Hb & Hl).
  exists b. split; [exact Hb|].
  rewrite Hl. rewrite Hs at 2. rewrite upto_app.
  rewrite sapp_cons, sapp_nil. exact Hs.
Qed.

Lemma index_in_range s i :
  0 <= i < strings.len s -> index s i = Some (strings.at_ s i).
Proof.
  intros [H0 H1]. unfold index, strings.at_.
  destruct (Z.ltb_spec i 0); [lia|].
  destruct (Z.leb_spec (strings.len s) i); [lia|]. simpl.
  destruct (String.get (Z.to_nat i) s) as [b|] eqn:E; [reflexivity|].
  exfalso. revert i H0 H1 H H2 E. unfold strings.len.
  induction s as [|b s IH]; intros i H0 H1 _ _ E; simpl in H1; [lia|].
  destruct (Z.to_nat i) as [|k] eqn:Ek; simpl in E; [discriminate|].
  apply (IH (Z.of_nat k)); try lia. rewrite Nat2Z.id. exact E.
Qed.

Lemma slice_to_in_range s n :
  0 <= n <= strings.len s -> slice_to s n = Some (strings.upto s n).
Proof.
  intros [H0 H1]. unfold slice_to.
  destruct (Z.ltb_spec n 0); [lia|].
  destruct (Z.ltb_spec (strings.len s) n); [lia|]. reflexivity.
Qed.

(** X6.  [stripPort] cannot panic: evaluated with Go's run-time checks
    on [hostport[0]], [hostport[n-1]] and [hostport[:n]], it returns
    for every argument, and returns what [stripPort] returns.  (When
    there is a colon the host is not empty; [hostport[n-1]] is read
    only after [hostport[0]] was found to be a bracket, and then the
    last colon is not at index 0.) *)
Theorem stripPort_never_panics (hostport : string) :
  stripPort_checked hostport = Some (stripPort hostport).
Proof.
  unfold stripPort_checked, stripPort.
  pose proof (LastIndexByte_range hostport ":"%char) as Hr.
  destruct (Z.eqb_spec (strings.LastIndexByte hostport ":"%char) (-1)) as [E|E];
    [reflexivity|].
  destruct (stripPort_in_range hostport E) as [Hlen Hb].
  rewrite index_in_range by lia.
  destruct (Ascii.eqb_spec (strings.at_ hostport 0) "["%char) as [E0|E0]; simpl.
  - rewrite index_in_range by (apply Hb, E0).
    destruct (negb _); [reflexivity|]. apply slice_to_in_range. lia.
  - apply slice_to_in_range. lia.
Qed.

(** ** Patterns with a port *)

Lemma splitPattern_host_path host path :
  host <> "" -> strings.IndexByte host "/"%char = -1 ->
  strings.at_ path 0 = "/"%char ->
  splitPattern (host ++ path) = (host, path).
Proof.
  intros Hne Hh Hp. destruct (at_0_rooted path Hp) as [rest ->].
  unfold splitPattern, strings.Index_slash.
  rewrite (IndexByte_app_absent _ _ _ Hh). simpl.
  rewrite Z.add_0_r.
  assert (0 < strings.len host).
  { destruct host; [congruence|]. unfold strings.len. simpl. lia. }
  destruct (Z.eqb_spec (strings.len host) (-1)); [lia|].
  destruct (Z.eqb_spec (strings.len host) 0); [lia|].
  rewrite upto_app, from_app. reflexivity.
Qed.

Lemma patternKey_host_path host path :
  host <> "" -> strings.IndexByte host "/"%char = -1 ->
  strings.at_ path 0 = "/"%char ->
  exists rest, patternKey (host ++ path) = host ++ String "/"%char rest.
Proof.
  intros Hne Hh Hp. unfold patternKey.
  rewrite (splitPattern_host_path host path Hne Hh Hp).
  destruct (Clean_rooted path Hp) as [rest ->].
  destruct (_ && _); rewrite ?sapp_cons; eauto.
Qed.

(** X7.  [SetCost] does not strip a port from the host part of a
    pattern, while [EstimateCost] strips it from the request host: a
    pattern whose host part carries a port is filed under a key that
    matches neither candidate key of a request for that host, whatever
    port the request names, so it never contributes to the estimate of
    such a request. *)
Theorem SetCost_keeps_port
  (c : PatternCostEstimator) (h port path : string) (cost : Z) (req : Request) :
  strings.IndexByte h "/"%char = -1 ->
  strings.IndexByte port "/"%char = -1 ->
  strings.at_ path 0 = "/"%char ->
  stripPort (Host req) = h ->
  strings.at_ (URL_Path req) 0 = "/"%char ->
  splitPattern (h ++ ":" ++ port ++ path) = (h ++ ":" ++ port, path) /\
  strings.HasPrefix (hostKey req) (patternKey (h ++ ":" ++ port ++ path)) = false /\
  strings.HasPrefix (pathKey req) (patternKey (h ++ ":" ++ port ++ path)) = false /\
  (no_match c (hostKey req) -> no_match c (pathKey req) ->
   EstimateCost (SetCost c (h ++ ":" ++ port ++ path) cost) req = 1).
Proof.
  intros Hh Hport Hpath Hhost Hurl.
  assert (Hpat : h ++ ":" ++ port ++ path = (h ++ ":" ++ port) ++ path)
    by (rewrite !sapp_assoc; reflexivity).
  assert (Hne : h ++ ":" ++ port <> "").
  { destruct h; rewrite ?sapp_nil, ?sapp_cons; discriminate. }
  assert (Hhp : strings.IndexByte (h ++ ":" ++ port) "/"%char = -1).
  { rewrite (IndexByte_app_absent _ _ _ Hh), sapp_cons, sapp_nil. simpl.
    rewrite Hport. reflexivity. }
  pose proof (splitPattern_host_path _ _ Hne Hhp Hpath) as Hsplit.
  destruct (patternKey_host_path _ _ Hne Hhp Hpath) as [rest Hkey].
  rewrite <- Hpat in Hsplit, Hkey.
  destruct (Clean_rooted _ Hurl) as [rest' Hclean].
  assert (Hk1 : strings.HasPrefix (hostKey req)
                  (patternKey (h ++ ":" ++ port ++ path)) = false).
  { unfold hostKey. rewrite Hkey, Hhost, Hclean, sapp_assoc, HasPrefix_app_inv.
    rewrite sapp_cons. apply HasPrefix_head. discriminate. }
  assert (Hk2 : strings.HasPrefix (pathKey req)
                  (patternKey (h ++ ":" ++ port ++ path)) = false).
  { unfold pathKey. rewrite Hkey, Hclean.
    destruct h as [|a h']; rewrite ?sapp_nil, ?sapp_cons.
    - apply HasPrefix_head. discriminate.
    - apply HasPrefix_head. intros E.
      apply (IndexByte_head (String a h') "/"%char); [discriminate | exact Hh |].
      rewrite at_0_cons. symmetry. exact E. }
  split; [exact Hsplit|]. split; [exact Hk1|]. split; [exact Hk2|].
  intros Hn1 Hn2.
  rewrite EstimateCost_host.
  - rewrite (match_miss _ _ (no_match_SetCost _ _ cost _ Hn1 Hk1)). simpl.
    rewrite (match_miss _ _ (no_match_SetCost _ _ cost _ Hn2 Hk2)). reflexivity.
  - rewrite SetCost_hasHost, Hsplit. simpl.
    destruct (String.eqb_spec (h ++ ":" ++ port) ""); [contradiction | reflexivity].
Qed.

Lemma SetCost_keeps_port_witness :
  strings.IndexByte "example.com" "/"%char = -1 /\
  strings.IndexByte "8080" "/"%char = -1 /\
  strings.at_ "/api/" 0 = "/"%char /\
  stripPort (Host (mkRequest "example.com:8080" "/api/call")) = "example.com" /\
  strings.at_ (URL_Path (mkRequest "example.com:8080" "/api/call")) 0 = "/"%char /\
  EstimateCost
    (SetCost newPatternCostEstimator ("example.com" ++ ":" ++ "8080" ++ "/api/") 5)
    (mkRequest "example.com:8080" "/api/call") = 1.
Proof.
  split; [reflexivity|]. split; [reflexivity|]. split; [reflexivity|].
  split; [reflexivity|]. split; [reflexivity|].
  apply (SetCost_keeps_port newPatternCostEstimator "example.com" "8080" "/api/" 5
           (mkRequest "example.com:8080" "/api/call"));
    try reflexivity; (split; [reflexivity | constructor]).
Defined.

(** ** The range of the estimates *)

Lemma EstimateCost_registered l req :
  EstimateCost (configure l) req = 1 \/
  exists q, q ∈ l /\ q.2 = EstimateCost (configure l) req.
Proof.
  pose proof (configure_table_ok l) as Hok.
  assert (Hm : forall key,
            (match_ (configure l) key).1 = 1 \/
            exists q, q ∈ l /\ q.2 = (match_ (configure l) key).1).
  { intros key. destruct (match_value (configure l) key Hok) as [(_ & k & Hk)|E].
    - right. destruct (costs_configure_registered l k _ Hk) as (q & Hq & _ & Hv).
      eauto.
    - left. rewrite E. reflexivity. }
  unfold EstimateCost. destruct (hasHost (configure l)); simpl; [|apply Hm].
  destruct (snd (match_ (configure l) _)); apply Hm.
Qed.

(** X8.  An estimate of the pattern estimator is the default 1 or a
    cost that was registered; in particular no estimate is negative
    when no registered cost is. *)
Theorem EstimateCost_range (l : list (string * Z)) (req : Request) :
  (EstimateCost (configure l) req = 1 \/
   exists q, q ∈ l /\ q.2 = EstimateCost (configure l) req) /\
  (Forall (fun q : string * Z => 0 <= q.2) l ->
   0 <= EstimateCost (configure l) req).
Proof.
  split; [apply EstimateCost_registered|].
  intros Hall. rewrite Forall_forall in Hall.
  destruct (EstimateCost_registered l req) as [->|(q & Hq & <-)]; [lia|].
  apply Hall, Hq.
Qed.

(** X9.  A governor that takes its costs from a pattern estimator whose
    registered costs are all at least 0 never sees a negative cost:
    the premise under which the governors keep their bounds. *)
Theorem pattern_costs_nonneg
  (l : list (string * Z)) (p : Params) (evs : list event) :
  Forall (fun q : string * Z => 0 <= q.2) l ->
  CostEstimatorOf p = Some (estimate (configure l)) ->
  costs_nonneg p evs.
Proof.
  intros Hall Hp. rewrite Forall_forall in Hall.
  apply Forall_forall. intros [id req|id|id|id] _; try exact I.
  unfold cost_of. rewrite Hp.
  change (0 <= EstimateCost (configure l) req).
  destruct (EstimateCost_registered l req) as [->|(q & Hq & <-)]; [lia|].
  apply Hall, Hq.
Qed.

Lemma pattern_costs_nonneg_witness :
  Forall (fun q : string * Z => 0 <= q.2) [("/free", 0); ("/api/", 5)] /\
  costs_nonneg
    {| MaxConcurrency := 10; MaxBurst := 20;
       CostEstimatorOf := Some (estimate (configure [("/free", 0); ("/api/", 5)]));
       RequestOverloadCounter := false; QueueLengthGauge := false;
       QueueDurationObserver := false |}
    [Arrive 1 (mkRequest "example.com" "/api/x"); Run 1].
Proof.
  assert (H : Forall (fun q : string * Z => 0 <= q.2) [("/free", 0); ("/api/", 5)]).
  { repeat (constructor; [simpl; lia|]). constructor. }
  split; [exact H|].
  apply (pattern_costs_nonneg [("/free", 0); ("/api/", 5)] _ _ H). reflexivity.
Defined.

(** X10.  The same for [PathCostEstimator]: its estimate is the entry of
    the raw URL path or the default 1, so a map without negative
    entries gives no negative cost. *)
Theorem path_costs_nonneg
  (m : gmap string Z) (p : Params) (evs : list event) :
  map_Forall (fun _ v => 0 <= v) m ->
  CostEstimatorOf p = Some (estimate m) ->
  costs_nonneg p evs.
Proof.
  intros Hall Hp.
  apply Forall_forall. intros [id req|id|id|id] _; try exact I.
  unfold cost_of. rewrite Hp.
  change (0 <= PathCostEstimator_EstimateCost m req).
  unfold PathCostEstimator_EstimateCost.
  destruct (m !! URL_Path req) as [v|] eqn:E; [|lia].
  apply (Hall _ _ E).
Qed.

Lemma path_costs_nonneg_witness :
  map_Forall (fun (_ : string) v => 0 <= v) (path_table [("/free", 0); ("/api", 5)]) /\
  costs_nonneg
    {| MaxConcurrency := 10; MaxBurst := 20;
       CostEstimatorOf := Some (estimate (path_table [("/free", 0); ("/api", 5)]));
       RequestOverloadCounter := false; QueueLengthGauge := false;
       QueueDurationObserver := false |}
    [Arrive 1 (mkRequest "example.com" "/api"); Run 1].
Proof.
  assert (H : map_Forall (fun (_ : string) v => 0 <= v)
                (path_table [("/free", 0); ("/api", 5)])).
  { unfold path_table. simpl. apply map_Forall_insert_2; [lia|].
    apply map_Forall_insert_2; [lia|]. apply map_Forall_empty. }
  split; [exact H|].
  apply (path_costs_nonneg _ _ _ H). reflexivity.
Defined.

(** ** The two estimators compared *)

Lemma splitPattern_plain k :
  strings.at_ k 0 = "/"%char -> splitPattern k = ("", k).
Proof.
  intros H. destruct (at_0_rooted k H) as [rest ->]. reflexivity.
Qed.

Lemma SetCost_plain c k cost :
  plain_path k ->
  SetCost c k cost
  = {| costs := <[k := cost]> (costs c); prefixes := prefixes c; hasHost := hasHost c |}.
Proof.
  intros (H0 & Hc & Hs). unfold SetCost.
  rewrite (splitPattern_plain k H0), Hs, Hc, sapp_nil. reflexivity.
Qed.

Lemma configure_plain l :
  Forall (fun q : string * Z => plain_path q.1) l ->
  configure l = {| costs := path_table l; prefixes := []; hasHost := false |}.
Proof.
  induction l as [|[k cost] l IH] using rev_ind; [reflexivity|].
  intros H. apply Forall_app in H as [Hl Hk].
  rewrite Forall_singleton in Hk. simpl in Hk.
  rewrite configure_snoc, (SetCost_plain _ _ _ Hk), (IH Hl). simpl.
  unfold path_table. rewrite fold_left_app. reflexivity.
Qed.

(** X11.  On a table of exact, host-free paths in clean form the pattern
    estimator is the path estimator: for every request whose URL path
    is in clean form both give the same cost.  ([PathCostEstimator]
    looks up the raw path, [PatternCostEstimator] the cleaned one.) *)
Theorem estimators_agree_on_plain_paths (l : list (string * Z)) (req : Request) :
  Forall (fun q : string * Z => plain_path q.1) l ->
  stdpath.Clean (URL_Path req) = URL_Path req ->
  estimate (configure l) req = estimate (path_table l) req.
Proof.
  intros Hl Hreq.
  change (EstimateCost (configure l) req
          = PathCostEstimator_EstimateCost (path_table l) req).
  rewrite (configure_plain l Hl).
  unfold EstimateCost, PathCostEstimator_EstimateCost, match_. simpl.
  rewrite Hreq. destruct (path_table l !! URL_Path req); reflexivity.
Qed.

Lemma estimators_agree_on_plain_paths_witness :
  Forall (fun q : string * Z => plain_path q.1) [("/free", 0); ("/api/v1", 5)] /\
  stdpath.Clean (URL_Path (mkRequest "example.com" "/api/v1")) = "/api/v1" /\
  estimate (configure [("/free", 0); ("/api/v1", 5)]) (mkRequest "example.com" "/api/v1")
  = estimate (path_table [("/free", 0); ("/api/v1", 5)]) (mkRequest "example.com" "/api/v1").
Proof.
  assert (H : Forall (fun q : string * Z => plain_path q.1)
                [("/free", 0); ("/api/v1", 5)]).
  { repeat (constructor; [repeat split; reflexivity|]). constructor. }
  split; [exact H|]. split; [reflexivity|].
  apply (estimators_agree_on_plain_paths _ _ H). reflexivity.
Defined.

(** * Further properties of the governors *)

Section more_total_facts.

Lemma total_ext (w1 w2 : goroutine -> Z) (m : gmap nat goroutine) :
  (forall i t, m !! i = Some t -> w1 t = w2 t) -> total w1 m = total w2 m.
Proof.
  intros H. apply Z.le_antisymm; apply total_le; intros i t Hi;
    rewrite (H i t Hi); lia.
Qed.

Lemma total_zero (w : goroutine -> Z) (m : gmap nat goroutine) :
  (forall i t, m !! i = Some t -> w t = 0) -> total w m = 0.
Proof.
  intros H. apply Z.le_antisymm.
  - etransitivity; [apply (total_le w (fun _ => 0)); intros i t Hi;
                    rewrite (H i t Hi); lia|].
    clear H. induction m as [|i t m Hi IH] using map_ind.
    + rewrite total_empty. lia.
    + rewrite total_insert_fresh by exact Hi. lia.
  - apply total_nonneg. intros i t Hi. rewrite (H i t Hi). lia.
Qed.

End more_total_facts.

(** ** The states of a run *)

Section reachable.

Context (rev : semaphore.revision) (p : Params).
Hypothesis Hp : params_ok p.

Lemma two_tier_inv evs g :
  costs_nonneg p evs -> run rev p evs = TwoTier g ->
  g = fold_left (governor_step rev p) evs (governor_init p) /\ governor_inv p g.
Proof.
  intros Hev Hrun.
  destruct (run_cases rev p evs) as [[_ E]|[(_ & _ & E)|(_ & Hlt & E)]];
    rewrite E in Hrun; try discriminate.
  injection Hrun as <-. split; [reflexivity|].
  apply governor_steps_inv; [exact Hp | apply governor_init_inv; assumption | exact Hev].
Qed.

Lemma single_tier_inv evs g :
  costs_nonneg p evs -> run rev p evs = SingleTier g ->
  g = fold_left (simple_step p) evs (simple_init p) /\ simple_inv p g.
Proof.
  intros Hev Hrun.
  destruct (run_cases rev p evs) as [[_ E]|[(_ & _ & E)|(_ & Hlt & E)]];
    rewrite E in Hrun; try discriminate.
  injection Hrun as <-. split; [reflexivity|].
  apply simple_steps_inv; [exact Hp | apply simple_init_inv; assumption | exact Hev].
Qed.

(** In the single-tier form the weight taken from [sem] is the cost in
    the wrapped handler. *)
Lemma single_tier_in_flight evs :
  let g := fold_left (simple_step p) evs (simple_init p) in
  total in_flight (s_goroutines g) = total holds_concurrent (s_goroutines g).
Proof.
  intros g. apply total_ext. intros id t Ht.
  destruct (single_tier_local_ok p evs id t Ht) as (_ & Hpc & _ & Hb).
  unfold in_flight, holds_concurrent.
  destruct (g_at t) eqn:E; try reflexivity; try discriminate.
  apply Hb. auto.
Qed.

End reachable.

(** X12.  The single-tier governor keeps its bound: in every state it
    can reach the costs of the requests in the wrapped handler sum to
    at most [MaxConcurrency]; nothing is ever queued, in the governor
    or inside the semaphore. *)
Theorem single_tier_cost_bound
  (rev : semaphore.revision) (p : Params) (evs : list event) :
  params_ok p ->
  MaxBurst p <= MaxConcurrency p ->
  costs_nonneg p evs ->
  exists g, run rev p evs = SingleTier g /\
    total in_flight (s_goroutines g) <= MaxConcurrency p /\
    total queued (s_goroutines g) = 0 /\
    semaphore.waiters (sem g) = [].
Proof.
  intros Hp Hle Hev. pose proof Hp as (Hp1 & _).
  exists (fold_left (simple_step p) evs (simple_init p)).
  assert (Hrun : run rev p evs
                 = SingleTier (fold_left (simple_step p) evs (simple_init p)))
    by (apply run_single_tier; lia).
  split; [exact Hrun|].
  destruct (single_tier_inv rev p Hp evs _ Hev Hrun) as [_ [Hsem Hgs Hat]].
  split; [|split].
  - rewrite (single_tier_in_flight p evs).
    destruct Hsem as (_ & Hcur & Hcle & _). rewrite <- Hcur. exact Hcle.
  - apply total_zero. intros id t Ht. specialize (Hat id t Ht).
    unfold queued. destruct (g_at t); try reflexivity; discriminate.
  - eapply simple_no_waiters; eassumption.
Qed.

Lemma single_params_ok : params_ok single_params.
Proof. unfold params_ok, int64.max. simpl. lia. Qed.

Lemma single_scenario_nonneg : costs_nonneg single_params single_scenario.
Proof.
  unfold costs_nonneg, single_scenario.
  repeat (constructor; [first [exact I | unfold cost_of; simpl; lia]|]).
  constructor.
Qed.

Lemma settled_scenario_nonneg : costs_nonneg queueing_params settled_scenario.
Proof.
  unfold costs_nonneg, settled_scenario.
  repeat (constructor; [first [exact I | unfold cost_of; simpl; lia]|]).
  constructor.
Qed.

Lemma single_tier_cost_bound_witness :
  params_ok single_params /\
  MaxBurst single_params <= MaxConcurrency single_params /\
  costs_nonneg single_params single_scenario /\
  exists g, run semaphore.Plain single_params single_scenario = SingleTier g /\
    total in_flight (s_goroutines g) <= MaxConcurrency single_params /\
    total queued (s_goroutines g) = 0 /\
    semaphore.waiters (sem g) = [].
Proof.
  split; [exact single_params_ok|]. split; [simpl; lia|].
  split; [exact single_scenario_nonneg|].
  apply (single_tier_cost_bound semaphore.Plain single_params single_scenario).
  - exact single_params_ok.
  - simpl; lia.
  - exact single_scenario_nonneg.
Defined.

(** X13.  No deferred [Release] panics: in every state either governor
    can reach, no goroutine has released more than the pool held, and
    the counters of the pools lie between 0 and the pool sizes. *)
Theorem release_never_panics
  (rev : semaphore.revision) (p : Params) (evs : list event)
  (id : nat) (t : goroutine) :
  params_ok p ->
  costs_nonneg p evs ->
  match run rev p evs with
  | PassThrough => True
  | SingleTier g =>
      0 <= semaphore.cur (sem g) <= MaxConcurrency p /\
      (s_goroutines g !! id = Some t ->
       g_panicked t = false /\ g_at t <> Finished Panicked)
  | TwoTier g =>
      0 <= semaphore.cur (concurrent g) <= MaxConcurrency p /\
      0 <= semaphore.cur (burst g) <= MaxBurst p /\
      (goroutines g !! id = Some t ->
       g_panicked t = false /\
       g_at t <> Unwinding Panicked /\ g_at t <> Finished Panicked)
  end.
Proof.
  intros Hp Hev.
  destruct (run rev p evs) as [|g|g] eqn:Hrun; [exact I| |].
  - destruct (single_tier_inv rev p Hp evs g Hev Hrun) as [_ [Hsem Hgs Hat]].
    split; [eapply concurrent_range; eassumption|].
    intros Ht. destruct (Hgs id t Ht) as (_ & Hpan & _ & Hfin & _). auto.
  - destruct (two_tier_inv rev p Hp evs g Hev Hrun) as [_ [Hc Hb Hgs]].
    split; [eapply concurrent_range; eassumption|].
    split; [eapply burst_range; eassumption|].
    intros Ht. destruct (Hgs id t Ht) as (_ & Hpan & Hun & Hfin & _). auto.
Qed.

Lemma release_never_panics_witness :
  params_ok queueing_params /\
  costs_nonneg queueing_params settled_scenario /\
  match run semaphore.CheckContext queueing_params settled_scenario with
  | TwoTier g =>
      0 <= semaphore.cur (concurrent g) <= MaxConcurrency queueing_params /\
      0 <= semaphore.cur (burst g) <= MaxBurst queueing_params /\
      forall t, goroutines g !! 2%nat = Some t -> g_panicked t = false
  | _ => False
  end.
Proof.
  split; [exact queueing_params_ok|]. split; [exact settled_scenario_nonneg|].
  pose proof (fun t => release_never_panics semaphore.CheckContext queueing_params
                settled_scenario 2 t queueing_params_ok settled_scenario_nonneg) as H.
  destruct (run semaphore.CheckContext queueing_params settled_scenario) as [|g|g] eqn:E;
    [vm_compute in E; discriminate E | vm_compute in E; discriminate E |].
  split; [apply (H (spawn 1))|]. split; [apply (H (spawn 1))|].
  intros t Ht. destruct (H t) as (_ & _ & Hx). apply Hx, Ht.
Defined.

(** ** Coming to rest *)

Lemma weighted_idle limit (c : semaphore.Weighted) :
  semaphore.size c = limit -> semaphore.cur c = 0 -> semaphore.waiters c = [] ->
  c = semaphore.NewWeighted limit.
Proof. destruct c. simpl. intros -> -> ->. reflexivity. Qed.

Lemma quiescent_concurrent_idle limit c gs :
  concurrent_ok limit c gs -> quiescent gs -> c = semaphore.NewWeighted limit.
Proof.
  intros (Hsize & Hcur & _ & _ & Hw) Hq. apply weighted_idle; [exact Hsize| |].
  - rewrite Hcur. apply total_zero. intros id t Ht.
    destruct (Hq id t Ht) as [o Ho]. unfold holds_concurrent. rewrite Ho. reflexivity.
  - destruct (semaphore.waiters c) as [|w ws]; [reflexivity|].
    destruct (Hw w ltac:(apply elem_of_cons; auto)) as (t & Ht & Hat & _).
    destruct (Hq _ t Ht) as [o Ho]. congruence.
Qed.

Lemma quiescent_burst_idle limit b gs :
  burst_ok limit b gs -> quiescent gs -> b = semaphore.NewWeighted limit.
Proof.
  intros (Hsize & Hcur & _ & Hw) Hq. apply weighted_idle; [exact Hsize| |exact Hw].
  rewrite Hcur. apply total_zero. intros id t Ht.
  destruct (Hq id t Ht) as [o Ho]. unfold holds_burst. rewrite Ho. reflexivity.
Qed.

(** X14.  Nothing leaks: whenever all requests seen so far have run to
    their end, whichever way each ended, the pools are as [New] made
    them, with no weight taken and nobody waiting. *)
Theorem quiescent_pools_idle
  (rev : semaphore.revision) (p : Params) (evs : list event) :
  params_ok p ->
  costs_nonneg p evs ->
  match run rev p evs with
  | PassThrough => True
  | SingleTier g =>
      quiescent (s_goroutines g) ->
      sem g = semaphore.NewWeighted (MaxConcurrency p)
  | TwoTier g =>
      quiescent (goroutines g) ->
      concurrent g = semaphore.NewWeighted (MaxConcurrency p) /\
      burst g = semaphore.NewWeighted (MaxBurst p)
  end.
Proof.
  intros Hp Hev.
  destruct (run rev p evs) as [|g|g] eqn:Hrun; [exact I| |].
  - destruct (single_tier_inv rev p Hp evs g Hev Hrun) as [_ [Hsem _ _]].
    intros Hq. eapply quiescent_concurrent_idle; eassumption.
  - destruct (two_tier_inv rev p Hp evs g Hev Hrun) as [_ [Hc Hb _]].
    intros Hq. split.
    + eapply quiescent_concurrent_idle; eassumption.
    + eapply quiescent_burst_idle; eassumption.
Qed.

Lemma quiescent_pools_idle_witness :
  params_ok queueing_params /\
  costs_nonneg queueing_params settled_scenario /\
  match run semaphore.CheckContext queueing_params settled_scenario with
  | TwoTier g =>
      quiescent (goroutines g) /\
      concurrent g = semaphore.NewWeighted 1 /\
      burst g = semaphore.NewWeighted 2
  | _ => False
  end.
Proof.
  split; [exact queueing_params_ok|]. split; [exact settled_scenario_nonneg|].
  pose proof (quiescent_pools_idle semaphore.CheckContext queueing_params
                settled_scenario queueing_params_ok settled_scenario_nonneg) as H.
  destruct (run semaphore.CheckContext queueing_params settled_scenario) as [|g|g] eqn:E;
    [vm_compute in E; discriminate E | vm_compute in E; discriminate E |].
  assert (Hq : quiescent (goroutines g)).
  { assert (Hg : goroutines g
                 = <[1%nat := goto (goto (spawn 1) (Serving Immediate)
                                      [Acquired Burst; Acquired Concurrent; Forward])
                                (Finished ConcurrentImmediate)
                                [Released Concurrent; Released Burst]]>
                     {[2%nat := queued_goroutine]}).
    { vm_compute in E. injection E as <-. vm_compute. reflexivity. }
    rewrite Hg. apply map_Forall_insert_2; [eexists; reflexivity|].
    apply map_Forall_singleton. eexists; reflexivity. }
  split; [exact Hq | exact (H Hq)].
Defined.

(** ** The paths of a request *)

Lemma two_tier_goroutine rev p evs g id t :
  run rev p evs = TwoTier g -> goroutines g !! id = Some t -> local_ok p t.
Proof.
  intros Hrun Hid.
  destruct (run_cases rev p evs) as [[_ E]|[(_ & _ & E)|(_ & _ & E)]];
    rewrite E in Hrun; try discriminate.
  injection Hrun as <-. eapply two_tier_local_ok, Hid.
Qed.

Lemma single_tier_goroutine rev p evs g id t :
  run rev p evs = SingleTier g -> s_goroutines g !! id = Some t ->
  simple_local_ok p t.
Proof.
  intros Hrun Hid.
  destruct (run_cases rev p evs) as [[_ E]|[(_ & _ & E)|(_ & _ & E)]];
    rewrite E in Hrun; try discriminate.
  injection Hrun as <-. eapply single_tier_local_ok, Hid.
Qed.

Ltac traces :=
  unfold trace_at, simple_trace_at, admitted_trace, overload, served,
    counter_inc, gauge_inc, gauge_dec, observe.

(** X15.  A request that the two-tier governor served has done exactly
    this: taken the burst weight, then the concurrent weight (right
    away, or inside [queue()] between the gauge's [Inc] and [Dec],
    with the queueing time observed), been forwarded once, and given
    back the concurrent and then the burst weight.  The overload
    handler and counter were not touched. *)
Theorem admitted_paths
  (rev : semaphore.revision) (p : Params) (evs : list event) (g : governor)
  (id : nat) (t : goroutine) (r : route) :
  run rev p evs = TwoTier g ->
  goroutines g !! id = Some t ->
  g_at t = Finished (admitted r) ->
  g_trace t = admitted_trace p r /\
  count Forward t = 1%nat /\
  count OverloadHandler t = 0%nat /\
  count CounterInc t = 0%nat /\
  count (Acquired Burst) t = 1%nat /\
  count (Released Burst) t = 1%nat /\
  count (Acquired Concurrent) t = 1%nat /\
  count (Released Concurrent) t = 1%nat /\
  count GaugeInc t = count GaugeDec t /\
  count Observe t
  = (match r with
     | Queued => if QueueDurationObserver p then 1 else 0
     | Immediate => 0
     end)%nat.
Proof.
  intros Hrun Hid Hat.
  destruct (two_tier_goroutine rev p evs g id t Hrun Hid) as (Htr & _).
  rewrite Hat in Htr. unfold count. rewrite Htr.
  destruct r; traces;
    destruct (QueueLengthGauge p), (QueueDurationObserver p);
    repeat split; reflexivity.
Qed.

Lemma admitted_paths_witness :
  run semaphore.CheckContext queueing_params settled_scenario
    = TwoTier (fold_left (governor_step semaphore.CheckContext queueing_params)
                 settled_scenario (governor_init queueing_params)) /\
  goroutines (fold_left (governor_step semaphore.CheckContext queueing_params)
                settled_scenario (governor_init queueing_params)) !! 2%nat
    = Some queued_goroutine /\
  g_at queued_goroutine = Finished (admitted Queued) /\
  g_trace queued_goroutine = admitted_trace queueing_params Queued /\
  count Observe queued_goroutine = 1%nat.
Proof.
  assert (H1 : run semaphore.CheckContext queueing_params settled_scenario
               = TwoTier (fold_left (governor_step semaphore.CheckContext queueing_params)
                            settled_scenario (governor_init queueing_params)))
    by (apply run_two_tier; [intros E; inversion E | reflexivity]).
  assert (H2 : goroutines (fold_left (governor_step semaphore.CheckContext queueing_params)
                             settled_scenario (governor_init queueing_params)) !! 2%nat
               = Some queued_goroutine)
    by (vm_compute; reflexivity).
  split; [exact H1|]. split; [exact H2|]. split; [reflexivity|].
  destruct (admitted_paths semaphore.CheckContext queueing_params settled_scenario _ 2
              queued_goroutine Queued H1 H2 eq_refl)
    as (Ha & _ & _ & _ & _ & _ & _ & _ & _ & Hb).
  split; [exact Ha | exact Hb].
Defined.

(** X16.  With costs of at least 0, in every state either governor can
    reach, each request has been given to at most one of the two
    handlers and at most once; once it has run to its end, to exactly
    one; and the overload counter, when set, was incremented exactly as
    often as the overload handler was called. *)
Theorem one_handler_per_request
  (rev : semaphore.revision) (p : Params) (evs : list event)
  (id : nat) (t : goroutine) :
  params_ok p ->
  costs_nonneg p evs ->
  match run rev p evs with
  | PassThrough => True
  | SingleTier g => s_goroutines g !! id = Some t -> handled_once p t
  | TwoTier g => goroutines g !! id = Some t -> handled_once p t
  end.
Proof.
  intros Hp Hev.
  destruct (run rev p evs) as [|g|g] eqn:Hrun; [exact I| |]; intros Hid.
  - destruct (single_tier_goroutine rev p evs g id t Hrun Hid) as (Htr & Hpc & _).
    unfold handled_once, count. rewrite Htr.
    destruct (g_at t) as [| | | | | | |r| |o|o]; try discriminate Hpc;
      try destruct r; try destruct o; try discriminate Hpc; traces;
      destruct (RequestOverloadCounter p);
      (split; [simpl; lia|]); (split; [reflexivity|]);
      intros o' [= <-]; reflexivity.
  - destruct (two_tier_goroutine rev p evs g id t Hrun Hid) as (Htr & _).
    destruct (two_tier_inv rev p Hp evs g Hev Hrun) as [_ [_ _ Hgs]].
    destruct (Hgs id t Hid) as (_ & _ & _ & Hfin & _).
    unfold handled_once, count. rewrite Htr.
    destruct (g_at t) as [| | | | | | |r| |o|o];
      try destruct r; try destruct o; try congruence; traces;
      destruct (RequestOverloadCounter p), (QueueLengthGauge p),
        (QueueDurationObserver p);
      (split; [simpl; lia|]); (split; [reflexivity|]);
      intros o' [= <-]; reflexivity.
Qed.

Lemma one_handler_per_request_witness :
  params_ok queueing_params /\
  costs_nonneg queueing_params settled_scenario /\
  match run semaphore.CheckContext queueing_params settled_scenario with
  | TwoTier g =>
      goroutines g !! 2%nat = Some queued_goroutine /\
      handled_once queueing_params queued_goroutine
  | _ => False
  end.
Proof.
  split; [exact queueing_params_ok|]. split; [exact settled_scenario_nonneg|].
  pose proof (one_handler_per_request semaphore.CheckContext queueing_params
                settled_scenario 2 queued_goroutine
                queueing_params_ok settled_scenario_nonneg) as H.
  destruct (run semaphore.CheckContext queueing_params settled_scenario) as [|g|g] eqn:E;
    [vm_compute in E; discriminate E | vm_compute in E; discriminate E |].
  assert (Hg : goroutines g !! 2%nat = Some queued_goroutine).
  { vm_compute in E. injection E as <-. vm_compute. reflexivity. }
  split; [exact Hg | exact (H Hg)].
Defined.

(** X17.  The queue metrics of the two-tier governor: for each request
    the gauge has gone up once more than down exactly while the request
    is inside [queue()], and is level otherwise; and the queueing time
    was observed once for a request that [queue()] let through, and
    never for one served at once, turned away or timed out. *)
Theorem queue_metrics
  (rev : semaphore.revision) (p : Params) (evs : list event) (g : governor)
  (id : nat) (t : goroutine) :
  run rev p evs = TwoTier g ->
  goroutines g !! id = Some t ->
  count GaugeInc t
  = (count GaugeDec t
     + if QueueLengthGauge p && in_queue (g_at t) then 1 else 0)%nat /\
  (count GaugeDec t <= 1)%nat /\
  count Observe t
  = (if QueueDurationObserver p && was_queued (g_at t) then 1 else 0)%nat.
Proof.
  intros Hrun Hid.
  destruct (two_tier_goroutine rev p evs g id t Hrun Hid) as (Htr & _).
  unfold count. rewrite Htr.
  destruct (g_at t) as [| | | | | | |r| |o|o];
    try destruct r; try destruct o; traces;
    destruct (RequestOverloadCounter p), (QueueLengthGauge p),
      (QueueDurationObserver p);
    (split; [reflexivity|]); (split; [simpl; lia | reflexivity]).
Qed.

Lemma queue_metrics_witness :
  run semaphore.Plain queueing_params waiting_scenario
    = TwoTier (fold_left (governor_step semaphore.Plain queueing_params)
                 waiting_scenario (governor_init queueing_params)) /\
  goroutines (fold_left (governor_step semaphore.Plain queueing_params)
                waiting_scenario (governor_init queueing_params)) !! 2%nat
    = Some waiting_goroutine /\
  count GaugeInc waiting_goroutine = 1%nat /\
  count GaugeDec waiting_goroutine = 0%nat /\
  count Observe waiting_goroutine = 0%nat.
Proof.
  assert (H1 : run semaphore.Plain queueing_params waiting_scenario
               = TwoTier (fold_left (governor_step semaphore.Plain queueing_params)
                            waiting_scenario (governor_init queueing_params)))
    by (apply run_two_tier; [intros E; inversion E | reflexivity]).
  assert (H2 : goroutines (fold_left (governor_step semaphore.Plain queueing_params)
                             waiting_scenario (governor_init queueing_params)) !! 2%nat
               = Some waiting_goroutine)
    by (vm_compute; reflexivity).
  split; [exact H1|]. split; [exact H2|].
  destruct (queue_metrics semaphore.Plain queueing_params waiting_scenario _ 2
              waiting_goroutine H1 H2) as (Ha & _ & Hb).
  split; [exact Ha|]. split; [reflexivity | exact Hb].
Defined.

(** X18.  A request of the single-tier governor ends in one of three
    ways: forwarded without a permit when its cost is 0; forwarded
    between one acquire and one release of [sem]; or handed to the
    overload handler after the counter increment, holding nothing.  The
    single-tier governor never touches the gauge or the observer, and
    never releases what it did not acquire. *)
Theorem single_tier_paths
  (rev : semaphore.revision) (p : Params) (evs : list event) (g : simpleGovernor)
  (id : nat) (t : goroutine) :
  run rev p evs = SingleTier g ->
  s_goroutines g !! id = Some t ->
  count GaugeInc t = 0%nat /\ count GaugeDec t = 0%nat /\
  count Observe t = 0%nat /\
  (count (Released Sem) t <= count (Acquired Sem) t <= count Forward t)%nat /\
  (forall o, g_at t = Finished o ->
     (o = FreeBypass /\ g_cost t = 0 /\ g_trace t = [Forward]) \/
     (o = ConcurrentImmediate /\ g_cost t <> 0 /\
      g_trace t = [Acquired Sem; Forward; Released Sem]) \/
     (o = BurstDenied /\ g_cost t <> 0 /\ g_trace t = overload p)).
Proof.
  intros Hrun Hid.
  destruct (single_tier_goroutine rev p evs g id t Hrun Hid) as (Htr & Hpc & Hz & Hb).
  unfold count. rewrite Htr.
  assert (Hnz : forall o, g_at t = Finished o -> o <> FreeBypass -> g_cost t <> 0).
  { intros o Ho Hne H0. destruct (Hz H0) as [E|[E|E]]; congruence. }
  destruct (g_at t) as [| | | | | | |r| |o|o] eqn:Hat; try discriminate Hpc;
    try destruct r; try destruct o; try discriminate Hpc; traces;
    destruct (RequestOverloadCounter p);
    (split; [reflexivity|]); (split; [reflexivity|]); (split; [reflexivity|]);
    (split; [simpl; lia|]); intros o' [= <-];
    first [ left; split; [reflexivity|]; split; [apply Hb; auto | reflexivity]
          | right; left; split; [reflexivity|];
            split; [eapply Hnz; [reflexivity | discriminate] | reflexivity]
          | right; right; split; [reflexivity|];
            split; [eapply Hnz; [reflexivity | discriminate] | reflexivity] ].
Qed.

Lemma single_tier_paths_witness :
  run semaphore.Plain single_params single_scenario
    = SingleTier (fold_left (simple_step single_params) single_scenario
                    (simple_init single_params)) /\
  s_goroutines (fold_left (simple_step single_params) single_scenario
                  (simple_init single_params)) !! 2%nat
    = Some denied_goroutine /\
  count GaugeInc denied_goroutine = 0%nat /\
  g_trace denied_goroutine = overload single_params.
Proof.
  assert (H1 : run semaphore.Plain single_params single_scenario
               = SingleTier (fold_left (simple_step single_params) single_scenario
                               (simple_init single_params)))
    by (apply run_single_tier; [intros E; inversion E | simpl; lia]).
  assert (H2 : s_goroutines (fold_left (simple_step single_params) single_scenario
                               (simple_init single_params)) !! 2%nat
               = Some denied_goroutine)
    by (vm_compute; reflexivity).
  split; [exact H1|]. split; [exact H2|].
  destruct (single_tier_paths semaphore.Plain single_params single_scenario _ 2
              denied_goroutine H1 H2) as (Ha & _ & _ & _ & Hb).
  split; [exact Ha|].
  destruct (Hb BurstDenied eq_refl) as [(E & _)|[(E & _)|(_ & _ & Ht)]];
    [inversion E | inversion E | exact Ht].
Defined.

(** ** Admission is exact *)

(** X19.  The single-tier governor turns a request away only for lack
    of room: a request of cost other than 0 is let in by its first
    step exactly if its cost is at most what [MaxConcurrency] leaves
    beside the requests in the wrapped handler. *)
Theorem single_tier_admission_exact
  (rev : semaphore.revision) (p : Params) (evs : list event) (g : simpleGovernor)
  (id : nat) (t : goroutine) :
  params_ok p ->
  costs_nonneg p evs ->
  run rev p evs = SingleTier g ->
  s_goroutines g !! id = Some t ->
  g_at t = Start ->
  g_cost t <> 0 ->
  s_goroutines (simple_run p id g) !! id
  = Some (if g_cost t <=? MaxConcurrency p - total in_flight (s_goroutines g)
          then goto t (Serving Immediate) [Acquired Sem; Forward]
          else goto t Denied []).
Proof.
  intros Hp Hev Hrun Hid Hat Hc.
  destruct (single_tier_inv rev p Hp evs g Hev Hrun) as [-> [Hsem Hgs Hpc]].
  rewrite (single_tier_in_flight p evs).
  pose proof (concurrent_range _ _ _ Hsem Hgs) as Hr.
  pose proof (simple_no_waiters _ _ _ Hsem Hpc) as Hw.
  destruct Hsem as (Hsize & Hcur & _ & _).
  destruct (Hgs id t Hid) as (Hc0 & _).
  destruct Hp as (_ & Hmax & _).
  unfold simple_run. rewrite Hid, Hat.
  destruct (Z.eqb_spec (g_cost t) 0) as [|_]; [contradiction|].
  rewrite TryAcquire_spec by (rewrite ?Hsize; lia).
  rewrite Hw, Hsize, <- Hcur. simpl. rewrite andb_true_r.
  destruct (g_cost t <=? _); simpl; apply lookup_insert_eq.
Qed.

Lemma single_tier_admission_exact_witness :
  params_ok single_params /\
  costs_nonneg single_params [Arrive 1 (mkRequest "example.com" "/")] /\
  run semaphore.Plain single_params [Arrive 1 (mkRequest "example.com" "/")]
    = SingleTier (fold_left (simple_step single_params)
                    [Arrive 1 (mkRequest "example.com" "/")] (simple_init single_params)) /\
  s_goroutines (fold_left (simple_step single_params)
                  [Arrive 1 (mkRequest "example.com" "/")] (simple_init single_params))
    !! 1%nat = Some (spawn 1) /\
  s_goroutines (simple_run single_params 1
                  (fold_left (simple_step single_params)
                     [Arrive 1 (mkRequest "example.com" "/")]
                     (simple_init single_params))) !! 1%nat
    = Some (goto (spawn 1) (Serving Immediate) [Acquired Sem; Forward]).
Proof.
  assert (H0 : costs_nonneg single_params [Arrive 1 (mkRequest "example.com" "/")]).
  { repeat (constructor; [unfold cost_of; simpl; lia|]). constructor. }
  assert (H1 : run semaphore.Plain single_params [Arrive 1 (mkRequest "example.com" "/")]
               = SingleTier (fold_left (simple_step single_params)
                               [Arrive 1 (mkRequest "example.com" "/")]
                               (simple_init single_params)))
    by (apply run_single_tier; [intros E; inversion E | simpl; lia]).
  assert (H2 : s_goroutines (fold_left (simple_step single_params)
                               [Arrive 1 (mkRequest "example.com" "/")]
                               (simple_init single_params)) !! 1%nat
               = Some (spawn 1))
    by (vm_compute; reflexivity).
  split; [exact single_params_ok|]. split; [exact H0|].
  split; [exact H1|]. split; [exact H2|].
  rewrite (single_tier_admission_exact semaphore.Plain single_params _ _ 1 (spawn 1)
             single_params_ok H0 H1 H2 eq_refl ltac:(simpl; lia)).
  vm_compute. reflexivity.
Defined.

(** X20.  Likewise the burst pool of the two-tier governor: a request
    of cost other than 0 gets past the burst limit exactly if its cost
    is at most what [MaxBurst] leaves beside the requests that hold
    burst weight (those queued, in the wrapped handler or on their way
    out); otherwise it is turned away without queueing. *)
Theorem burst_admission_exact
  (rev : semaphore.revision) (p : Params) (evs : list event) (g : governor)
  (id : nat) (t : goroutine) :
  params_ok p ->
  costs_nonneg p evs ->
  run rev p evs = TwoTier g ->
  goroutines g !! id = Some t ->
  g_at t = Start ->
  g_cost t <> 0 ->
  goroutines (governor_run rev p id g) !! id
  = Some (if g_cost t <=? MaxBurst p - total holds_burst (goroutines g)
          then goto t BurstGranted [Acquired Burst]
          else goto t Denied []).
Proof.
  intros Hp Hev Hrun Hid Hat Hc.
  destruct (two_tier_inv rev p Hp evs g Hev Hrun) as [_ [Hcon Hb Hgs]].
  pose proof (burst_range _ _ _ Hb Hgs) as Hr.
  destruct Hb as (Hsize & Hcur & _ & Hw).
  destruct (Hgs id t Hid) as (Hc0 & _).
  destruct Hp as (_ & _ & Hmax).
  unfold governor_run. rewrite Hid, Hat.
  destruct (Z.eqb_spec (g_cost t) 0) as [|_]; [contradiction|].
  rewrite TryAcquire_spec by (rewrite ?Hsize; lia).
  rewrite Hw, Hsize, <- Hcur. simpl. rewrite andb_true_r.
  destruct (g_cost t <=? _); simpl; apply lookup_insert_eq.
Qed.

Lemma full_scenario_nonneg : costs_nonneg queueing_params full_scenario.
Proof.
  unfold costs_nonneg, full_scenario, waiting_scenario. simpl.
  repeat (constructor; [first [exact I | unfold cost_of; simpl; lia]|]).
  constructor.
Qed.

Lemma burst_admission_exact_witness :
  params_ok queueing_params /\
  costs_nonneg queueing_params full_scenario /\
  run semaphore.Plain queueing_params full_scenario
    = TwoTier (fold_left (governor_step semaphore.Plain queueing_params)
                 full_scenario (governor_init queueing_params)) /\
  goroutines (fold_left (governor_step semaphore.Plain queueing_params)
                full_scenario (governor_init queueing_params)) !! 3%nat
    = Some (spawn 1) /\
  goroutines (governor_run semaphore.Plain queueing_params 3
                (fold_left (governor_step semaphore.Plain queueing_params)
                   full_scenario (governor_init queueing_params))) !! 3%nat
    = Some (goto (spawn 1) Denied []).
Proof.
  assert (H1 : run semaphore.Plain queueing_params full_scenario
               = TwoTier (fold_left (governor_step semaphore.Plain queueing_params)
                            full_scenario (governor_init queueing_params)))
    by (apply run_two_tier; [intros E; inversion E | reflexivity]).
  assert (H2 : goroutines (fold_left (governor_step semaphore.Plain queueing_params)
                             full_scenario (governor_init queueing_params)) !! 3%nat
               = Some (spawn 1))
    by (vm_compute; reflexivity).
  split; [exact queueing_params_ok|]. split; [exact full_scenario_nonneg|].
  split; [exact H1|]. split; [exact H2|].
  rewrite (burst_admission_exact semaphore.Plain queueing_params _ _ 3 (spawn 1)
             queueing_params_ok full_scenario_nonneg H1 H2 eq_refl ltac:(simpl; lia)).
  vm_compute. reflexivity.
Defined.

(** * The root of a subtree *)

Lemma HasPrefix_longer s p :
  (String.length s < String.length p)%nat -> strings.HasPrefix s p = false.
Proof.
  intros H. destruct (strings.HasPrefix s p) eqn:E; [|reflexivity].
  apply HasPrefix_length in E. lia.
Qed.

Lemma length_sapp s t :
  String.length (s ++ t) = (String.length s + String.length t)%nat.
Proof.
  induction s as [|b s IH]; rewrite ?sapp_nil, ?sapp_cons; simpl; [reflexivity|].
  rewrite IH. reflexivity.
Qed.

Lemma EstimateCost_no_match c req :
  no_match c (hostKey req) -> no_match c (pathKey req) -> EstimateCost c req = 1.
Proof.
  intros Hh Hp. destruct (hasHost c) eqn:E.
  - rewrite EstimateCost_host by exact E.
    rewrite (match_miss _ _ Hh). simpl. rewrite (match_miss _ _ Hp). reflexivity.
  - rewrite EstimateCost_no_host by exact E.
    rewrite (match_miss _ _ Hp). reflexivity.
Qed.

(** X21.  A subtree pattern does not cover the root of its subtree:
    [SetCost] keeps the trailing slash in the key, [EstimateCost] cleans
    it off the request path, and [match] asks for the key to be a prefix
    of the candidate.  So a request whose candidate key is the
    pattern's key without the final slash (a request for [/api/] or
    [/api] against the pattern [/api/]) is not matched by it, and
    costs the default 1 unless something else matches. *)
Theorem subtree_root_not_matched
  (c : PatternCostEstimator) (pattern : string) (cost : Z) (req : Request) :
  strings.at_ (stripPort (Host req)) 0 <> "/"%char ->
  strings.at_ (URL_Path req) 0 = "/"%char ->
  patternKey pattern = pathKey req ++ "/" \/
  patternKey pattern = hostKey req ++ "/" ->
  strings.HasPrefix (hostKey req) (patternKey pattern) = false /\
  strings.HasPrefix (pathKey req) (patternKey pattern) = false /\
  (no_match c (hostKey req) -> no_match c (pathKey req) ->
   EstimateCost (SetCost c pattern cost) req = 1).
Proof.
  intros Hhost Hurl Hkey.
  assert (Hlen : (String.length (pathKey req) <= String.length (hostKey req))%nat).
  { unfold hostKey, pathKey. rewrite length_sapp. lia. }
  assert (Hk : strings.HasPrefix (hostKey req) (patternKey pattern) = false /\
               strings.HasPrefix (pathKey req) (patternKey pattern) = false).
  { destruct Hkey as [-> | ->].
    - split; [|apply HasPrefix_longer; rewrite length_sapp; simpl; lia].
      unfold hostKey, pathKey in *.
      destruct (Clean_rooted _ Hurl) as [rest ->].
      destruct (stripPort (Host req)) as [|a h]; rewrite ?sapp_nil, ?sapp_cons.
      + apply HasPrefix_longer. rewrite <- sapp_cons, length_sapp. simpl. lia.
      + apply HasPrefix_head. rewrite at_0_cons in Hhost. exact Hhost.
    - split; apply HasPrefix_longer; rewrite length_sapp; simpl; lia. }
  destruct Hk as [Hk1 Hk2]. split; [exact Hk1|]. split; [exact Hk2|].
  intros Hn1 Hn2. apply EstimateCost_no_match; apply no_match_SetCost; assumption.
Qed.

Lemma subtree_root_not_matched_witness :
  strings.at_ (stripPort (Host (mkRequest "example.com" "/api/"))) 0 <> "/"%char /\
  strings.at_ (URL_Path (mkRequest "example.com" "/api/")) 0 = "/"%char /\
  patternKey "/api/" = pathKey (mkRequest "example.com" "/api/") ++ "/" /\
  EstimateCost (SetCost newPatternCostEstimator "/api/" 5)
    (mkRequest "example.com" "/api/") = 1 /\
  EstimateCost (SetCost newPatternCostEstimator "/api/" 5)
    (mkRequest "example.com" "/api/x") = 5.
Proof.
  assert (H1 : strings.at_ (stripPort (Host (mkRequest "example.com" "/api/"))) 0
               <> "/"%char)
    by (vm_compute; discriminate).
  assert (H2 : patternKey "/api/" = pathKey (mkRequest "example.com" "/api/") ++ "/")
    by reflexivity.
  split; [exact H1|]. split; [reflexivity|]. split; [exact H2|].
  split; [|reflexivity].
  apply (subtree_root_not_matched newPatternCostEstimator "/api/" 5
           (mkRequest "example.com" "/api/") H1 eq_refl (or_introl H2));
    (split; [reflexivity | constructor]).
Defined.

(** * Every request comes to its end *)

Section progress.

Context (rev : semaphore.revision) (p : Params).

Lemma move_rank l cost l' acts :
  move p l cost l' acts -> (rank l' < rank l)%nat.
Proof. destruct 1; simpl; lia. Qed.

Lemma rank_finished l : rank l = 0%nat -> exists o, l = Finished o.
Proof. destruct l; simpl; try discriminate. eauto. Qed.

Lemma moved_at g g' id0 id t :
  moved p g g' id0 -> goroutines g !! id = Some t ->
  exists t', goroutines g' !! id = Some t' /\ g_done t' = g_done t /\
    (rank (g_at t') <= rank (g_at t))%nat.
Proof.
  intros (t0 & l & acts & closed & b & Ht0 & Hmv & Hg' & _) Ht.
  rewrite Hg', wake_lookup. destruct (decide (id0 = id)) as [->|Hne].
  - rewrite lookup_insert_eq. rewrite Ht in Ht0. injection Ht0 as <-.
    apply move_rank in Hmv.
    destruct (decide (id ∈ closed)); simpl; eexists;
      (split; [reflexivity|]); simpl; (split; [reflexivity | lia]).
  - rewrite lookup_insert_ne by exact Hne. rewrite Ht.
    destruct (decide (id ∈ closed)); simpl; eexists;
      (split; [reflexivity|]); simpl; (split; [reflexivity | lia]).
Qed.

(** No event sets a goroutine back, or revives its context. *)
Lemma step_mono g e id t :
  goroutines g !! id = Some t ->
  exists t', goroutines (governor_step rev p g e) !! id = Some t' /\
    (g_done t = true -> g_done t' = true) /\
    (rank (g_at t') <= rank (g_at t))%nat.
Proof.
  intros Ht. destruct e as [id0 req|id0|id0|id0]; simpl.
  - destruct (goroutines g !! id0) eqn:Hid0; [eauto|]. simpl.
    rewrite lookup_insert_ne by congruence. eauto.
  - destruct (decide (id0 = id)) as [->|Hne].
    + rewrite lookup_alter_eq, Ht. simpl. eexists. split; [reflexivity|]. simpl. auto.
    + rewrite lookup_alter_ne by exact Hne. eauto.
  - destruct (governor_run_shape rev p g id0) as [->|Hm]; [eauto|].
    destruct (moved_at _ _ _ _ _ Hm Ht) as (t' & Ht' & Hd & Hr).
    exists t'. rewrite Hd. auto.
  - destruct (governor_abort_shape rev p g id0) as [->|Hm]; [eauto|].
    destruct (moved_at _ _ _ _ _ Hm Ht) as (t' & Ht' & Hd & Hr).
    exists t'. rewrite Hd. auto.
Qed.

Lemma steps_mono evs : forall g id t,
  goroutines g !! id = Some t ->
  exists t', goroutines (fold_left (governor_step rev p) evs g) !! id = Some t' /\
    (g_done t = true -> g_done t' = true) /\
    (rank (g_at t') <= rank (g_at t))%nat.
Proof.
  induction evs as [|e evs IH]; intros g id t Ht; simpl; [eauto|].
  destruct (step_mono g e id t Ht) as (t1 & Ht1 & Hd1 & Hr1).
  destruct (IH _ id t1 Ht1) as (t2 & Ht2 & Hd2 & Hr2).
  exists t2. split; [exact Ht2|]. split; [auto | lia].
Qed.

(** A goroutine whose context is done does not stay blocked in
    [Acquire]. *)
Lemma abort_unblocks g id t :
  goroutines g !! id = Some t -> g_done t = true ->
  exists t', goroutines (governor_abort rev p id g) !! id = Some t' /\
    g_done t' = true /\
    (rank (g_at t') <= rank (g_at t))%nat /\ rank (g_at t') <> 3%nat.
Proof.
  intros Ht Hd. unfold governor_abort. rewrite Ht, Hd.
  destruct (g_at t) eqn:Hat;
    try (exists t; rewrite Hat; simpl; repeat split; auto; lia).
  - simpl. rewrite lookup_insert_eq. eexists. split; [reflexivity|].
    simpl. repeat split; auto; lia.
  - destruct (semaphore.Acquire_cancel rev (concurrent g) (g_ready t) id (g_cost t))
      as [[c closed] [|]]; simpl; rewrite wake_lookup, lookup_insert_eq;
      destruct (decide (id ∈ closed)); simpl; eexists;
      (split; [reflexivity|]); simpl; repeat split; auto; lia.
Qed.

(** A goroutine that is not blocked in [Acquire] gets nearer to its end
    with every step of its own. *)
Lemma run_progress g id t :
  goroutines g !! id = Some t -> rank (g_at t) <> 3%nat ->
  exists t', goroutines (governor_run rev p id g) !! id = Some t' /\
    g_done t' = g_done t /\
    (rank (g_at t') <= pred (rank (g_at t)))%nat.
Proof.
  intros Ht Hr. unfold governor_run. rewrite Ht.
  destruct (g_at t) eqn:Hat; simpl in Hr; try congruence.
  - destruct (g_cost t =? 0).
    + simpl. rewrite lookup_insert_eq. eexists. split; [reflexivity|].
      simpl. split; [reflexivity | lia].
    + destruct (semaphore.TryAcquire (burst g) (g_cost t)) as [b [|]]; simpl;
        rewrite lookup_insert_eq; eexists; (split; [reflexivity|]);
        simpl; (split; [reflexivity | lia]).
  - simpl. rewrite lookup_insert_eq. eexists. split; [reflexivity|].
    simpl. split; [reflexivity | lia].
  - simpl. rewrite lookup_insert_eq. eexists. split; [reflexivity|].
    simpl. split; [reflexivity | lia].
  - destruct (semaphore.TryAcquire (concurrent g) (g_cost t)) as [c [|]]; simpl;
      rewrite lookup_insert_eq; eexists; (split; [reflexivity|]);
      simpl; (split; [reflexivity | lia]).
  - destruct (semaphore.Acquire_enter rev (concurrent g) (g_done t) id (g_cost t))
      as [c []]; simpl;
      rewrite lookup_insert_eq; eexists; (split; [reflexivity|]);
      simpl; (split; [reflexivity | lia]).
  - destruct (semaphore.Release (concurrent g) (g_cost t)) as [[c closed] panic].
    simpl. rewrite wake_lookup, lookup_insert_eq.
    destruct (decide (id ∈ closed)); simpl; eexists; (split; [reflexivity|]);
      simpl; (split; [reflexivity | lia]).
  - simpl. rewrite lookup_insert_eq. eexists. split; [reflexivity|].
    simpl. split; [reflexivity | lia].
  - destruct (semaphore.Release (burst g) (g_cost t)) as [[b closed] panic].
    simpl. rewrite wake_lookup, lookup_insert_eq.
    destruct (decide (id ∈ closed)); simpl; eexists; (split; [reflexivity|]);
      simpl; (split; [reflexivity | lia]).
  - exists t. rewrite Hat. simpl. split; [exact Ht|]. split; [reflexivity | lia].
Qed.

Lemma round_progress g id t before between :
  goroutines g !! id = Some t -> g_done t = true ->
  exists t',
    goroutines (fold_left (governor_step rev p)
                  (before ++ [Abort id] ++ between ++ [Run id])%list g) !! id
      = Some t' /\
    g_done t' = true /\ (rank (g_at t') <= pred (rank (g_at t)))%nat.
Proof.
  intros Ht Hd. rewrite !fold_left_app. simpl.
  destruct (steps_mono before g id t Ht) as (t1 & Ht1 & Hd1 & Hr1).
  destruct (abort_unblocks _ id t1 Ht1 (Hd1 Hd)) as (t2 & Ht2 & Hd2 & Hr2 & Hu2).
  destruct (steps_mono between _ id t2 Ht2) as (t3 & Ht3 & Hd3 & Hr3).
  destruct (Nat.eq_dec (rank (g_at t3)) 3%nat) as [E|E].
  - destruct (step_mono _ (Run id) id t3 Ht3) as (t4 & Ht4 & Hd4 & Hr4).
    exists t4. split; [exact Ht4|]. split; [auto | lia].
  - destruct (run_progress _ id t3 Ht3 E) as (t4 & Ht4 & Hd4 & Hr4).
    exists t4. split; [exact Ht4|]. split; [rewrite Hd4; auto | lia].
Qed.

Lemma rounds_progress gaps : forall g id t,
  goroutines g !! id = Some t -> g_done t = true ->
  exists t',
    goroutines (fold_left (governor_step rev p) (rounds id gaps) g) !! id = Some t' /\
    g_done t' = true /\ (rank (g_at t') <= rank (g_at t) - length gaps)%nat.
Proof.
  induction gaps as [|[before between] gaps IH]; intros g id t Ht Hd; simpl.
  - exists t. split; [exact Ht|]. split; [exact Hd | lia].
  - change (before ++ Abort id :: between ++ Run id :: rounds id gaps)%list
      with (before ++ [Abort id] ++ between ++ [Run id] ++ rounds id gaps)%list.
    rewrite !app_assoc, fold_left_app, <- !app_assoc.
    destruct (round_progress g id t before between Ht Hd) as (t1 & Ht1 & Hd1 & Hr1).
    destruct (IH _ id t1 Ht1 Hd1) as (t2 & Ht2 & Hd2 & Hr2).
    exists t2. split; [exact Ht2|]. split; [exact Hd2 | lia].
Qed.

End progress.

(** X22.  No request of the two-tier governor is stuck for good: from
    every state, once the context of a request is done (the deadline
    that [queue()] sets makes sure it is, in the end), six turns in
    which its goroutine first notices the context and then runs bring
    the request to its end, whatever the other requests do in the
    meantime and whichever way the semaphore decides. *)
Theorem request_finishes
  (rev : semaphore.revision) (p : Params) (g : governor) (id : nat)
  (t : goroutine) (gaps : list (list event * list event)) :
  goroutines g !! id = Some t ->
  length gaps = 6%nat ->
  exists t' o,
    goroutines (fold_left (governor_step rev p) (CtxDone id :: rounds id gaps) g) !! id
      = Some t' /\
    g_at t' = Finished o.
Proof.
  intros Ht Hlen. simpl.
  assert (Ht0 : goroutines {| concurrent := concurrent g; burst := burst g;
                              goroutines := alter mark_done id (goroutines g) |} !! id
                = Some (mark_done t))
    by (simpl; rewrite lookup_alter_eq, Ht; reflexivity).
  destruct (rounds_progress rev p gaps _ id _ Ht0 eq_refl) as (t' & Ht' & _ & Hr).
  assert (Hrank : (rank (g_at t) <= 6)%nat) by (destruct (g_at t); simpl; lia).
  simpl in Hr. rewrite Hlen in Hr.
  destruct (rank_finished (g_at t')) as [o Ho]; [lia|].
  exists t', o. split; [exact Ht' | exact Ho].
Qed.

Lemma request_finishes_witness :
  goroutines (fold_left (governor_step semaphore.Plain queueing_params)
                waiting_scenario (governor_init queueing_params)) !! 2%nat
    = Some waiting_goroutine /\
  length (replicate 6 ([Run 1], [Arrive 3 (mkRequest "example.com" "/"); Run 3]))
    = 6%nat /\
  exists t' o,
    goroutines
      (fold_left (governor_step semaphore.Plain queueing_params)
         (CtxDone 2
          :: rounds 2 (replicate 6 ([Run 1], [Arrive 3 (mkRequest "example.com" "/"); Run 3])))
         (fold_left (governor_step semaphore.Plain queueing_params)
            waiting_scenario (governor_init queueing_params))) !! 2%nat
      = Some t' /\
    g_at t' = Finished o.
Proof.
  assert (H : goroutines (fold_left (governor_step semaphore.Plain queueing_params)
                            waiting_scenario (governor_init queueing_params)) !! 2%nat
              = Some waiting_goroutine)
    by (vm_compute; reflexivity).
  split; [exact H|]. split; [reflexivity|].
  apply (request_finishes semaphore.Plain queueing_params _ 2 waiting_goroutine
           (replicate 6 ([Run 1], [Arrive 3 (mkRequest "example.com" "/"); Run 3]))
           H eq_refl).
Defined.

Section simple_progress.

Context (p : Params).

Lemma simple_move_rank l cost l' acts :
  simple_move p l cost l' acts -> simple_pc l = true ->
  (simple_rank l' < simple_rank l)%nat /\ simple_pc l' = true.
Proof.
  destruct 1; simpl; intros Hpc; try (split; [lia | reflexivity]).
  destruct r; [split; [lia | reflexivity] | discriminate].
Qed.

Lemma simple_moved_at g g' id0 id t :
  simple_moved p g g' id0 -> s_goroutines g !! id = Some t ->
  simple_pc (g_at t) = true ->
  exists t', s_goroutines g' !! id = Some t' /\ simple_pc (g_at t') = true /\
    (simple_rank (g_at t') <= simple_rank (g_at t))%nat.
Proof.
  intros (t0 & l & acts & closed & b & Ht0 & Hmv & Hg' & _) Ht Hpc.
  rewrite Hg', wake_lookup. destruct (decide (id0 = id)) as [->|Hne].
  - rewrite lookup_insert_eq. rewrite Ht in Ht0. injection Ht0 as <-.
    destruct (simple_move_rank _ _ _ _ Hmv Hpc) as [Hr Hpc'].
    destruct (decide (id ∈ closed)); simpl; eexists;
      (split; [reflexivity|]); simpl; (split; [exact Hpc' | lia]).
  - rewrite lookup_insert_ne by exact Hne. rewrite Ht.
    destruct (decide (id ∈ closed)); simpl; eexists;
      (split; [reflexivity|]); simpl; (split; [exact Hpc | lia]).
Qed.

Lemma simple_step_mono g e id t :
  s_goroutines g !! id = Some t -> simple_pc (g_at t) = true ->
  exists t', s_goroutines (simple_step p g e) !! id = Some t' /\
    simple_pc (g_at t') = true /\
    (simple_rank (g_at t') <= simple_rank (g_at t))%nat.
Proof.
  intros Ht Hpc. destruct e as [id0 req|id0|id0|id0]; simpl; [| | |eauto].
  - destruct (s_goroutines g !! id0) eqn:Hid0; [eauto|]. simpl.
    rewrite lookup_insert_ne by congruence. eauto.
  - destruct (decide (id0 = id)) as [->|Hne].
    + rewrite lookup_alter_eq, Ht. simpl. eexists. split; [reflexivity|]. simpl. auto.
    + rewrite lookup_alter_ne by exact Hne. eauto.
  - destruct (simple_run_shape p g id0) as [->|Hm]; [eauto|].
    apply (simple_moved_at _ _ _ _ _ Hm Ht Hpc).
Qed.

Lemma simple_steps_mono evs : forall g id t,
  s_goroutines g !! id = Some t -> simple_pc (g_at t) = true ->
  exists t', s_goroutines (fold_left (simple_step p) evs g) !! id = Some t' /\
    simple_pc (g_at t') = true /\
    (simple_rank (g_at t') <= simple_rank (g_at t))%nat.
Proof.
  induction evs as [|e evs IH]; intros g id t Ht Hpc; simpl; [eauto|].
  destruct (simple_step_mono g e id t Ht Hpc) as (t1 & Ht1 & Hpc1 & Hr1).
  destruct (IH _ id t1 Ht1 Hpc1) as (t2 & Ht2 & Hpc2 & Hr2).
  exists t2. split; [exact Ht2|]. split; [exact Hpc2 | lia].
Qed.

Lemma simple_run_progress g id t :
  s_goroutines g !! id = Some t -> simple_pc (g_at t) = true ->
  exists t', s_goroutines (simple_run p id g) !! id = Some t' /\
    simple_pc (g_at t') = true /\
    (simple_rank (g_at t') <= pred (simple_rank (g_at t)))%nat.
Proof.
  intros Ht Hpc. unfold simple_run. rewrite Ht.
  destruct (g_at t) as [| | | | | | |[|]| |o|o] eqn:Hat; try discriminate Hpc.
  - destruct (g_cost t =? 0).
    + simpl. rewrite lookup_insert_eq. eexists. split; [reflexivity|].
      simpl. split; [reflexivity | lia].
    + destruct (semaphore.TryAcquire (sem g) (g_cost t)) as [s [|]]; simpl;
        rewrite lookup_insert_eq; eexists; (split; [reflexivity|]);
        simpl; (split; [reflexivity | lia]).
  - simpl. rewrite lookup_insert_eq. eexists. split; [reflexivity|].
    simpl. split; [reflexivity | lia].
  - simpl. rewrite lookup_insert_eq. eexists. split; [reflexivity|].
    simpl. split; [reflexivity | lia].
  - destruct (semaphore.Release (sem g) (g_cost t)) as [[s closed] panic].
    simpl. rewrite wake_lookup, lookup_insert_eq.
    destruct (decide (id ∈ closed)); simpl; eexists; (split; [reflexivity|]);
      simpl; (split; [reflexivity | lia]).
  - exists t. rewrite Hat. split; [exact Ht|]. split; [exact Hpc | simpl; lia].
Qed.

End simple_progress.

(** X23.  The single-tier governor never blocks: in every state it can
    reach, two steps of a request's own goroutine bring the request to
    its end, whatever happens before, between and after them. *)
Theorem single_tier_never_blocks
  (rev : semaphore.revision) (p : Params) (evs : list event) (g : simpleGovernor)
  (id : nat) (t : goroutine) (between after : list event) :
  run rev p evs = SingleTier g ->
  s_goroutines g !! id = Some t ->
  exists t' o,
    s_goroutines (fold_left (simple_step p)
                    (Run id :: between ++ Run id :: after)%list g) !! id = Some t' /\
    g_at t' = Finished o.
Proof.
  intros Hrun Ht.
  destruct (single_tier_goroutine rev p evs g id t Hrun Ht) as (_ & Hpc & _).
  change (Run id :: between ++ Run id :: after)%list
    with ([Run id] ++ between ++ [Run id] ++ after)%list.
  rewrite !fold_left_app. simpl.
  destruct (simple_run_progress p g id t Ht Hpc) as (t1 & Ht1 & Hpc1 & Hr1).
  destruct (simple_steps_mono p between _ id t1 Ht1 Hpc1) as (t2 & Ht2 & Hpc2 & Hr2).
  destruct (simple_run_progress p _ id t2 Ht2 Hpc2) as (t3 & Ht3 & Hpc3 & Hr3).
  destruct (simple_steps_mono p after _ id t3 Ht3 Hpc3) as (t4 & Ht4 & Hpc4 & Hr4).
  assert (Hrank : (simple_rank (g_at t) <= 2)%nat) by (destruct (g_at t); simpl; lia).
  exists t4. destruct (g_at t4) as [| | | | | | |r| |o|o] eqn:Hat4;
    simpl in Hr4, Hpc4; try lia; try discriminate Hpc4.
  exists o. split; [exact Ht4 | reflexivity].
Qed.

Lemma single_tier_never_blocks_witness :
  run semaphore.Plain single_params [Arrive 1 (mkRequest "example.com" "/")]
    = SingleTier (fold_left (simple_step single_params)
                    [Arrive 1 (mkRequest "example.com" "/")] (simple_init single_params)) /\
  s_goroutines (fold_left (simple_step single_params)
                  [Arrive 1 (mkRequest "example.com" "/")] (simple_init single_params))
    !! 1%nat = Some (spawn 1) /\
  exists t' o,
    s_goroutines
      (fold_left (simple_step single_params)
         (Run 1 :: [Arrive 2 (mkRequest "example.com" "/"); Run 2] ++ Run 1 :: [Run 2])%list
         (fold_left (simple_step single_params)
            [Arrive 1 (mkRequest "example.com" "/")] (simple_init single_params)))
      !! 1%nat = Some t' /\
    g_at t' = Finished o.
Proof.
  assert (H1 : run semaphore.Plain single_params [Arrive 1 (mkRequest "example.com" "/")]
               = SingleTier (fold_left (simple_step single_params)
                               [Arrive 1 (mkRequest "example.com" "/")]
                               (simple_init single_params)))
    by (apply run_single_tier; [intros E; inversion E | simpl; lia]).
  assert (H2 : s_goroutines (fold_left (simple_step single_params)
                               [Arrive 1 (mkRequest "example.com" "/")]
                               (simple_init single_params)) !! 1%nat
               = Some (spawn 1))
    by (vm_compute; reflexivity).
  split; [exact H1|]. split; [exact H2|].
  apply (single_tier_never_blocks semaphore.Plain single_params _ _ 1 (spawn 1)
           [Arrive 2 (mkRequest "example.com" "/"); Run 2] [Run 2] H1 H2).
Defined.
